(** * DBML comment and table-order preservation (dbml-comments.ts)

    A shallow embedding of [src/lib/dbml/dbml-comments/dbml-comments.ts]:
    [extractTableOrder], [extractComments], [mergeComments],
    [parseDBMLIntoBlocks] and [reorderDBML], together with the string
    primitives and the regular expressions they are built from.  The
    regular expressions are kept as patterns and run by a backtracking
    matcher; the loops become folds over the lines, with the loop
    variables in a record.

    A JavaScript string is a sequence of UTF-16 code units; it is modelled
    as a list of [N].  None of the regular expressions of the file carries
    the [u] flag, so they work on code units as well.

    The second part states and proves the properties of these functions:
    what the extractors return, how the reorderer sorts the table blocks
    and cleans up blank lines, and when the merger leaves a text alone. *)

From Stdlib Require Import List ZArith NArith Lia Bool String Ascii.
From Stdlib Require Import Sorted Permutation.
From stdpp Require Import gmap.
Import ListNotations.

Local Open Scope N_scope.
Local Open Scope list_scope.

(** ** Strings *)

Abbreviation char := N (only parsing).
Abbreviation str := (list N) (only parsing).

(** An ASCII literal as a JavaScript string. *)
Definition lit (s : string) : str :=
  List.map N_of_ascii (list_ascii_of_string s).

Definition LF : char := 10.
Definition DQUOTE : char := 34.
Definition DOT : char := 46.
Definition SLASH : char := 47.
Definition STAR : char := 42.
Definition LBRACE : char := 123.
Definition RBRACE : char := 125.

(** [\s] of a regular expression and the characters removed by
    [String.prototype.trim]: WhiteSpace and LineTerminator of ECMAScript. *)
Definition isSpace (c : char) : bool :=
  (c =? 9) || (c =? 10) || (c =? 11) || (c =? 12) || (c =? 13) || (c =? 32)
  || (c =? 160) || (c =? 5760) || ((8192 <=? c) && (c <=? 8202))
  || (c =? 8232) || (c =? 8233) || (c =? 8239) || (c =? 8287)
  || (c =? 12288) || (c =? 65279).

(** The characters [.] does not match: LF, CR, U+2028, U+2029. *)
Definition isLineTerminator (c : char) : bool :=
  (c =? 10) || (c =? 13) || (c =? 8232) || (c =? 8233).

(** [\w]: [A-Za-z0-9_].  The [i] flag (without [u]) adds nothing to it. *)
Definition isWord (c : char) : bool :=
  ((65 <=? c) && (c <=? 90)) || ((97 <=? c) && (c <=? 122))
  || ((48 <=? c) && (c <=? 57)) || (c =? 95).

(** Case-insensitive comparison with an ASCII letter of a pattern: without
    the [u] flag no character outside ASCII canonicalizes to an ASCII
    letter, so only the two cases of the letter match. *)
Definition eqCI (p c : char) : bool :=
  (c =? p)
  || ((65 <=? p) && (p <=? 90) && (c =? p + 32))
  || ((97 <=? p) && (p <=? 122) && (c =? p - 32)).

Fixpoint dropWhile (f : char -> bool) (s : str) : str :=
  match s with
  | [] => []
  | c :: r => if f c then dropWhile f r else s
  end.

Fixpoint takeWhile (f : char -> bool) (s : str) : str :=
  match s with
  | [] => []
  | c :: r => if f c then c :: takeWhile f r else []
  end.

Definition trimStart (s : str) : str := dropWhile isSpace s.
Definition trimEnd (s : str) : str := rev (dropWhile isSpace (rev s)).

(** [s.trim()] *)
Definition trim (s : str) : str := trimEnd (trimStart s).

(** [s.split('\n')]: never empty, the empty string splits into one
    empty line. *)
Fixpoint split (s : str) : list str :=
  match s with
  | [] => [[]]
  | c :: r =>
      if c =? LF then [] :: split r
      else match split r with
           | l :: ls => (c :: l) :: ls
           | [] => [[c]]
           end
  end.

(** [parts.join('\n')] *)
Fixpoint join (parts : list str) : str :=
  match parts with
  | [] => []
  | [p] => p
  | p :: ps => p ++ LF :: join ps
  end.

(** [s.startsWith(p)], returning what follows the prefix. *)
Fixpoint stripPrefix (p s : str) : option str :=
  match p, s with
  | [], _ => Some s
  | a :: p', c :: s' => if c =? a then stripPrefix p' s' else None
  | _ :: _, [] => None
  end.

(** The same, comparing letters without regard to case. *)
Fixpoint stripPrefixCI (p s : str) : option str :=
  match p, s with
  | [], _ => Some s
  | a :: p', c :: s' => if eqCI a c then stripPrefixCI p' s' else None
  | _ :: _, [] => None
  end.

(** [s.includes(p)] *)
Fixpoint includes (p s : str) : bool :=
  match stripPrefix p s with
  | Some _ => true
  | None => match s with
            | [] => false
            | _ :: r => includes p r
            end
  end.

(** [s.endsWith('\n')] *)
Definition endsWithLF (s : str) : bool :=
  match rev s with
  | c :: _ => c =? LF
  | [] => false
  end.

(** [(line.match(/c/g) || []).length] for a single character [c]. *)
Definition countChar (c : char) (s : str) : Z :=
  Z.of_nat (List.length (List.filter (N.eqb c) s)).

(** [x || undefined] on [string | null | undefined]: the empty string
    is falsy. *)
Definition truthy (x : option str) : option str :=
  match x with
  | Some (_ :: _) => x
  | _ => None
  end.

(** ** Regular expressions *)

(** The patterns of the file use literal characters, classes, sequence,
    alternation, an optional group, capture groups, the end anchor, and
    quantifiers that apply to one class only.  [Star], [Plus] and
    [PlusLazy] are the class followed by [*], [+] and [+?]. *)
Inductive regex : Type :=
| Eps
| Class (p : N -> bool)
| Seq (a b : regex)
| Alt (a b : regex)
| Opt (a : regex)
| Star (p : N -> bool)
| Plus (p : N -> bool)
| PlusLazy (p : N -> bool)
| Cap (n : nat) (a : regex)
| Eol.

(** The captures of a match: [m n] is [undefined] or a string. *)
Definition captures : Type := nat -> option (list N).

Definition noCaptures : captures := fun _ => None.

Definition setCapture (n : nat) (v : str) (m : captures) : captures :=
  fun i => if (i =? n)%nat then Some v else m i.

(** A greedy quantifier takes one more character when it can, and gives
    it back when the rest of the pattern fails. *)
Fixpoint starGreedy {R : Type} (p : N -> bool) (s : str)
  (k : str -> option R) : option R :=
  match s with
  | c :: r =>
      if p c then
        match starGreedy p r k with
        | Some x => Some x
        | None => k s
        end
      else k s
  | [] => k s
  end.

(** A lazy quantifier tries the rest of the pattern first. *)
Fixpoint starLazy {R : Type} (p : N -> bool) (s : str)
  (k : str -> option R) : option R :=
  match k s with
  | Some x => Some x
  | None =>
      match s with
      | c :: r => if p c then starLazy p r k else None
      | [] => None
      end
  end.

(** The backtracking matcher, in continuation-passing style: [k] is the
    rest of the pattern, applied to what is left of the input and to the
    captures so far.  The alternatives are tried in the order of the
    ECMAScript specification. *)
Fixpoint rx {R : Type} (r : regex) (s : str) (m : captures)
  (k : str -> captures -> option R) : option R :=
  match r with
  | Eps => k s m
  | Class p =>
      match s with
      | c :: s' => if p c then k s' m else None
      | [] => None
      end
  | Seq a b => rx a s m (fun s' m' => rx b s' m' k)
  | Alt a b =>
      match rx a s m k with
      | Some x => Some x
      | None => rx b s m k
      end
  | Opt a =>
      match rx a s m k with
      | Some x => Some x
      | None => k s m
      end
  | Star p => starGreedy p s (fun s' => k s' m)
  | Plus p =>
      match s with
      | c :: s' => if p c then starGreedy p s' (fun s'' => k s'' m) else None
      | [] => None
      end
  | PlusLazy p =>
      match s with
      | c :: s' => if p c then starLazy p s' (fun s'' => k s'' m) else None
      | [] => None
      end
  | Cap n a =>
      rx a s m
        (fun s' m' =>
           k s' (setCapture n
                   (firstn (List.length s - List.length s') s) m'))
  | Eol =>
      match s with
      | [] => k s m
      | _ :: _ => None
      end
  end.

(** A match at the start of [s]: the captures, and what follows the
    match. *)
Definition matchAt (r : regex) (s : str) : option (captures * str) :=
  rx r s noCaptures (fun s' m => Some (m, s')).

Definition seqs (rs : list regex) : regex := List.fold_right Seq Eps rs.

Definition chr (c : char) : regex := Class (fun x => x =? c).

(** A literal string, and a literal string under the [i] flag. *)
Definition chars (s : str) : regex := seqs (List.map chr s).
Definition charsCI (s : str) : regex :=
  seqs (List.map (fun c => Class (eqCI c)) s).

Definition notQuote (c : char) : bool := negb (c =? DQUOTE).
Definition dot (c : char) : bool := negb (isLineTerminator c).

(** [/^Table\s+(?:Q([^Q]+)Q\.)?(?:Q([^Q]+)Q|(\w+))/i], where Q stands
    for the double quote. *)
Definition reTableSchema : regex :=
  seqs [chr DQUOTE; Cap 1 (Plus notQuote); chr DQUOTE; chr DOT].

Definition reTableName : regex :=
  Alt (seqs [chr DQUOTE; Cap 2 (Plus notQuote); chr DQUOTE])
      (Cap 3 (Plus isWord)).

Definition reTable : regex :=
  seqs [ charsCI (lit "Table"); Plus isSpace; Opt reTableSchema;
         reTableName ].

(** [/^Enum\s+/i] *)
Definition reEnum : regex := seqs [charsCI (lit "Enum"); Plus isSpace].

(** [/^Ref\s*[:{]/i] *)
Definition reRef : regex :=
  seqs [ charsCI (lit "Ref"); Star isSpace;
         Class (fun c => (c =? 58) || (c =? LBRACE)) ].

(** [/^\/\/( .* )$/] *)
Definition reSingleLine : regex :=
  seqs [chars [SLASH; SLASH]; Cap 1 (Star dot); Eol].

(** [/^(.+?)(\/\/.* )$/] *)
Definition reInline : regex :=
  seqs [ Cap 1 (PlusLazy dot);
         Cap 2 (seqs [chars [SLASH; SLASH]; Star dot]); Eol ].

(** [/^Q([^Q]+)Q/] *)
Definition reField : regex :=
  seqs [chr DQUOTE; Cap 1 (Plus notQuote); chr DQUOTE].

(** [/^\/\*/] *)
Definition reMultiLineStart : regex := chars [SLASH; STAR].

(** [/\n\s*\n\s*\n/] *)
Definition reBlank : regex :=
  seqs [chr LF; Star isSpace; chr LF; Star isSpace; chr LF].

(** The pattern matches at the start of [s]. *)
Definition matches (r : regex) (s : str) : bool :=
  match matchAt r s with Some _ => true | None => false end.

(** [a || b] on [string | undefined]. *)
Definition orElse (a b : option str) : option str :=
  match truthy a with
  | Some x => Some x
  | None => b
  end.

(** [(m[1], m[2] || m[3] || '')] *)
Definition tableOfMatch (x : option (captures * str))
  : option (option str * str) :=
  match x with
  | Some (m, _) => Some (m 1%nat, default [] (orElse (m 2%nat) (truthy (m 3%nat))))
  | None => None
  end.

(** [(m[1], m[2])] *)
Definition inlineOfMatch (x : option (captures * list N))
  : option (list N * list N) :=
  match x with
  | Some (m, _) =>
      match m 1%nat, m 2%nat with
      | Some code, Some commentPart => Some (code, commentPart)
      | _, _ => None
      end
  | None => None
  end.

(** ** The matches of the source *)

(** [trimmedLine.match(/^Table.../i)], as [(m[1], m[2] || m[3] || '')].
    [extractComments] and [mergeComments] take the name as
    [m[2] || m[3] || m[1] || ''], which is the same string: a match
    always has capture 2 or capture 3 (lemma [matchTable_name_first]). *)
Definition matchTable (t : str) : option (option str * str) :=
  tableOfMatch (matchAt reTable t).

(** [trimmedLine.match(/^Enum\s+/i)] *)
Definition matchEnum (t : str) : bool := matches reEnum t.

(** [trimmedLine.match(/^Ref\s*[:{]/i)] *)
Definition matchRef (t : str) : bool := matches reRef t.

(** [trimmedLine.match(/^\/\/( .* )$/)] *)
Definition matchSingleLine (t : str) : bool := matches reSingleLine t.

(** [line.match(/^(.+?)(\/\/.* )$/)], as [(m[1], m[2])]. *)
Definition matchInline (line : str) : option (str * str) :=
  inlineOfMatch (matchAt reInline line).

(** [s.match(/^Q([^Q]+)Q/)], as [m[1]]. *)
Definition matchField (t : str) : option str :=
  match matchAt reField t with
  | Some (m, _) => m 1%nat
  | None => None
  end.

(** [trimmedLine.match(/^\/\*/)] *)
Definition matchMultiLineStart (t : str) : bool := matches reMultiLineStart t.

(** A match of [/\n\s*\n\s*\n/] at the start of [s]: what follows it. *)
Definition matchBlank (s : str) : option str :=
  option_map snd (matchAt reBlank s).

(** ** extractTableOrder *)

Record DBMLTableOrder := mkOrder {
  tableName : str;
  schemaName : option str
}.

Definition extractTableOrder (dbml : str) : list DBMLTableOrder :=
  List.fold_left
    (fun tableOrder line =>
       match matchTable (trim line) with
       | Some (schema, name) => tableOrder ++ [mkOrder name schema]
       | None => tableOrder
       end)
    (split dbml) [].

(** ** extractComments *)

Inductive CommentType := header | table | field | footer | inline.

Record Context := mkContext {
  ctxTable : option str;
  ctxField : option str
}.

Record DBMLComment := mkComment {
  ctype : CommentType;
  text : str;
  context : option Context
}.

(** The variables of the scanning loop.  [skip] counts the lines the
    loop index has still to jump over after [i = j]. *)
Record ExtractState := mkExtract {
  comments : list DBMLComment;
  currentTable : option str;
  inTableBlock : bool;
  braceDepth : Z;
  foundFirstDefinition : bool;
  pendingComments : list str;
  skip : nat
}.

Definition extractInit : ExtractState :=
  mkExtract [] None false 0 false [] 0.

(** The [while] loop that looks for the end of a multi-line comment:
    [cur] is [lines[j]] and [rest] the lines after it.  The result is the
    lines appended to the comment; its length is [j - i], except that a
    comment left open consumes the input to its end. *)
Fixpoint multiLineTail (cur : str) (rest : list str) : list str :=
  if includes [STAR; SLASH] cur then []
  else match rest with
       | [] => []
       | l :: rest' => l :: multiLineTail l rest'
       end.

(** The number of iterations the loop skips after [i = j]: [j - i],
    where [j] stops at [lines.length] when no line closes the comment. *)
Fixpoint multiLineSkip (cur : str) (rest : list str) : nat :=
  if includes [STAR; SLASH] cur then 0%nat
  else match rest with
       | [] => 1%nat
       | l :: rest' => S (multiLineSkip l rest')
       end.

(** A comment that is a line of its own (single-line or multi-line):
    buffered before the first definition, a [field] record inside a table
    body, buffered otherwise. *)
Definition placeComment (st : ExtractState) (txt : str) : ExtractState :=
  if negb (foundFirstDefinition st) then
    mkExtract (comments st) (currentTable st) (inTableBlock st)
      (braceDepth st) (foundFirstDefinition st)
      (pendingComments st ++ [txt]) (skip st)
  else if inTableBlock st && (0 <? braceDepth st)%Z then
    mkExtract
      (comments st
         ++ [mkComment field txt
               (Some (mkContext (truthy (currentTable st)) None))])
      (currentTable st) (inTableBlock st) (braceDepth st)
      (foundFirstDefinition st) (pendingComments st) (skip st)
  else
    mkExtract (comments st) (currentTable st) (inTableBlock st)
      (braceDepth st) (foundFirstDefinition st)
      (pendingComments st ++ [txt]) (skip st).

(** The table-definition check of one iteration. *)
Definition onTable (t : str) (st : ExtractState) : ExtractState :=
  match matchTable t with
  | Some (_, name) =>
      let flushed :=
        match pendingComments st with
        | [] => comments st
        | _ :: _ =>
            if negb (foundFirstDefinition st) then
              comments st
                ++ [mkComment header (join (pendingComments st)) None]
            else
              comments st
                ++ [mkComment table (join (pendingComments st))
                      (Some (mkContext (Some name) None))]
        end in
      mkExtract flushed (Some name) true (braceDepth st) true [] (skip st)
  | None => st
  end.

(** The Enum-definition check. *)
Definition onEnum (t : str) (st : ExtractState) : ExtractState :=
  if matchEnum t then
    match pendingComments st, truthy (currentTable st) with
    | _ :: _, None =>
        mkExtract
          (comments st
             ++ [mkComment header (join (pendingComments st)) None])
          (currentTable st) (inTableBlock st) (braceDepth st) true []
          (skip st)
    | _, _ =>
        mkExtract (comments st) (currentTable st) (inTableBlock st)
          (braceDepth st) true (pendingComments st) (skip st)
    end
  else st.

(** The single-line comment check. *)
Definition onSingleLine (line t : str) (st : ExtractState) : ExtractState :=
  if matchSingleLine t then placeComment st line else st.

(** The inline comment check. *)
Definition onInline (line t : str) (st : ExtractState) : ExtractState :=
  match matchInline line with
  | Some (code, commentPart) =>
      if negb (matchSingleLine t) then
        match matchField (trim code) with
        | Some fieldName =>
            if inTableBlock st then
              mkExtract
                (comments st
                   ++ [mkComment inline commentPart
                         (Some (mkContext (truthy (currentTable st))
                                  (Some fieldName)))])
                (currentTable st) (inTableBlock st) (braceDepth st)
                (foundFirstDefinition st) (pendingComments st) (skip st)
            else st
        | None => st
        end
      else st
  | None => st
  end.

(** The multi-line comment check; [rest] is [lines[i+1..]]. *)
Definition onMultiLine (line t : str) (rest : list str) (st : ExtractState)
  : ExtractState :=
  if matchMultiLineStart t then
    let multiLineComment :=
      line ++ concat (List.map (fun l => LF :: l) (multiLineTail line rest)) in
    let st' := placeComment st multiLineComment in
    mkExtract (comments st') (currentTable st') (inTableBlock st')
      (braceDepth st') (foundFirstDefinition st') (pendingComments st')
      (multiLineSkip line rest)
  else st.

(** The brace-depth update and the exit check that end an iteration. *)
Definition onBraces (line : str) (st : ExtractState) : ExtractState :=
  let openBraces := countChar LBRACE line in
  let closeBraces := countChar RBRACE line in
  let depth := (braceDepth st + (openBraces - closeBraces))%Z in
  if inTableBlock st && (depth =? 0)%Z && (0 <? closeBraces)%Z then
    mkExtract (comments st) None false depth (foundFirstDefinition st)
      (pendingComments st) (skip st)
  else
    mkExtract (comments st) (currentTable st) (inTableBlock st) depth
      (foundFirstDefinition st) (pendingComments st) (skip st).

(** One iteration of the loop on [lines[i] = line]. *)
Definition extractStep (st : ExtractState) (line : str) (rest : list str)
  : ExtractState :=
  let t := trim line in
  onBraces line
    (onMultiLine line t rest
       (onInline line t
          (onSingleLine line t
             (onEnum t
                (onTable t st))))).

(** The [for] loop over the lines. *)
Fixpoint extractLoop (st : ExtractState) (lines : list str) : ExtractState :=
  match lines with
  | [] => st
  | line :: rest =>
      match skip st with
      | S k =>
          extractLoop
            (mkExtract (comments st) (currentTable st) (inTableBlock st)
               (braceDepth st) (foundFirstDefinition st)
               (pendingComments st) k)
            rest
      | O => extractLoop (extractStep st line rest) rest
      end
  end.

(** What remains in the buffer after the loop. *)
Definition extractFinish (st : ExtractState) : list DBMLComment :=
  match pendingComments st with
  | [] => comments st
  | _ :: _ =>
      if negb (foundFirstDefinition st) then
        comments st ++ [mkComment header (join (pendingComments st)) None]
      else
        comments st ++ [mkComment footer (join (pendingComments st)) None]
  end.

Definition extractComments (dbml : str) : list DBMLComment :=
  extractFinish (extractLoop extractInit (split dbml)).

(** ** mergeComments *)

(** The three lookup tables built from the comment list. *)
Record CommentMaps := mkMaps {
  tableComments : gmap (list N) (list (list N));
  fieldComments : gmap (list N) (list (list N));
  inlineFieldComments : gmap (list N) (list N)
}.

(** The key of an inline comment: the template [table.field]. *)
Definition inlineKey (tbl fld : str) : str := tbl ++ DOT :: fld.

(** [comment.context?.tableName] and [comment.context?.fieldName]. *)
Definition commentTable (c : DBMLComment) : option str :=
  match context c with
  | Some ctx => truthy (ctxTable ctx)
  | None => None
  end.

Definition commentField (c : DBMLComment) : option str :=
  match context c with
  | Some ctx => truthy (ctxField ctx)
  | None => None
  end.

(** [existing = map.get(key) || []; existing.push(text); map.set(key, existing)] *)
Definition pushTo (key txt : str) (m : gmap (list N) (list (list N)))
  : gmap (list N) (list (list N)) :=
  <[key := default [] (m !! key) ++ [txt]]> m.

(** One iteration of the loop that fills the tables. *)
Definition addComment (m : CommentMaps) (c : DBMLComment) : CommentMaps :=
  match ctype c, commentTable c, commentField c with
  | table, Some tbl, _ =>
      mkMaps (pushTo tbl (text c) (tableComments m)) (fieldComments m)
        (inlineFieldComments m)
  | field, Some tbl, _ =>
      mkMaps (tableComments m) (pushTo tbl (text c) (fieldComments m))
        (inlineFieldComments m)
  | inline, Some tbl, Some fld =>
      mkMaps (tableComments m) (fieldComments m)
        (<[inlineKey tbl fld := text c]> (inlineFieldComments m))
  | _, _, _ => m
  end.

Definition buildMaps (cs : list DBMLComment) : CommentMaps :=
  List.fold_left addComment cs (mkMaps ∅ ∅ ∅).

Definition isType (ty : CommentType) (c : DBMLComment) : bool :=
  match ty, ctype c with
  | header, header | table, table | field, field
  | footer, footer | inline, inline => true
  | _, _ => false
  end.

Record MergeState := mkMerge {
  result : list str;
  mCurrentTable : option str;
  mInTableBlock : bool;
  mBraceDepth : Z;
  tableFieldCommentsAdded : bool
}.

(** The table-definition check: the table comments go before the line. *)
Definition mergeOnTable (m : CommentMaps) (t : str) (st : MergeState)
  : MergeState :=
  match matchTable t with
  | Some (_, name) =>
      mkMerge (result st ++ default [] (tableComments m !! name))
        (Some name) true (mBraceDepth st) false
  | None => st
  end.

(** The field comments go at the start of the table body, once. *)
Definition mergeOnBody (m : CommentMaps) (st : MergeState) : MergeState :=
  match truthy (mCurrentTable st) with
  | Some tbl =>
      if mInTableBlock st && (0 <? mBraceDepth st)%Z
         && negb (tableFieldCommentsAdded st)
      then
        mkMerge (result st ++ default [] (fieldComments m !! tbl))
          (mCurrentTable st) (mInTableBlock st) (mBraceDepth st) true
      else st
  | None => st
  end.

(** The line as it is emitted: with its inline comment when the line is
    a field line of the current table that has one and carries no [//]
    yet. *)
Definition mergeLine (m : CommentMaps) (line t : str) (st : MergeState)
  : str :=
  match truthy (mCurrentTable st), matchField t with
  | Some tbl, Some fieldName =>
      if mInTableBlock st then
        match truthy (inlineFieldComments m !! inlineKey tbl fieldName) with
        | Some inlineComment =>
            if negb (includes [SLASH; SLASH] line)
            then line ++ 32 :: inlineComment
            else line
        | None => line
        end
      else line
  | _, _ => line
  end.

(** The line is pushed, the depth updated and the exit check made (the
    same on the path that ends in [continue] and on the other). *)
Definition mergeEmit (line out : str) (st : MergeState) : MergeState :=
  let openBraces := countChar LBRACE line in
  let closeBraces := countChar RBRACE line in
  let depth := (mBraceDepth st + (openBraces - closeBraces))%Z in
  if mInTableBlock st && (depth =? 0)%Z && (0 <? closeBraces)%Z then
    mkMerge (result st ++ [out]) None false depth
      (tableFieldCommentsAdded st)
  else
    mkMerge (result st ++ [out]) (mCurrentTable st) (mInTableBlock st) depth
      (tableFieldCommentsAdded st).

Definition mergeStep (m : CommentMaps) (st : MergeState) (line : str)
  : MergeState :=
  let t := trim line in
  let st1 := mergeOnBody m (mergeOnTable m t st) in
  mergeEmit line (mergeLine m line t st1) st1.

Definition mergeComments (regeneratedDbml : str) (cs : list DBMLComment)
  : str :=
  match cs with
  | [] => regeneratedDbml
  | _ :: _ =>
      let lines := split regeneratedDbml in
      let headerComments := List.filter (isType header) cs in
      let result0 :=
        List.map text headerComments
          ++ (match headerComments, lines with
              | _ :: _, _ :: _ => [[]]
              | _, _ => []
              end) in
      let st :=
        List.fold_left (mergeStep (buildMaps cs)) lines
          (mkMerge result0 None false 0 false) in
      let footerComments := List.filter (isType footer) cs in
      join (result st
              ++ match footerComments with
                 | [] => []
                 | _ :: _ => [] :: List.map text footerComments
                 end)
  end.

(** ** parseDBMLIntoBlocks *)

Inductive BlockType := bEnum | bTable | bRef | bOther.

Record DBMLBlock := mkBlock {
  btype : BlockType;
  content : str;
  bTableName : option str;
  bSchemaName : option str
}.

Record ParseState := mkParse {
  blocks : list DBMLBlock;
  currentBlock : list str;
  currentType : option BlockType;
  currentTableName : option str;
  currentSchemaName : option str;
  pBraceDepth : Z
}.

Definition flushBlock (st : ParseState) : ParseState :=
  mkParse
    (match currentBlock st, currentType st with
     | _ :: _, Some ty =>
         blocks st
           ++ [mkBlock ty (join (currentBlock st)) (currentTableName st)
                 (currentSchemaName st)]
     | _, _ => blocks st
     end)
    [] None None None (pBraceDepth st).

(** The three checks for the start of a block, made at depth 0. *)
Definition startTable (t : str) (st : ParseState) : ParseState :=
  match matchTable t with
  | Some (schema, name) =>
      let st' := flushBlock st in
      mkParse (blocks st') (currentBlock st') (Some bTable) (Some name)
        schema (pBraceDepth st')
  | None => st
  end.

Definition startEnum (t : str) (st : ParseState) : ParseState :=
  if matchEnum t then
    let st' := flushBlock st in
    mkParse (blocks st') (currentBlock st') (Some bEnum)
      (currentTableName st') (currentSchemaName st') (pBraceDepth st')
  else st.

Definition startRef (t : str) (st : ParseState) : ParseState :=
  if matchRef t then
    let st' := flushBlock st in
    mkParse (blocks st') (currentBlock st') (Some bRef)
      (currentTableName st') (currentSchemaName st') (pBraceDepth st')
  else st.

(** The line joins the open block, or stands alone. *)
Definition addLine (line t : str) (st : ParseState) : ParseState :=
  match currentType st with
  | Some _ =>
      mkParse (blocks st) (currentBlock st ++ [line]) (currentType st)
        (currentTableName st) (currentSchemaName st) (pBraceDepth st)
  | None =>
      match t, blocks st with
      | _ :: _, _ =>
          mkParse (blocks st ++ [mkBlock bOther line None None])
            (currentBlock st) (currentType st) (currentTableName st)
            (currentSchemaName st) (pBraceDepth st)
      | [], _ :: _ =>
          mkParse (blocks st ++ [mkBlock bOther [] None None])
            (currentBlock st) (currentType st) (currentTableName st)
            (currentSchemaName st) (pBraceDepth st)
      | [], [] => st
      end
  end.

(** The depth update and the check that the block is complete. *)
Definition closeLine (line : str) (st : ParseState) : ParseState :=
  let openBraces := countChar LBRACE line in
  let closeBraces := countChar RBRACE line in
  let depth := (pBraceDepth st + (openBraces - closeBraces))%Z in
  let st' :=
    mkParse (blocks st) (currentBlock st) (currentType st)
      (currentTableName st) (currentSchemaName st) depth in
  match currentType st with
  | Some _ =>
      if (depth =? 0)%Z && (0 <? closeBraces)%Z then flushBlock st' else st'
  | None => st'
  end.

Definition parseStep (st : ParseState) (line : str) : ParseState :=
  let t := trim line in
  let st1 :=
    if (pBraceDepth st =? 0)%Z
    then startRef t (startEnum t (startTable t st))
    else st in
  closeLine line (addLine line t st1).

Definition parseDBMLIntoBlocks (dbml : str) : list DBMLBlock :=
  blocks
    (flushBlock
       (List.fold_left parseStep (split dbml)
          (mkParse [] [] None None None 0))).

(** ** reorderDBML *)

Definition isBlockType (ty : BlockType) (b : DBMLBlock) : bool :=
  match ty, btype b with
  | bEnum, bEnum | bTable, bTable | bRef, bRef | bOther, bOther => true
  | _, _ => false
  end.

(** [schema ? schema.table : table] of an entry of the original order. *)
Definition fullKey (item : DBMLTableOrder) : str :=
  match truthy (schemaName item) with
  | Some s => s ++ DOT :: tableName item
  | None => tableName item
  end.

(** One call of the [forEach] callback: two [set]s, the second of which
    wins when both keys are the same. *)
Definition setOrder (m : gmap (list N) nat) (item : DBMLTableOrder)
  (index : nat) : gmap (list N) nat :=
  <[tableName item := index]> (<[fullKey item := index]> m).

(** [originalOrder.forEach(...)], started at [index]. *)
Fixpoint buildOrderFrom (index : nat) (items : list DBMLTableOrder)
  (m : gmap (list N) nat) : gmap (list N) nat :=
  match items with
  | [] => m
  | item :: rest => buildOrderFrom (S index) rest (setOrder m item index)
  end.

Definition orderMap (originalOrder : list DBMLTableOrder)
  : gmap (list N) nat :=
  buildOrderFrom 0 originalOrder ∅.

(** A missing [tableName] inside a template literal prints as
    [undefined]. *)
Definition templateName (x : option str) : str :=
  match x with
  | Some s => s
  | None => lit "undefined"
  end.

(** [aKey] of the comparator. *)
Definition blockKey (b : DBMLBlock) : str :=
  match truthy (bSchemaName b) with
  | Some s => s ++ DOT :: templateName (bTableName b)
  | None => default [] (truthy (bTableName b))
  end.

(** [aOrder] of the comparator: [None] stands for [Infinity]. *)
Definition blockOrder (m : gmap (list N) nat) (b : DBMLBlock) : option nat :=
  match m !! blockKey b with
  | Some i => Some i
  | None => m !! default [] (truthy (bTableName b))
  end.

(** The sign of [aOrder - bOrder] is negative or zero ([Infinity -
    Infinity] is [NaN], which [sort] reads as zero). *)
Definition orderLe (a b : option nat) : bool :=
  match a, b with
  | Some x, Some y => (x <=? y)%nat
  | Some _, None => true
  | None, Some _ => false
  | None, None => true
  end.

Section Sort.
Context {A : Type} (key : A -> option nat).

(** [Array.prototype.sort] is stable, and the comparator orders the
    blocks by their key: the result is the stable sort by key, computed
    here by insertion from the right. *)
Fixpoint insertBy (x : A) (l : list A) : list A :=
  match l with
  | [] => [x]
  | y :: l' =>
      if orderLe (key x) (key y) then x :: l else y :: insertBy x l'
  end.

Fixpoint sortBy (l : list A) : list A :=
  match l with
  | [] => []
  | x :: l' => insertBy x (sortBy l')
  end.
End Sort.

(** [resultParts] *)
Definition resultParts (enumBlocks sortedTableBlocks refBlocks
                          : list DBMLBlock) : list str :=
  List.map content enumBlocks
    ++ (match enumBlocks, sortedTableBlocks with
        | _ :: _, _ :: _ => [[]]
        | _, _ => []
        end)
    ++ List.map content sortedTableBlocks
    ++ (match refBlocks with
        | [] => []
        | _ :: _ => [] :: List.map content refBlocks
        end).

(** [result.replace(/\n\s*\n\s*\n/g, '\n\n')]: at each position, from
    left to right, a match is replaced and the scan goes on after it;
    otherwise the character is kept.  A match is never empty, so [fuel]
    at least the length of [s] is enough. *)
Fixpoint replaceBlank (fuel : nat) (s : str) : str :=
  match fuel with
  | O => s
  | S fuel' =>
      match s with
      | [] => []
      | c :: r =>
          match matchBlank s with
          | Some rest => LF :: LF :: replaceBlank fuel' rest
          | None => c :: replaceBlank fuel' r
          end
      end
  end.

Definition collapseBlankLines (s : str) : str :=
  replaceBlank (List.length s) s.

(** [if (!result.endsWith('\n')) result += '\n'] *)
Definition ensureNewline (s : str) : str :=
  if endsWithLF s then s else s ++ [LF].

(** The blocks of the regenerated text that are kept, tables sorted. *)
Definition sortedTableBlocks (bs : list DBMLBlock)
  (originalOrder : list DBMLTableOrder) : list DBMLBlock :=
  sortBy (blockOrder (orderMap originalOrder))
    (List.filter (isBlockType bTable) bs).

(** The text before the blank lines are cleaned up. *)
Definition reassemble (regeneratedDbml : str)
  (originalOrder : list DBMLTableOrder) : str :=
  let bs := parseDBMLIntoBlocks regeneratedDbml in
  join (resultParts (List.filter (isBlockType bEnum) bs)
          (sortedTableBlocks bs originalOrder)
          (List.filter (isBlockType bRef) bs)).

Definition reorderDBML (regeneratedDbml : str)
  (originalOrder : list DBMLTableOrder) : str :=
  ensureNewline (collapseBlankLines (reassemble regeneratedDbml originalOrder)).

(** * The completion provider (dbml-completion-provider.ts) *)

(** [monaco.languages.CompletionItemKind], the four kinds used. *)
Inductive CompletionItemKind := Keyword | Property | TypeParameter | Text.

Record Range := mkRange {
  startLineNumber : Z;
  endLineNumber : Z;
  startColumn : Z;
  endColumn : Z
}.

Record CompletionItem := mkItem {
  label : str;
  kind : CompletionItemKind;
  insertText : str;
  range : Range
}.

Definition keywords : list str :=
  [ lit "Table"; lit "Ref"; lit "Enum"; lit "Indexes"; lit "Note";
    lit "Project"; lit "TableGroup" ].

Definition settings : list str :=
  [ lit "primary key"; lit "pk"; lit "not null"; lit "null"; lit "unique";
    lit "default"; lit "increment"; lit "note"; lit "ref" ].

(** [[a-zA-Z_]] *)
Definition isIdentStart (c : char) : bool :=
  ((97 <=? c) && (c <=? 122)) || ((65 <=? c) && (c <=? 90)) || (c =? 95).

(** [/[a-zA-Z_]\w*/] *)
Definition reIdent : regex := seqs [Class isIdentStart; Star isWord].

(** [text.match(re) || []] for a pattern [re] with the [g] flag that
    never matches the empty string: the matches from left to right, the
    scan going on after each of them. *)
Fixpoint matchAllFrom (re : regex) (fuel : nat) (s : str) : list str :=
  match fuel with
  | O => []
  | S fuel' =>
      match s with
      | [] => []
      | _ :: r =>
          match matchAt re s with
          | Some (_, rest) =>
              firstn (List.length s - List.length rest) s
                :: matchAllFrom re fuel' rest
          | None => matchAllFrom re fuel' r
          end
      end
  end.

Definition matchAll (re : regex) (s : str) : list str :=
  matchAllFrom re (List.length s) s.

(** [set.add(x)]: a [Set] keeps its elements in insertion order. *)
Definition setAdd (s : list str) (x : str) : list str :=
  if decide (x ∈ s) then s else s ++ [x].

(** [new Set(xs)] *)
Definition newSet (xs : list str) : list str := List.fold_left setAdd xs [].

(** [set.has(x)] *)
Definition setHas (s : list str) (x : str) : bool := bool_decide (x ∈ s).

Definition itemsOf (k : CompletionItemKind) (r : Range) (ws : list str)
  : list CompletionItem :=
  List.map (fun w => mkItem w k w r) ws.

(** [provideCompletionItems]: [types] is [dataTypes.map((dt) => dt.name)],
    [text] is [model.getValue()], [lineNumber] is [position.lineNumber]
    and the two columns are those of [model.getWordUntilPosition]. *)
Definition provideCompletionItems (types : list str) (text : str)
  (lineNumber wordStart wordEnd : Z) : list CompletionItem :=
  let range := mkRange lineNumber lineNumber wordStart wordEnd in
  let uniqueWords := newSet (matchAll reIdent text) in
  let existingLabels := newSet (keywords ++ settings ++ types) in
  let wordSuggestions :=
    itemsOf Text range
      (List.filter
         (fun w => negb (setHas existingLabels w)
                   && (1 <? List.length w)%nat)
         uniqueWords) in
  itemsOf Keyword range keywords
    ++ itemsOf Property range settings
    ++ itemsOf TypeParameter range types
    ++ wordSuggestions.

(** * Properties *)

(** ** The patterns as functions

    Each pattern written out as a function of the input, for the proofs
    to reason with; each is proved equal to the match of the source
    (section Patterns). *)

(** A quoted name at the start of [s] (a double quote, one or more
    characters other than a double quote, a double quote; written
    [Q([^Q]+)Q] below): the captured name and what follows the closing
    quote.  The class is greedy, and giving characters back never helps,
    since the next character must be the quote it stopped at. *)
Definition quoted (s : str) : option (str * str) :=
  match s with
  | c :: r =>
      if c =? DQUOTE then
        let name := takeWhile (fun x => negb (x =? DQUOTE)) r in
        match name, dropWhile (fun x => negb (x =? DQUOTE)) r with
        | _ :: _, _ :: rest => Some (name, rest)
        | _, _ => None
        end
      else None
  | [] => None
  end.

(** [(\w+)] at the start of [s], at the end of a pattern: the longest run
    of word characters, which must not be empty. *)
Definition wordTok (s : str) : option str :=
  match takeWhile isWord s with
  | [] => None
  | w => Some w
  end.

(** [(?:Q([^Q]+)Q|(\w+))]: capture 2 or capture 3. *)
Definition nameTok (s : str) : option str :=
  match quoted s with
  | Some (n, _) => Some n
  | None => wordTok s
  end.

(** [/^Table\s+(?:Q([^Q]+)Q\.)?(?:Q([^Q]+)Q|(\w+))/i] on a trimmed line.
    The result is [(m[1], m[2] || m[3])].  When the optional schema group
    matches but no name follows the dot, the matcher backtracks, skips
    the group (capture 1 is reset) and takes the quoted token as the
    name. *)
Definition scanTable (t : str) : option (option str * str) :=
  match stripPrefixCI (lit "Table") t with
  | Some (c :: r) =>
      if isSpace c then
        let r1 := dropWhile isSpace r in
        match quoted r1 with
        | Some (x, rest) =>
            match rest with
            | d :: r2 =>
                if d =? DOT then
                  match nameTok r2 with
                  | Some n => Some (Some x, n)
                  | None => Some (None, x)
                  end
                else Some (None, x)
            | [] => Some (None, x)
            end
        | None =>
            match wordTok r1 with
            | Some n => Some (None, n)
            | None => None
            end
        end
      else None
  | _ => None
  end.

(** [/^Enum\s+/i] *)
Definition scanEnum (t : str) : bool :=
  match stripPrefixCI (lit "Enum") t with
  | Some (c :: _) => isSpace c
  | _ => false
  end.

(** [/^Ref\s*[:{]/i] *)
Definition scanRef (t : str) : bool :=
  match stripPrefixCI (lit "Ref") t with
  | Some r =>
      match dropWhile isSpace r with
      | c :: _ => (c =? 58) || (c =? LBRACE)
      | [] => false
      end
  | None => false
  end.

(** [/^\/\/( .* )$/] on a trimmed line: it starts with [//] and no line
    terminator follows. *)
Definition scanSingleLine (t : str) : bool :=
  match stripPrefix [SLASH; SLASH] t with
  | Some r => forallb (fun c => negb (isLineTerminator c)) r
  | None => false
  end.

(** The rest of [/^(.+?)(\/\/.* )$/] once [.+?] has taken the characters
    of [acc] (in reverse): the lazy quantifier first tries to stop here,
    and takes one more character when that fails. *)
Fixpoint inlineLazy (acc s : str) : option (str * str) :=
  match stripPrefix [SLASH; SLASH] s with
  | Some r =>
      if forallb (fun c => negb (isLineTerminator c)) r
      then Some (rev acc, s)
      else match s with
           | c :: s' =>
               if isLineTerminator c then None else inlineLazy (c :: acc) s'
           | [] => None
           end
  | None =>
      match s with
      | c :: s' =>
          if isLineTerminator c then None else inlineLazy (c :: acc) s'
      | [] => None
      end
  end.

(** [/^(.+?)(\/\/.* )$/] on a raw line: captures 1 and 2. *)
Definition scanInline (line : str) : option (str * str) :=
  match line with
  | c :: r => if isLineTerminator c then None else inlineLazy [c] r
  | [] => None
  end.

(** [/^Q([^Q]+)Q/]: capture 1. *)
Definition scanField (t : str) : option str :=
  match quoted t with
  | Some (n, _) => Some n
  | None => None
  end.

(** [/^\/\*/] *)
Definition scanMultiLineStart (t : str) : bool :=
  match stripPrefix [SLASH; STAR] t with
  | Some _ => true
  | None => false
  end.


(** [/\n\s*\n\s*\n/]: the last [\n], after the second greedy [\s*]. *)
Definition blankEnd (s : str) : option str :=
  match s with
  | c :: r => if c =? LF then Some r else None
  | [] => None
  end.

(** The second [\s*] and what follows it: the quantifier takes a
    whitespace character and goes on, and gives it back when the rest
    does not match. *)
Fixpoint blankStar2 (s : str) : option str :=
  match s with
  | c :: r =>
      if isSpace c then
        match blankStar2 r with
        | Some rest => Some rest
        | None => blankEnd s
        end
      else blankEnd s
  | [] => blankEnd s
  end.

(** The middle [\n] and what follows it. *)
Definition blankMid (s : str) : option str :=
  match s with
  | c :: r => if c =? LF then blankStar2 r else None
  | [] => None
  end.

(** The first [\s*] and what follows it. *)
Fixpoint blankStar1 (s : str) : option str :=
  match s with
  | c :: r =>
      if isSpace c then
        match blankStar1 r with
        | Some rest => Some rest
        | None => blankMid s
        end
      else blankMid s
  | [] => blankMid s
  end.

(** A match of [/\n\s*\n\s*\n/] at the start of [s]: what follows it. *)
Definition scanBlank (s : str) : option str :=
  match s with
  | c :: r => if c =? LF then blankStar1 r else None
  | [] => None
  end.

(** ** Statements: inputs and predicates *)

(** A name between double quotes. *)
Definition quote (s : str) : str := DQUOTE :: s ++ [DQUOTE].

Definition scenario : str :=
  lit "// header" ++ [LF; LF]
    ++ lit "Table users {" ++ [LF]
    ++ lit "  " ++ quote (lit "id") ++ lit " int // pk comment" ++ [LF]
    ++ lit "}" ++ [LF].

(** A one-line reference followed by a blank line. *)
Definition refThenBlank : str := lit "Ref: a.id > b.id" ++ [LF; LF].

(** A table block of the regenerated text, by name. *)
Definition tableText (name : string) : str :=
  lit "Table " ++ lit name ++ lit " {" ++ [LF]
    ++ lit "  id int" ++ [LF] ++ lit "}".

(** Regenerated blocks C, A, D, B, separated by blank lines. *)
Definition regeneratedCADB : str :=
  tableText "C" ++ [LF; LF] ++ tableText "A" ++ [LF; LF]
    ++ tableText "D" ++ [LF; LF] ++ tableText "B" ++ [LF].

Definition originalABC : list DBMLTableOrder :=
  [mkOrder (lit "A") None; mkOrder (lit "B") None; mkOrder (lit "C") None].

(** Two entries named s.t, then table t of schema s. *)
Definition dottedOrder : list DBMLTableOrder :=
  [ mkOrder (lit "s.t") None; mkOrder (lit "s.t") None;
    mkOrder (lit "t") (Some (lit "s")) ].

(** Tables users of two schemas: the later entry shadows the earlier. *)
Definition twoUsers : list DBMLTableOrder :=
  [ mkOrder (lit "users") (Some (lit "a"));
    mkOrder (lit "orders") None;
    mkOrder (lit "users") (Some (lit "b")) ].

(** The lookup found an index for the element. *)
Definition isMatched {A : Type} (key : A -> option nat) (x : A) : bool :=
  match key x with Some _ => true | None => false end.

(** The key [k]: an index, or none. *)
Definition isKey (k x : option nat) : bool :=
  match k, x with
  | Some i, Some j => (i =? j)%nat
  | None, None => true
  | _, _ => false
  end.

(** Both keys are indices, the first at most the second. *)
Definition indexLe {A : Type} (key : A -> option nat) (a b : A) : Prop :=
  match key a, key b with
  | Some i, Some j => (i <= j)%nat
  | _, _ => False
  end.

(** The number of newlines in the whitespace [s] starts with. *)
Fixpoint lfRun (s : str) : nat :=
  match s with
  | c :: r =>
      if isSpace c
      then ((if (c =? LF)%N then 1 else 0) + lfRun r)%nat
      else 0%nat
  | [] => 0%nat
  end.

(** What follows the last newline of the whitespace [s] starts with. *)
Fixpoint skipRun (s : str) : str :=
  match s with
  | c :: r =>
      if isSpace c then
        match lfRun r with
        | O => if c =? LF then r else s
        | S _ => skipRun r
        end
      else s
  | [] => []
  end.

(** Three newlines with nothing but whitespace between them, at the
    start of [s]: two blank lines after the end of a line. *)
Definition blankRun (s : str) : Prop :=
  exists w1 w2 rest,
    s = LF :: w1 ++ LF :: w2 ++ LF :: rest
    /\ forallb isSpace w1 = true /\ forallb isSpace w2 = true.

(** Whitespace other than the newline. *)
Definition isIndent (c : char) : bool := isSpace c && negb (c =? LF).

Definition startsNonSpace (s : str) : bool :=
  match s with
  | c :: _ => negb (isSpace c)
  | [] => true
  end.

Definition endsNonSpace (s : str) : bool := startsNonSpace (rev s).

(** A table left open: three blank lines, then a last line of two
    spaces without newline. *)
Definition openTable : str := lit "Table a {" ++ [LF; LF; LF; LF; 32; 32].

(** A table with three blank lines before its only field. *)
Definition spacedTable : str :=
  lit "Table a {" ++ [LF; LF; LF; LF] ++ lit "  id int" ++ [LF] ++ lit "}".

Definition hasName (x : option str) : bool :=
  match x with
  | Some (_ :: _) => true
  | _ => false
  end.

(** The anchor a record of each type carries. *)
Definition anchorOK (c : DBMLComment) : bool :=
  match ctype c, context c with
  | inline, Some ctx => hasName (ctxTable ctx) && hasName (ctxField ctx)
  | table, Some ctx | field, Some ctx =>
      hasName (ctxTable ctx)
      && match ctxField ctx with None => true | Some _ => false end
  | header, None | footer, None => true
  | _, _ => false
  end.

(** What holds of the scanning state between two iterations: the records
    pushed so far are well anchored, and inside a table block the current
    table has a name. *)
Definition extractInv (st : ExtractState) : Prop :=
  forallb anchorOK (comments st) = true
  /\ (inTableBlock st = true -> hasName (currentTable st) = true).

(** The state after a first line that is a comment. *)
Definition afterComment : ExtractState :=
  mkExtract [] None false 0 false [lit "// about users"] 0.

(** The names the table header lines of a text are parsed to. *)
Definition tableNamesOf (dbml : str) : list str :=
  flat_map
    (fun line =>
       match matchTable (trim line) with
       | Some (_, name) => [name]
       | None => []
       end)
    (split dbml).

Definition noHeaderFooter (cs : list DBMLComment) : bool :=
  forallb (fun c => negb (isType header c) && negb (isType footer c)) cs.

(** The record carries the table name [name]. *)
Definition anchoredAt (name : str) (c : DBMLComment) : bool :=
  match context c with
  | Some ctx =>
      match ctxTable ctx with
      | Some tbl => bool_decide (tbl = name)
      | None => false
      end
  | None => false
  end.

(** No record is anchored to one of the names. *)
Definition unanchored (names : list str) (cs : list DBMLComment) : bool :=
  forallb (fun c => forallb (fun name => negb (anchoredAt name c)) names) cs.

(** The key of the inline record starts with [name] and a dot: it is the
    key of some field of table [name]. *)
Definition inlineKeyClash (name : str) (c : DBMLComment) : bool :=
  match ctype c, commentTable c, commentField c with
  | inline, Some tbl, Some fld =>
      match stripPrefix (name ++ [DOT]) (inlineKey tbl fld) with
      | Some _ => true
      | None => false
      end
  | _, _, _ => false
  end.

Definition inlineKeysClear (names : list str) (cs : list DBMLComment)
  : bool :=
  forallb (fun c => forallb (fun name => negb (inlineKeyClash name c)) names)
    cs.

Definition mapsClear (m : CommentMaps) (name : str) : Prop :=
  tableComments m !! name = None
  /\ fieldComments m !! name = None
  /\ forall fieldName,
       inlineFieldComments m !! inlineKey name fieldName = None.

(** The current table of the merger is one of the names. *)
Definition mergeInv (names : list str) (st : MergeState) : Prop :=
  match mCurrentTable st with
  | Some name => In name names
  | None => True
  end.

(** A table named a.b with a field c. *)
Definition dottedTable : str :=
  lit "Table " ++ quote (lit "a.b") ++ lit " {" ++ [LF]
    ++ lit "  " ++ quote (lit "c") ++ lit " int" ++ [LF] ++ lit "}".

(** An inline comment of field b.c of table a. *)
Definition dottedComment : list DBMLComment :=
  [ mkComment inline (lit "// x")
      (Some (mkContext (Some (lit "a")) (Some (lit "b.c")))) ].

(** A comment list extracted from a text about another table. *)
Definition ordersComments : list DBMLComment :=
  [ mkComment table (lit "// orders") (Some (mkContext (Some (lit "orders")) None));
    mkComment inline (lit "// key")
      (Some (mkContext (Some (lit "orders")) (Some (lit "id")))) ].
(** ** Statements: partitioner, lookup tables, provider *)

(** The entry a line adds to the table order. *)
Definition orderEntry (line : str) : list DBMLTableOrder :=
  match matchTable (trim line) with
  | Some (schema, name) => [mkOrder name schema]
  | None => []
  end.

(** A name that is there is not the empty string. *)
Definition nameOK (x : option str) : bool :=
  match x with
  | Some [] => false
  | _ => true
  end.

(** An entry of the original order writes the key [k] of the lookup. *)
Definition writesKey (k : list N) (e : DBMLTableOrder) : Prop :=
  tableName e = k \/ fullKey e = k.

(** A character that is not whitespace. *)
Definition isInk (c : char) : bool := negb (isSpace c).

(** The order of regenerated tables a and b, from an empty original. *)
Definition twoTables : str :=
  tableText "b" ++ [LF] ++ tableText "a" ++ [LF].

(** The names a block of each type carries: a table block has a table
    name that is not empty and a schema name that is missing or not
    empty, the others have neither. *)
Definition blockOK (b : DBMLBlock) : bool :=
  match btype b with
  | bTable => hasName (bTableName b) && nameOK (bSchemaName b)
  | _ =>
      match bTableName b, bSchemaName b with
      | None, None => true
      | _, _ => false
      end
  end.

(** The line opens a block of type [k]. *)
Definition startsBlock (k : BlockType) (line : str) : bool :=
  match k with
  | bTable =>
      match matchTable (trim line) with Some _ => true | None => false end
  | bEnum => matchEnum (trim line)
  | bRef => matchRef (trim line)
  | bOther => true
  end.

(** The first line of the content opens a block of the type of the
    block, and a block of type other is that line alone. *)
Definition blockHeaded (b : DBMLBlock) : bool :=
  match split (content b) with
  | line :: more =>
      startsBlock (btype b) line
      && match btype b, more with
         | bOther, _ :: _ => false
         | _, _ => true
         end
  | [] => false
  end.

(** The entry of the table order a table block stands for. *)
Definition blockEntry (b : DBMLBlock) : DBMLTableOrder :=
  mkOrder (default [] (bTableName b)) (bSchemaName b).

Definition noLF (line : str) : bool := forallb (fun c => negb (c =? LF)) line.

(** The three checks for the start of a block, one after the other. *)
Definition startsAt (t : str) (st : ParseState) : ParseState :=
  startRef t (startEnum t (startTable t st)).

(** What holds of the blocks of a text whose lines are [all]. *)
Definition blocksInv (all : list str) (bs : list DBMLBlock) : Prop :=
  forallb blockOK bs = true
  /\ forallb blockHeaded bs = true
  /\ Forall (fun b => btype b = bTable ->
                      In (blockEntry b) (flat_map orderEntry all)) bs.

(** What holds of the state of the partitioner between two lines. *)
Definition parseInv (all : list str) (st : ParseState) : Prop :=
  blocksInv all (blocks st)
  /\ forallb noLF (currentBlock st) = true
  /\ match currentType st with
     | None =>
         currentBlock st = [] /\ currentTableName st = None
         /\ currentSchemaName st = None
     | Some k =>
         (exists line more,
             currentBlock st = line :: more /\ startsBlock k line = true)
         /\ match k with
            | bTable =>
                hasName (currentTableName st) = true
                /\ nameOK (currentSchemaName st) = true
                /\ In (mkOrder (default [] (currentTableName st))
                         (currentSchemaName st))
                     (flat_map orderEntry all)
            | bOther => False
            | _ =>
                currentTableName st = None /\ currentSchemaName st = None
            end
     end.

(** A line of whitespace only. *)
Definition isBlank (line : str) : bool :=
  match trim line with
  | [] => true
  | _ :: _ => false
  end.

(** The lines after the blank lines at the start. *)
Fixpoint dropBlank (lines : list str) : list str :=
  match lines with
  | [] => []
  | line :: rest => if isBlank line then dropBlank rest else lines
  end.

(** A line as the blocks keep it: unchanged, or emptied when it is
    blank. *)
Definition keptLine (orig res : str) : Prop :=
  res = orig \/ (isBlank orig = true /\ res = []).

(** The lines of the contents of the blocks. *)
Definition blockLines (bs : list DBMLBlock) : list str :=
  flat_map (fun b => split (content b)) bs.

(** The lines the partitioner holds: those of its blocks, and those of
    the block that is open. *)
Definition outLines (st : ParseState) : list str :=
  blockLines (blocks st) ++ currentBlock st.

(** The texts of the records of type [ty] anchored to table [name], in
    the order of the list. *)
Definition commentsFor (ty : CommentType) (name : str)
  (cs : list DBMLComment) : list str :=
  List.map text
    (List.filter
       (fun c => isType ty c && bool_decide (commentTable c = Some name))
       cs).

(** The inline record is stored under [key]. *)
Definition inlineAt (key : str) (c : DBMLComment) : bool :=
  isType inline c
  && match commentTable c, commentField c with
     | Some tbl, Some fld => bool_decide (inlineKey tbl fld = key)
     | _, _ => false
     end.

(** The text of the last inline record stored under [key]. *)
Definition inlineFor (key : str) (cs : list DBMLComment) : option str :=
  List.last
    (List.map (fun c => Some (text c)) (List.filter (inlineAt key) cs))
    None.

(** The texts of the header records and of the footer records. *)
Definition headerTexts (cs : list DBMLComment) : list str :=
  List.map text (List.filter (isType header) cs).

Definition footerTexts (cs : list DBMLComment) : list str :=
  List.map text (List.filter (isType footer) cs).

(** A text between its header comments and its footer comments, each
    group set off by an empty line. *)
Definition wrapped (regeneratedDbml : str) (cs : list DBMLComment) : str :=
  join
    (match headerTexts cs with
     | [] => []
     | _ :: _ => headerTexts cs ++ [[]]
     end
       ++ split regeneratedDbml
       ++ match footerTexts cs with
          | [] => []
          | _ :: _ => [] :: footerTexts cs
          end).

(** A line as the merger emits it: as it is, or, when it holds no [//],
    followed by a space and one of the texts. *)
Definition commented (texts : list str) (line out : str) : Prop :=
  out = line
  \/ (includes [SLASH; SLASH] line = false
      /\ exists c, In c texts /\ out = line ++ 32 :: c).

(** [Injected texts lines pieces]: the pieces are the lines, in order
    and each as the merger emits it, with pieces put between them that
    are empty or one of the texts. *)
Inductive Injected (texts : list str) : list str -> list str -> Prop :=
  | inj_nil : Injected texts [] []
  | inj_add (x : str) (lines pieces : list str) :
      x = [] \/ In x texts ->
      Injected texts lines pieces ->
      Injected texts lines (x :: pieces)
  | inj_keep (line out : str) (lines pieces : list str) :
      commented texts line out ->
      Injected texts lines pieces ->
      Injected texts (line :: lines) (out :: pieces).

(** Every entry of the tables is one of the texts. *)
Definition mapsFrom (texts : list str) (m : CommentMaps) : Prop :=
  (forall name x, In x (default [] (tableComments m !! name)) -> In x texts)
  /\ (forall name x,
         In x (default [] (fieldComments m !! name)) -> In x texts)
  /\ (forall key x, inlineFieldComments m !! key = Some x -> In x texts).

Definition notFooter (c : DBMLComment) : bool := negb (isType footer c).

(** The second state has the records of the first, and then records
    that are no footers. *)
Definition pushes (st st' : ExtractState) : Prop :=
  exists new,
    comments st' = comments st ++ new /\ forallb notFooter new = true.

(** The line is a comment line: trimmed, it starts with [//]. *)
Definition isCommentLine (line : str) : bool := matchSingleLine (trim line).

Definition closesComment (line : str) : bool := includes [STAR; SLASH] line.

(** A preamble of two comment lines, and a comment that is left open
    before a table. *)
Definition preamble : str := lit "// one" ++ [LF] ++ lit "  // two".

Definition openComment : str := lit "/* open" ++ [LF] ++ tableText "a".

(** The characters of the contents of the blocks that are not
    whitespace. *)
Definition inkOf (bs : list DBMLBlock) : str :=
  flat_map (fun b => List.filter isInk (content b)) bs.

(** An identifier: a letter or an underscore, then word characters. *)
Definition isIdent (w : str) : bool :=
  match w with
  | c :: r => isIdentStart c && forallb isWord r
  | [] => false
  end.

(** [w] occurs in [s]. *)
Definition occursIn (w s : str) : Prop := exists a b, s = a ++ w ++ b.

(** The labels of the suggestions of kind [Text]. *)
Definition textLabels (items : list CompletionItem) : list str :=
  List.map label
    (List.filter
       (fun i => match kind i with Text => true | _ => false end)
       items).

(** ** Statements: the index of a block in the original order *)

(** [i] is the position of the last entry of the list that has [k] as
    its table name or as its schema-qualified key. *)
Definition lastWriter (originalOrder : list DBMLTableOrder) (k : str)
  (i : nat) : Prop :=
  (exists e, originalOrder !! i = Some e /\ writesKey k e)
  /\ Forall (fun e' => ~ writesKey k e') (drop (S i) originalOrder).

(** No entry of the list has [k] as its table name or as its
    schema-qualified key. *)
Definition unwritten (originalOrder : list DBMLTableOrder) (k : str) : Prop :=
  Forall (fun e => ~ writesKey k e) originalOrder.

(** What the index [x] of block [b] is in terms of the original list:
    the position of the last entry that has the schema-qualified key of
    the block, or, when no entry has it, of the last entry that has its
    bare name; no index when no entry has either. *)
Definition orderedAt (originalOrder : list DBMLTableOrder) (b : DBMLBlock)
  (x : option nat) : Prop :=
  let full := blockKey b in
  let bare := default [] (truthy (bTableName b)) in
  match x with
  | Some i =>
      lastWriter originalOrder full i
      \/ (unwritten originalOrder full /\ lastWriter originalOrder bare i)
  | None => unwritten originalOrder full /\ unwritten originalOrder bare
  end.

(** Table users of schema audit. *)
Definition auditUsersText : str :=
  lit "Table " ++ quote (lit "audit") ++ lit "." ++ quote (lit "users")
    ++ lit " {" ++ [LF] ++ lit "  id int" ++ [LF] ++ lit "}".

(** Tables users, orders and audit.users: two tables share the bare
    name users. *)
Definition sharedName : str :=
  tableText "users" ++ [LF; LF] ++ tableText "orders" ++ [LF; LF]
    ++ auditUsersText ++ [LF].

(** The record the table check pushes for the pending lines. *)
Definition flushedRecord (st : ExtractState) (name : str) : DBMLComment :=
  if foundFirstDefinition st
  then mkComment table (join (pendingComments st))
         (Some (mkContext (Some name) None))
  else mkComment header (join (pendingComments st)) None.

(** A comment line with a carriage return inside. *)
Definition carriageReturnLine : str := lit "// a" ++ [13] ++ lit "// b".

(** ** Proofs *)

(** ** Tokens *)

Lemma quoted_name (s name rest : str) :
  quoted s = Some (name, rest) -> name <> [].
Proof.
  unfold quoted. destruct s as [|c r]; [discriminate|].
  destruct (c =? DQUOTE); [|discriminate].
  destruct (takeWhile _ r) eqn:E; [discriminate|].
  destruct (dropWhile _ r); [discriminate|].
  intros [= <- _]. discriminate.
Qed.

Lemma wordTok_name (s name : str) : wordTok s = Some name -> name <> [].
Proof.
  unfold wordTok. destruct (takeWhile isWord s); [discriminate|].
  intros [= <-]. discriminate.
Qed.

Lemma nameTok_name (s name : str) : nameTok s = Some name -> name <> [].
Proof.
  unfold nameTok. destruct (quoted s) as [[n rest]|] eqn:E.
  - intros [= <-]. eapply quoted_name, E.
  - apply wordTok_name.
Qed.

Lemma dropWhile_head (f : char -> bool) (s : str) (c : char) (r : str) :
  dropWhile f s = c :: r -> f c = false.
Proof.
  induction s as [|x s IH]; simpl; [discriminate|].
  destruct (f x) eqn:E; [exact IH|]. now intros [= <- _].
Qed.

Lemma truthy_some (x : option str) (s : str) : truthy x = Some s -> x = Some s.
Proof. destruct x as [[|c r]|]; simpl; congruence. Qed.

Lemma commentTable_anchored (c : DBMLComment) (tbl name : str) :
  commentTable c = Some tbl -> anchoredAt name c = false -> tbl <> name.
Proof.
  unfold commentTable, anchoredAt.
  destruct (context c) as [ctx|]; [|discriminate].
  intros H. apply truthy_some in H. rewrite H.
  intros Hb ->. now rewrite bool_decide_eq_true_2 in Hb.
Qed.

(** ** Patterns *)

Lemma rx_chars {R : Type} (p s : str) (m : captures)
  (k : str -> captures -> option R) :
  rx (chars p) s m k
  = match stripPrefix p s with Some r => k r m | None => None end.
Proof.
  revert s. induction p as [|a p IH]; intros s; [reflexivity|].
  destruct s as [|c s]; [reflexivity|].
  change (chars (a :: p)) with (Seq (chr a) (chars p)).
  cbn [rx chr stripPrefix]. destruct (c =? a); [apply IH | reflexivity].
Qed.

Lemma rx_charsCI {R : Type} (p s : str) (m : captures)
  (k : str -> captures -> option R) :
  rx (charsCI p) s m k
  = match stripPrefixCI p s with Some r => k r m | None => None end.
Proof.
  revert s. induction p as [|a p IH]; intros s; [reflexivity|].
  destruct s as [|c s]; [reflexivity|].
  change (charsCI (a :: p)) with (Seq (Class (eqCI a)) (charsCI p)).
  cbn [rx stripPrefixCI]. destruct (eqCI a c); [apply IH | reflexivity].
Qed.

(** When the rest of the pattern cannot start with a character of the
    class, a greedy quantifier never gives a character back. *)
Lemma starGreedy_skip {R : Type} (p : N -> bool) (k : str -> option R)
  (s : str) :
  (forall c r, p c = true -> k (c :: r) = None) ->
  starGreedy p s k = k (dropWhile p s).
Proof.
  intros Hk. induction s as [|c s IH]; [reflexivity|].
  simpl. destruct (p c) eqn:E; [|reflexivity].
  rewrite IH. destruct (k (dropWhile p s)); [reflexivity|].
  now apply Hk.
Qed.

(** Nor when the rest of the pattern accepts whatever is left. *)
Lemma starGreedy_total {R : Type} (p : N -> bool) (k : str -> option R)
  (s : str) :
  (forall r, k r <> None) ->
  starGreedy p s k = k (dropWhile p s).
Proof.
  intros Hk. induction s as [|c s IH]; [reflexivity|].
  simpl. destruct (p c) eqn:E; [|reflexivity].
  rewrite IH. destruct (k (dropWhile p s)) eqn:Ek; [reflexivity|].
  now apply Hk in Ek.
Qed.

Lemma dropWhile_length (p : N -> bool) (s : str) :
  (List.length (dropWhile p s) <= List.length s)%nat.
Proof.
  induction s as [|c s IH]; [reflexivity|].
  simpl. destruct (p c); simpl; lia.
Qed.

(** What a quantified class captures. *)
Lemma firstn_takeWhile (p : N -> bool) (s : str) :
  firstn (List.length s - List.length (dropWhile p s)) s = takeWhile p s.
Proof.
  induction s as [|c s IH]; [reflexivity|].
  simpl. destruct (p c) eqn:E.
  - pose proof (dropWhile_length p s).
    replace (S (List.length s) - List.length (dropWhile p s))%nat
      with (S (List.length s - List.length (dropWhile p s))) by lia.
    simpl. now rewrite IH.
  - simpl. now rewrite Nat.sub_diag.
Qed.

(** A quoted name followed by the rest of a pattern. *)
Lemma rx_quoted {R : Type} (n : nat) (rest : regex) (s : str)
  (m : captures) (k : str -> captures -> option R) :
  rx (Seq (chr DQUOTE) (Seq (Cap n (Plus notQuote)) (Seq (chr DQUOTE) rest)))
    s m k
  = match quoted s with
    | Some (name, r) => rx rest r (setCapture n name m) k
    | None => None
    end.
Proof.
  unfold quoted. destruct s as [|c s]; [reflexivity|].
  cbn [rx chr]. destruct (c =? DQUOTE); [|reflexivity].
  fold notQuote. destruct s as [|c2 s]; [reflexivity|].
  cbn [takeWhile dropWhile]. destruct (notQuote c2) eqn:E2; [|reflexivity].
  rewrite starGreedy_skip.
  - pose proof (firstn_takeWhile notQuote (c2 :: s)) as Hf.
    cbn [takeWhile dropWhile] in Hf. rewrite E2 in Hf. rewrite Hf.
    destruct (dropWhile notQuote s) as [|d r] eqn:Ed; [reflexivity|].
    pose proof (dropWhile_head _ _ _ _ Ed) as Hd.
    unfold notQuote in Hd. apply negb_false_iff in Hd. now rewrite Hd.
  - intros c3 r Hc. unfold notQuote in Hc. apply negb_true_iff in Hc.
    now rewrite Hc.
Qed.

(** A word at the end of a pattern. *)
Lemma rx_word (n : nat) (s : str) (m : captures) :
  rx (Cap n (Plus isWord)) s m (fun s' m' => Some (m', s'))
  = match wordTok s with
    | Some w => Some (setCapture n w m, dropWhile isWord s)
    | None => None
    end.
Proof.
  unfold wordTok. destruct s as [|c s]; [reflexivity|].
  cbn [rx takeWhile dropWhile]. destruct (isWord c) eqn:E; [|reflexivity].
  rewrite starGreedy_total by discriminate.
  pose proof (firstn_takeWhile isWord (c :: s)) as Hf.
  cbn [takeWhile dropWhile] in Hf. rewrite E in Hf. now rewrite Hf.
Qed.

Lemma isSpace_not_quote (c : char) : isSpace c = true -> (c =? DQUOTE) = false.
Proof.
  intros H. destruct (N.eqb_spec c DQUOTE) as [->|]; [discriminate|reflexivity].
Qed.

Lemma isSpace_not_word (c : char) : isSpace c = true -> isWord c = false.
Proof.
  unfold isSpace, isWord.
  rewrite !orb_true_iff, !andb_true_iff, !N.eqb_eq, !N.leb_le.
  intros H.
  destruct (((65 <=? c) && (c <=? 90)) || ((97 <=? c) && (c <=? 122))
            || ((48 <=? c) && (c <=? 57)) || (c =? 95)) eqn:E;
    [|reflexivity].
  rewrite !orb_true_iff, !andb_true_iff, !N.eqb_eq, !N.leb_le in E. lia.
Qed.

Lemma truthy_name (name : str) : name <> [] -> truthy (Some name) = Some name.
Proof. now destruct name. Qed.

(** The equations of the matcher, for rewriting one step at a time. *)
Lemma rx_seq {R : Type} (a b : regex) (s : str) (m : captures)
  (k : str -> captures -> option R) :
  rx (Seq a b) s m k = rx a s m (fun s' m' => rx b s' m' k).
Proof. reflexivity. Qed.

Lemma rx_opt {R : Type} (a : regex) (s : str) (m : captures)
  (k : str -> captures -> option R) :
  rx (Opt a) s m k
  = match rx a s m k with Some x => Some x | None => k s m end.
Proof. reflexivity. Qed.

Lemma rx_alt {R : Type} (a b : regex) (s : str) (m : captures)
  (k : str -> captures -> option R) :
  rx (Alt a b) s m k
  = match rx a s m k with Some x => Some x | None => rx b s m k end.
Proof. reflexivity. Qed.

Lemma rx_plus {R : Type} (p : N -> bool) (s : str) (m : captures)
  (k : str -> captures -> option R) :
  rx (Plus p) s m k
  = match s with
    | c :: s' => if p c then starGreedy p s' (fun s'' => k s'' m) else None
    | [] => None
    end.
Proof. reflexivity. Qed.

Lemma rx_star {R : Type} (p : N -> bool) (s : str) (m : captures)
  (k : str -> captures -> option R) :
  rx (Star p) s m k = starGreedy p s (fun s' => k s' m).
Proof. reflexivity. Qed.

Lemma rx_chr {R : Type} (c : char) (s : str) (m : captures)
  (k : str -> captures -> option R) :
  rx (chr c) s m k
  = match s with
    | x :: s' => if x =? c then k s' m else None
    | [] => None
    end.
Proof. reflexivity. Qed.

Lemma rx_cap {R : Type} (n : nat) (a : regex) (s : str) (m : captures)
  (k : str -> captures -> option R) :
  rx (Cap n a) s m k
  = rx a s m
      (fun s' m' =>
         k s' (setCapture n (firstn (List.length s - List.length s') s) m')).
Proof. reflexivity. Qed.

Lemma rx_plusLazy {R : Type} (p : N -> bool) (s : str) (m : captures)
  (k : str -> captures -> option R) :
  rx (PlusLazy p) s m k
  = match s with
    | c :: s' => if p c then starLazy p s' (fun s'' => k s'' m) else None
    | [] => None
    end.
Proof. reflexivity. Qed.

(** The name of the table pattern: a quoted name or a word. *)
Lemma rx_name (s : str) (m : captures) :
  m 2%nat = None ->
  tableOfMatch
    (rx (Seq reTableName Eps) s m (fun s' m' => Some (m', s')))
  = match nameTok s with
    | Some n => Some (m 1%nat, n)
    | None => None
    end.
Proof.
  intros Hm. unfold reTableName. rewrite rx_seq, rx_alt.
  cbn [seqs List.fold_right]. rewrite rx_quoted. unfold nameTok.
  destruct (quoted s) as [[name r0]|] eqn:Eq.
  - cbn [rx tableOfMatch]. unfold orElse, setCapture. cbn [Nat.eqb].
    now rewrite (truthy_name _ (quoted_name _ _ _ Eq)).
  - change (fun s' m' => rx Eps s' m' (fun s'' m'' => Some (m'', s'')))
      with (fun (s' : str) (m' : captures) => Some (m', s')).
    rewrite rx_word. destruct (wordTok s) as [w|] eqn:Ew; [|reflexivity].
    cbn [tableOfMatch]. unfold orElse, setCapture. cbn [Nat.eqb].
    rewrite Hm. pose proof (wordTok_name _ _ Ew).
    destruct w; [congruence | reflexivity].
Qed.

(** The schema of the table pattern: a quoted name and a dot. *)
Lemma rx_schema {R : Type} (s : str) (m : captures)
  (k : str -> captures -> option R) :
  rx reTableSchema s m k
  = match quoted s with
    | Some (x, d :: r) => if d =? DOT then k r (setCapture 1 x m) else None
    | _ => None
    end.
Proof.
  unfold reTableSchema. cbn [seqs List.fold_right]. rewrite rx_quoted.
  destruct (quoted s) as [[x [|d r]]|]; reflexivity.
Qed.

Lemma tableOfMatch_none (x : option (captures * list N)) :
  tableOfMatch x = None -> x = None.
Proof. destruct x as [[m r]|]; [discriminate | reflexivity]. Qed.

(** The table pattern. *)
Lemma scanTable_regex (t : str) :
  scanTable t = tableOfMatch (matchAt reTable t).
Proof.
  unfold scanTable, matchAt, reTable.
  cbn [seqs List.fold_right]. rewrite rx_seq, rx_charsCI.
  destruct (stripPrefixCI (lit "Table") t) as [[|c r]|]; try reflexivity.
  rewrite rx_seq, rx_plus.
  destruct (isSpace c); [|reflexivity].
  rewrite starGreedy_skip.
  2:{ intros c' r' Hc. unfold reTableSchema, reTableName.
      cbn [seqs List.fold_right rx chr].
      now rewrite (isSpace_not_quote _ Hc), (isSpace_not_word _ Hc). }
  set (r1 := dropWhile isSpace r).
  rewrite rx_seq, rx_opt, rx_schema.
  pose proof (rx_name r1 noCaptures eq_refl) as Hplain.
  unfold nameTok in Hplain.
  assert (Hskip : tableOfMatch
                    (rx (Seq reTableName Eps) r1 noCaptures
                       (fun s' m' => Some (m', s')))
                  = match quoted r1 with
                    | Some (x, _) => Some (None, x)
                    | None =>
                        match wordTok r1 with
                        | Some n => Some (None, n)
                        | None => None
                        end
                    end).
  { rewrite Hplain. now destruct (quoted r1) as [[x rest]|]. }
  clear Hplain.
  destruct (quoted r1) as [[x [|d r2]]|]; try (now rewrite Hskip).
  destruct (d =? DOT); [|now rewrite Hskip].
  pose proof (rx_name r2 (setCapture 1 x noCaptures) eq_refl) as Hs.
  destruct (rx (Seq reTableName Eps) r2 (setCapture 1 x noCaptures)
              (fun s' m' => Some (m', s'))) as [[m' s']|].
  - rewrite Hs. unfold setCapture. cbn [Nat.eqb].
    destruct (nameTok r2); [reflexivity | discriminate].
  - rewrite Hskip. destruct (nameTok r2); [discriminate | reflexivity].
Qed.

(** [/^Enum\s+/i] *)
Lemma scanEnum_regex (t : str) : scanEnum t = matches reEnum t.
Proof.
  unfold scanEnum, matches, matchAt, reEnum.
  cbn [seqs List.fold_right]. rewrite rx_seq, rx_charsCI.
  destruct (stripPrefixCI (lit "Enum") t) as [[|c r]|]; try reflexivity.
  rewrite rx_seq, rx_plus. destruct (isSpace c); [|reflexivity].
  now rewrite starGreedy_total by discriminate.
Qed.

(** [/^Ref\s*[:{]/i] *)
Lemma scanRef_regex (t : str) : scanRef t = matches reRef t.
Proof.
  unfold scanRef, matches, matchAt, reRef.
  cbn [seqs List.fold_right]. rewrite rx_seq, rx_charsCI.
  destruct (stripPrefixCI (lit "Ref") t) as [r|]; [|reflexivity].
  cbn [rx]. rewrite starGreedy_skip.
  - destruct (dropWhile isSpace r) as [|c r']; [reflexivity|].
    now destruct ((c =? 58) || (c =? LBRACE)).
  - intros c r' Hc.
    destruct (N.eqb_spec c 58) as [->|]; [discriminate|].
    destruct (N.eqb_spec c LBRACE) as [->|]; [discriminate|reflexivity].
Qed.

(** A greedy quantifier before the end anchor: every character left
    must be in the class. *)
Lemma starGreedy_eol {R : Type} (p : N -> bool) (k : str -> option R)
  (s : str) :
  (forall c r, k (c :: r) = None) ->
  starGreedy p s k = if forallb p s then k [] else None.
Proof.
  intros Hk. induction s as [|c s IH]; [reflexivity|].
  simpl. destruct (p c); [|apply Hk]. rewrite IH.
  destruct (forallb p s); [|apply Hk].
  destruct (k []); [reflexivity | apply Hk].
Qed.

(** [/^\/\/( .* )$/] *)
Lemma scanSingleLine_regex (t : str) :
  scanSingleLine t = matches reSingleLine t.
Proof.
  unfold scanSingleLine, matches, matchAt, reSingleLine.
  cbn [seqs List.fold_right]. rewrite rx_seq, rx_chars.
  destruct (stripPrefix [SLASH; SLASH] t) as [r|]; [|reflexivity].
  cbn [rx]. rewrite starGreedy_eol by reflexivity.
  change (forallb (fun x : N => negb (isLineTerminator x)) r)
    with (forallb dot r).
  now destruct (forallb dot r).
Qed.

(** [/^Q([^Q]+)Q/] *)
Lemma scanField_regex (t : str) :
  scanField t
  = match matchAt reField t with
    | Some (m, _) => m 1%nat
    | None => None
    end.
Proof.
  unfold scanField, matchAt, reField. cbn [seqs List.fold_right].
  rewrite rx_quoted. now destruct (quoted t) as [[name r]|].
Qed.

(** [/^\/\*/] *)
Lemma scanMultiLineStart_regex (t : str) :
  scanMultiLineStart t = matches reMultiLineStart t.
Proof.
  unfold scanMultiLineStart, matches, matchAt, reMultiLineStart.
  rewrite rx_chars. now destruct (stripPrefix [SLASH; STAR] t).
Qed.

Lemma firstn_app_exact (a s : str) :
  firstn (List.length (a ++ s) - List.length s) (a ++ s) = a.
Proof.
  rewrite length_app, Nat.add_sub.
  rewrite firstn_app, Nat.sub_diag, firstn_all. simpl. apply app_nil_r.
Qed.

(** The lazy quantifier of the inline pattern, once it has taken the
    characters of [acc]. *)
Lemma starLazy_inline (line : str) (s : str) :
  forall acc : str,
    line = rev acc ++ s ->
    inlineOfMatch
      (starLazy dot s
         (fun s'' =>
            rx (Seq (Cap 2 (seqs [chars [SLASH; SLASH]; Star dot]))
                  (Seq Eol Eps))
              s''
              (setCapture 1
                 (firstn (List.length line - List.length s'') line)
                 noCaptures)
              (fun s' m => Some (m, s'))))
    = inlineLazy acc s.
Proof.
  induction s as [|c s IH]; intros acc Hline.
  - reflexivity.
  - cbn [starLazy inlineLazy].
    rewrite rx_seq, rx_cap. cbn [seqs List.fold_right].
    rewrite rx_seq, rx_chars.
    assert (Hnext : inlineOfMatch
                      (if dot c
                       then starLazy dot s
                              (fun s'' =>
                                 rx (Seq (Cap 2 (seqs [chars [SLASH; SLASH];
                                                       Star dot]))
                                       (Seq Eol Eps))
                                   s''
                                   (setCapture 1
                                      (firstn (List.length line
                                               - List.length s'') line)
                                      noCaptures)
                                   (fun s' m => Some (m, s')))
                       else None)
                    = (if isLineTerminator c then None
                       else inlineLazy (c :: acc) s)).
    { unfold dot at 1. destruct (isLineTerminator c); [reflexivity|].
      apply IH. rewrite Hline. simpl. now rewrite <- app_assoc. }
    destruct (stripPrefix [SLASH; SLASH] (c :: s)) as [r|] eqn:Ep;
      [|exact Hnext].
    rewrite rx_seq, rx_star, starGreedy_eol by reflexivity.
    change (forallb (fun x : N => negb (isLineTerminator x)) r)
      with (forallb dot r).
    destruct (forallb dot r); [|exact Hnext].
    cbn [rx inlineOfMatch]. unfold setCapture. cbn [Nat.eqb].
    rewrite Hline, firstn_app_exact.
    now rewrite Nat.sub_0_r, firstn_all.
Qed.

(** [/^(.+?)(\/\/.* )$/] *)
Lemma scanInline_regex (line : str) :
  scanInline line = inlineOfMatch (matchAt reInline line).
Proof.
  unfold scanInline, matchAt, reInline. cbn [seqs List.fold_right].
  rewrite rx_seq, rx_cap, rx_plusLazy.
  destruct line as [|c r]; [reflexivity|].
  unfold dot at 1. destruct (isLineTerminator c); [reflexivity|].
  cbn [negb]. now rewrite <- (starLazy_inline (c :: r) r [c]).
Qed.

(** [/\n\s*\n\s*\n/]: what follows the match. *)
Lemma blankStar2_regex (m : captures) (s : str) :
  blankStar2 s
  = option_map snd
      (starGreedy isSpace s
         (fun s' => rx (Seq (chr LF) Eps) s' m (fun s'' m' => Some (m', s'')))).
Proof.
  induction s as [|c s IH]; [reflexivity|].
  cbn [blankStar2 starGreedy]. rewrite IH.
  destruct (isSpace c); [|cbn [rx chr blankEnd]; now destruct (c =? LF)].
  destruct (starGreedy isSpace s _); [reflexivity|].
  cbn [rx chr blankEnd]. now destruct (c =? LF).
Qed.

Lemma blankStar1_regex (m : captures) (s : str) :
  blankStar1 s
  = option_map snd
      (starGreedy isSpace s
         (fun s' =>
            rx (Seq (chr LF) (Seq (Star isSpace) (Seq (chr LF) Eps))) s' m
              (fun s'' m' => Some (m', s'')))).
Proof.
  assert (Hmid : forall s',
             blankMid s'
             = option_map snd
                 (rx (Seq (chr LF) (Seq (Star isSpace) (Seq (chr LF) Eps)))
                    s' m (fun s'' m' => Some (m', s'')))).
  { intros [|c r]; [reflexivity|].
    rewrite rx_seq, rx_chr. cbn [blankMid].
    destruct (c =? LF); [|reflexivity].
    rewrite rx_seq, rx_star. apply blankStar2_regex. }
  induction s as [|c s IH]; [apply Hmid|].
  cbn [blankStar1 starGreedy]. rewrite IH.
  destruct (isSpace c); [|apply Hmid].
  destruct (starGreedy isSpace s _); [reflexivity | apply Hmid].
Qed.

Lemma scanBlank_regex (s : str) :
  scanBlank s = option_map snd (matchAt reBlank s).
Proof.
  unfold scanBlank, matchAt, reBlank. cbn [seqs List.fold_right].
  destruct s as [|c r]; [reflexivity|].
  rewrite rx_seq, rx_chr.
  destruct (c =? LF); [|reflexivity].
  rewrite rx_seq, rx_star. apply blankStar1_regex.
Qed.

(** The matches of the source, as functions of the input. *)
Lemma matchTable_scan (t : str) : matchTable t = scanTable t.
Proof. symmetry. apply scanTable_regex. Qed.

Lemma matchEnum_scan (t : str) : matchEnum t = scanEnum t.
Proof. symmetry. apply scanEnum_regex. Qed.

Lemma matchRef_scan (t : str) : matchRef t = scanRef t.
Proof. symmetry. apply scanRef_regex. Qed.

Lemma matchSingleLine_scan (t : str) : matchSingleLine t = scanSingleLine t.
Proof. symmetry. apply scanSingleLine_regex. Qed.

Lemma matchInline_scan (line : str) : matchInline line = scanInline line.
Proof. symmetry. apply scanInline_regex. Qed.

Lemma matchField_scan (t : str) : matchField t = scanField t.
Proof. symmetry. apply scanField_regex. Qed.

Lemma matchMultiLineStart_scan (t : str) :
  matchMultiLineStart t = scanMultiLineStart t.
Proof. symmetry. apply scanMultiLineStart_regex. Qed.

Lemma matchBlank_scan (s : str) : matchBlank s = scanBlank s.
Proof. symmetry. apply scanBlank_regex. Qed.

(** The table pattern never captures an empty name. *)
Lemma matchTable_name (t : str) (schema : option str) (name : str) :
  matchTable t = Some (schema, name) -> name <> [].
Proof.
  rewrite matchTable_scan. unfold scanTable.
  destruct (stripPrefixCI _ t) as [[|c r]|]; try discriminate.
  destruct (isSpace c); [|discriminate].
  destruct (quoted (dropWhile isSpace r)) as [[x rest]|] eqn:Eq.
  - apply quoted_name in Eq.
    destruct rest as [|d r2]; [now intros [= _ <-]|].
    destruct (d =? DOT); [|now intros [= _ <-]].
    destruct (nameTok r2) as [n|] eqn:En; intros [= _ <-];
      [eapply nameTok_name, En | exact Eq].
  - destruct (wordTok _) as [n|] eqn:Ew; [|discriminate].
    intros [= _ <-]. eapply wordTok_name, Ew.
Qed.

Lemma matchField_name (t name : str) : matchField t = Some name -> name <> [].
Proof.
  rewrite matchField_scan. unfold scanField. destruct (quoted t) as [[n rest]|] eqn:E;
    [|discriminate].
  intros [= <-]. eapply quoted_name, E.
Qed.

(** [m[2] || m[3] || m[1] || ''], the name the comment functions take
    from a match, is [m[2] || m[3] || ''], the name the others take. *)
Lemma matchTable_name_first (t : str) (m : captures) (r : str) :
  matchAt reTable t = Some (m, r) ->
  default [] (orElse (m 2%nat) (orElse (m 3%nat) (truthy (m 1%nat))))
  = default [] (orElse (m 2%nat) (truthy (m 3%nat))).
Proof.
  intros H. assert (Ht : matchTable t = tableOfMatch (Some (m, r)))
    by (unfold matchTable; now rewrite H).
  apply matchTable_name in Ht. unfold orElse in *.
  destruct (truthy (m 2%nat)); [reflexivity|].
  destruct (truthy (m 3%nat)); [reflexivity|].
  now exfalso; apply Ht.
Qed.

(** ** Lines *)

Lemma split_nonempty (s : str) : split s <> [].
Proof.
  destruct s as [|c r]; simpl; [discriminate|].
  destruct (c =? LF); [discriminate|].
  destruct (split r); discriminate.
Qed.

Lemma join_cons (p : str) (ps : list str) :
  ps <> [] -> join (p :: ps) = p ++ LF :: join ps.
Proof. destruct ps; [congruence | reflexivity]. Qed.

(** Joining the lines of a text gives the text back. *)
Lemma join_split (s : str) : join (split s) = s.
Proof.
  induction s as [|c r IH]; [reflexivity|].
  simpl. destruct (N.eqb_spec c LF) as [->|Hc].
  - rewrite join_cons by apply split_nonempty. simpl. now rewrite IH.
  - pose proof (split_nonempty r) as Hne.
    destruct (split r) as [|l ls]; [congruence|].
    destruct ls as [|l' ls'].
    + simpl in *. now rewrite IH.
    + change (join ((c :: l) :: l' :: ls'))
        with (c :: (l ++ LF :: join (l' :: ls'))).
      change (join (l :: l' :: ls'))
        with (l ++ LF :: join (l' :: ls')) in IH.
      now rewrite IH.
Qed.

(** ** The no-op merge *)

(** C1: for every text, [mergeComments text []] is [text] itself, with
    no character changed and no line ending normalised. *)
Theorem mergeComments_nil (regeneratedDbml : str) :
  mergeComments regeneratedDbml [] = regeneratedDbml.
Proof. reflexivity. Qed.

(** ** The scenario of the specification *)

(** C5: on the scenario text, [extractComments] returns the header
    record and then the inline record of field id of table users, and
    [extractTableOrder] returns the single entry users without schema. *)
Theorem scenario_extraction :
  extractComments scenario
  = [ mkComment header (lit "// header") None;
      mkComment inline (lit "// pk comment")
        (Some (mkContext (Some (lit "users")) (Some (lit "id")))) ]
  /\ extractTableOrder scenario = [ mkOrder (lit "users") None ].
Proof. split; vm_compute; reflexivity. Qed.

(** ** Empty input *)

(** C6: on the empty text the extractors return the empty list and the
    reorderer returns a single newline; the three functions are total, so
    no input makes them fail. *)
Theorem empty_input :
  extractTableOrder [] = []
  /\ extractComments [] = []
  /\ reorderDBML [] [] = [LF].
Proof. repeat split; vm_compute; reflexivity. Qed.

(** ** The trailing newline *)

Lemma endsWithLF_app (s : str) : endsWithLF (s ++ [LF]) = true.
Proof. unfold endsWithLF. rewrite rev_app_distr. reflexivity. Qed.

(** The text returned by [reorderDBML] ends with a newline. *)
Lemma reorderDBML_ends_with_newline (regeneratedDbml : str)
  (originalOrder : list DBMLTableOrder) :
  endsWithLF (reorderDBML regeneratedDbml originalOrder) = true.
Proof.
  unfold reorderDBML, ensureNewline.
  destruct (endsWithLF (collapseBlankLines _)) eqn:E;
    [exact E | apply endsWithLF_app].
Qed.

(** C2: a newline is added when the text has none at its end, but the
    newlines that are there are not reduced to one: a one-line Ref with a
    blank line after it keeps both, and the result ends with two
    newlines. *)
Theorem reorderDBML_keeps_two_newlines :
  reorderDBML refThenBlank []
  = LF :: lit "Ref: a.id > b.id" ++ [LF; LF].
Proof. vm_compute. reflexivity. Qed.

(** ** The order lookup *)

Lemma setOrder_lookup_name (m : gmap (list N) nat) (item : DBMLTableOrder)
  (index : nat) :
  setOrder m item index !! tableName item = Some index.
Proof. unfold setOrder. apply lookup_insert_eq. Qed.

Lemma setOrder_lookup_other (m : gmap (list N) nat) (item : DBMLTableOrder)
  (index : nat) (key : list N) :
  tableName item <> key -> fullKey item <> key ->
  setOrder m item index !! key = m !! key.
Proof.
  intros H1 H2. unfold setOrder.
  rewrite lookup_insert_ne by exact H1.
  now rewrite lookup_insert_ne by exact H2.
Qed.

(** Entries that write neither of their keys at [key] leave it alone. *)
Lemma buildOrderFrom_untouched (items : list DBMLTableOrder) (key : list N) :
  Forall (fun e => tableName e <> key /\ fullKey e <> key) items ->
  forall (index : nat) (m : gmap (list N) nat),
    buildOrderFrom index items m !! key = m !! key.
Proof.
  induction 1 as [|e items [H1 H2] _ IH]; intros index m; simpl.
  - reflexivity.
  - rewrite IH. now apply setOrder_lookup_other.
Qed.

Lemma buildOrderFrom_last (items : list DBMLTableOrder) (key : list N) :
  forall (i : nat) (e : DBMLTableOrder) (index : nat)
         (m : gmap (list N) nat),
    items !! i = Some e ->
    tableName e = key ->
    Forall (fun e' => tableName e' <> key /\ fullKey e' <> key)
      (drop (S i) items) ->
    buildOrderFrom index items m !! key = Some (index + i)%nat.
Proof.
  induction items as [|item items IH]; intros i e index m Hi Hname Hlater.
  - discriminate.
  - destruct i as [|i]; simpl in *.
    + injection Hi as ->. rewrite drop_0 in Hlater.
      rewrite buildOrderFrom_untouched by exact Hlater.
      rewrite <- Hname, Nat.add_0_r. apply setOrder_lookup_name.
    + rewrite (IH i e) by assumption. f_equal. lia.
Qed.

(** A block that reaches the lookup through its bare name gets the
    index stored under that name. *)
Lemma blockOrder_bare (m : gmap (list N) nat) (b : DBMLBlock) (name : list N) :
  bTableName b = Some name ->
  truthy (bSchemaName b) = None \/ m !! blockKey b = None ->
  blockOrder m b = m !! name.
Proof.
  intros Hn Hs. unfold blockOrder, blockKey in *. rewrite Hn in *.
  assert (Hd : default [] (truthy (Some name)) = name)
    by (destruct name; reflexivity).
  rewrite Hd in *.
  destruct Hs as [Hs|Hs].
  - rewrite Hs. now destruct (m !! name).
  - now rewrite Hs.
Qed.

(** ** The stable sort *)

Section SortFacts.
Context {A : Type} (key : A -> option nat).

Lemma orderLe_refl (a : option nat) : orderLe a a = true.
Proof. destruct a; simpl; [apply Nat.leb_refl | reflexivity]. Qed.

Lemma orderLe_total (a b : option nat) :
  orderLe a b = false -> orderLe b a = true.
Proof.
  destruct a, b; simpl; try congruence.
  intros H. apply Nat.leb_gt in H. apply Nat.leb_le. lia.
Qed.

Lemma orderLe_trans (a b c : option nat) :
  orderLe a b = true -> orderLe b c = true -> orderLe a c = true.
Proof.
  destruct a, b, c; simpl; try congruence.
  rewrite !Nat.leb_le. lia.
Qed.

Lemma insertBy_perm (x : A) (l : list A) :
  Permutation (insertBy key x l) (x :: l).
Proof.
  induction l as [|y l IH]; simpl; [reflexivity|].
  destruct (orderLe (key x) (key y)); [reflexivity|].
  rewrite IH. apply perm_swap.
Qed.

Lemma sortBy_perm (l : list A) : Permutation (sortBy key l) l.
Proof.
  induction l as [|x l IH]; simpl; [reflexivity|].
  rewrite insertBy_perm. now rewrite IH.
Qed.

Lemma insertBy_sorted (x : A) (l : list A) :
  StronglySorted (fun a b => orderLe (key a) (key b) = true) l ->
  StronglySorted (fun a b => orderLe (key a) (key b) = true)
    (insertBy key x l).
Proof.
  induction 1 as [|y l Hs IH Hy]; simpl.
  - repeat constructor.
  - destruct (orderLe (key x) (key y)) eqn:E.
    + constructor; [now constructor|].
      constructor; [exact E|].
      eapply Forall_impl; [exact Hy|].
      intros z Hz. simpl in Hz. eapply orderLe_trans; eassumption.
    + constructor; [exact IH|].
      rewrite (insertBy_perm x l).
      constructor; [now apply orderLe_total | exact Hy].
Qed.

Lemma sortBy_sorted (l : list A) :
  StronglySorted (fun a b => orderLe (key a) (key b) = true)
    (sortBy key l).
Proof.
  induction l as [|x l IH]; simpl;
    [constructor | now apply insertBy_sorted].
Qed.

(** The sort is stable: the elements of one key keep their order. *)
Lemma insertBy_stable (p : option nat -> bool) (x : A) (l : list A) :
  (forall a b, orderLe a b = false -> p a = true -> p b = false) ->
  List.filter (fun y => p (key y)) (insertBy key x l)
  = List.filter (fun y => p (key y)) (x :: l).
Proof.
  intros Hp. induction l as [|y l IH]; [reflexivity|].
  cbn [insertBy]. destruct (orderLe (key x) (key y)) eqn:E;
    [reflexivity|].
  cbn [List.filter] in *. rewrite IH.
  destruct (p (key x)) eqn:Ex; [|reflexivity].
  now rewrite (Hp _ _ E Ex).
Qed.

Lemma isKey_orderLe (k a b : option nat) :
  orderLe a b = false -> isKey k a = true -> isKey k b = false.
Proof.
  destruct k as [i|], a as [x|], b as [y|]; simpl; try congruence.
  rewrite Nat.leb_gt, !Nat.eqb_eq, Nat.eqb_neq. lia.
Qed.

(** The elements of one key keep the order they had. *)
Lemma sortBy_stable (k : option nat) (l : list A) :
  List.filter (fun y => isKey k (key y)) (sortBy key l)
  = List.filter (fun y => isKey k (key y)) l.
Proof.
  induction l as [|x l IH]; [reflexivity|].
  cbn [sortBy]. rewrite (insertBy_stable (isKey k)).
  - cbn [List.filter]. now rewrite IH.
  - apply isKey_orderLe.
Qed.

Lemma sortBy_unmatched (l : list A) :
  List.filter (fun y => negb (isMatched key y)) (sortBy key l)
  = List.filter (fun y => negb (isMatched key y)) l.
Proof.
  induction l as [|x l IH]; [reflexivity|].
  cbn [sortBy].
  pose proof (insertBy_stable
                (fun k => match k with Some _ => false | None => true end)
                x (sortBy key l)) as H.
  unfold isMatched in *.
  assert (Heq : forall l',
             List.filter
               (fun y => negb match key y with
                              | Some _ => true | None => false end) l'
             = List.filter
                 (fun y => match key y with
                           | Some _ => false | None => true end) l').
  { intros l'. apply filter_ext. intros a. now destruct (key a). }
  rewrite !Heq in *. rewrite H.
  - cbn [List.filter]. now rewrite IH.
  - intros [a|] [b|]; simpl; congruence.
Qed.

(** In a sorted list the matched elements come first. *)
Lemma sorted_matched_first (l : list A) :
  StronglySorted (fun a b => orderLe (key a) (key b) = true) l ->
  l = List.filter (isMatched key) l
        ++ List.filter (fun y => negb (isMatched key y)) l.
Proof.
  induction 1 as [|x l Hs IH Hx]; [reflexivity|].
  cbn [List.filter].
  destruct (isMatched key x) eqn:Ex; cbn [negb].
  - simpl. f_equal. exact IH.
  - assert (Hnone : List.filter (isMatched key) l = []).
    { clear IH Hs. induction l as [|y l IHl]; [reflexivity|].
      inversion Hx as [|? ? Hy Hl]; subst.
      cbn [List.filter]. unfold isMatched in Ex |- * at 1.
      destruct (key x); [discriminate|].
      destruct (key y); [discriminate|]. now apply IHl. }
    rewrite Hnone in *. simpl in *. f_equal. exact IH.
Qed.

Lemma sorted_filter (f : A -> bool) (l : list A) :
  StronglySorted (fun a b => orderLe (key a) (key b) = true) l ->
  StronglySorted (fun a b => orderLe (key a) (key b) = true)
    (List.filter f l).
Proof.
  induction 1 as [|x l Hs IH Hx]; [constructor|].
  cbn [List.filter]. destruct (f x); [|exact IH].
  constructor; [exact IH|].
  rewrite Forall_forall in *. intros y Hy.
  apply Hx. apply list_elem_of_In. apply list_elem_of_In in Hy.
  apply filter_In in Hy. tauto.
Qed.

Lemma sorted_matched_indexLe (l : list A) :
  StronglySorted (fun a b => orderLe (key a) (key b) = true) l ->
  StronglySorted (indexLe key) (List.filter (isMatched key) l).
Proof.
  induction 1 as [|x l Hs IH Hx]; [constructor|].
  cbn [List.filter]. unfold isMatched at 1.
  destruct (key x) as [i|] eqn:Ex; [|exact IH].
  constructor; [exact IH|].
  rewrite Forall_forall in *. intros y Hy.
  apply list_elem_of_In in Hy. apply filter_In in Hy.
  destruct Hy as [Hy Hm]. apply list_elem_of_In in Hy.
  specialize (Hx y Hy). unfold indexLe, isMatched in *.
  rewrite Ex in *. destruct (key y); [|discriminate].
  simpl in Hx. now apply Nat.leb_le.
Qed.
End SortFacts.

Lemma filter_perm {A : Type} (f : A -> bool) (l l' : list A) :
  Permutation l l' -> Permutation (List.filter f l) (List.filter f l').
Proof.
  induction 1 as [|x l l' _ IH|x y l|l l' l'' _ IH1 _ IH2]; simpl.
  - constructor.
  - destruct (f x); [now constructor | exact IH].
  - destruct (f x), (f y); try reflexivity. apply perm_swap.
  - now rewrite IH1.
Qed.

(** ** The index of a block in the original order *)

Lemma setOrder_lookup (m : gmap (list N) nat) (item : DBMLTableOrder)
  (index : nat) (k : list N) :
  setOrder m item index !! k
  = if decide (tableName item = k) then Some index
    else if decide (fullKey item = k) then Some index
    else m !! k.
Proof.
  unfold setOrder. rewrite lookup_insert.
  destruct (decide (tableName item = k)); [reflexivity|].
  rewrite lookup_insert. now destruct (decide (fullKey item = k)).
Qed.

Lemma buildOrderFrom_none (items : list DBMLTableOrder) (k : list N) :
  forall (index : nat) (m : gmap (list N) nat),
    buildOrderFrom index items m !! k = None ->
    m !! k = None /\ Forall (fun e => ~ writesKey k e) items.
Proof.
  induction items as [|item items IH]; intros index m H; simpl in H.
  - now split.
  - apply IH in H as [H Hall]. rewrite setOrder_lookup in H.
    destruct (decide (tableName item = k)); [discriminate|].
    destruct (decide (fullKey item = k)); [discriminate|].
    split; [exact H|]. constructor; [|exact Hall].
    unfold writesKey. tauto.
Qed.

Lemma buildOrderFrom_some (items : list DBMLTableOrder) (k : list N) :
  forall (index : nat) (m : gmap (list N) nat) (i : nat),
    buildOrderFrom index items m !! k = Some i ->
    (m !! k = Some i /\ Forall (fun e => ~ writesKey k e) items)
    \/ exists j e,
         i = (index + j)%nat /\ items !! j = Some e /\ writesKey k e
         /\ Forall (fun e' => ~ writesKey k e') (drop (S j) items).
Proof.
  induction items as [|item items IH]; intros index m i H; simpl in H.
  - left. now split.
  - apply IH in H as [[H Hall]|(j & e & -> & Hj & He & Hlater)].
    + rewrite setOrder_lookup in H.
      destruct (decide (tableName item = k)) as [Ht|Ht].
      * right. exists 0%nat, item. injection H as <-.
        rewrite Nat.add_0_r. repeat split; try assumption. now left.
      * destruct (decide (fullKey item = k)) as [Hf|Hf].
        -- right. exists 0%nat, item. injection H as <-.
           rewrite Nat.add_0_r. repeat split; try assumption. now right.
        -- left. split; [exact H|]. constructor; [|exact Hall].
           unfold writesKey. tauto.
    + right. exists (S j), e. repeat split; try assumption. lia.
Qed.

Lemma orderMap_some (originalOrder : list DBMLTableOrder) (k : str) (i : nat) :
  orderMap originalOrder !! k = Some i -> lastWriter originalOrder k i.
Proof.
  unfold orderMap. intros H.
  apply buildOrderFrom_some in H as [[H _]|(j & e & -> & Hj & He & Hl)].
  - now rewrite lookup_empty in H.
  - split; [now exists e | exact Hl].
Qed.

Lemma orderMap_none (originalOrder : list DBMLTableOrder) (k : str) :
  orderMap originalOrder !! k = None -> unwritten originalOrder k.
Proof. unfold orderMap. intros H. now apply buildOrderFrom_none in H. Qed.

(** The index of a block, read in the original list. *)
Lemma blockOrder_orderedAt (originalOrder : list DBMLTableOrder)
  (b : DBMLBlock) :
  orderedAt originalOrder b (blockOrder (orderMap originalOrder) b).
Proof.
  unfold orderedAt, blockOrder. cbv zeta.
  destruct (orderMap originalOrder !! blockKey b) as [i|] eqn:Ef.
  - left. now apply orderMap_some.
  - apply orderMap_none in Ef.
    destruct (orderMap originalOrder !! default [] (truthy (bTableName b)))
      as [i|] eqn:Eb.
    + right. split; [exact Ef | now apply orderMap_some].
    + split; [exact Ef | now apply orderMap_none].
Qed.

(** C4 (amended): the sorted table blocks are the blocks the lookup
    matches, in ascending order of their index, followed by the
    unmatched blocks in the order the regenerated text has them; blocks
    of one index keep their order too.  The index of a block is the
    position, in the original list, of the last entry that has the
    schema-qualified key of the block as its table name or as its
    schema-qualified key or, when no entry has it, of the last entry
    that has the bare name of the block; a block is unmatched when no
    entry has either.  Regenerated blocks C, A, D, B with original order
    A, B, C come out as A, B, C, D. *)
Theorem reorder_matched_first (regeneratedDbml : str)
  (originalOrder : list DBMLTableOrder) :
  let key := blockOrder (orderMap originalOrder) in
  let tables :=
    List.filter (isBlockType bTable) (parseDBMLIntoBlocks regeneratedDbml) in
  let sorted :=
    sortedTableBlocks (parseDBMLIntoBlocks regeneratedDbml) originalOrder in
  sorted
  = List.filter (isMatched key) sorted
      ++ List.filter (fun b => negb (isMatched key b)) tables
  /\ StronglySorted (indexLe key) (List.filter (isMatched key) sorted)
  /\ Permutation (List.filter (isMatched key) sorted)
       (List.filter (isMatched key) tables)
  /\ (forall k : option nat,
        List.filter (fun b => isKey k (key b)) sorted
        = List.filter (fun b => isKey k (key b)) tables)
  /\ (forall b : DBMLBlock, orderedAt originalOrder b (key b))
  /\ List.map bTableName
       (sortedTableBlocks (parseDBMLIntoBlocks regeneratedCADB) originalABC)
     = [Some (lit "A"); Some (lit "B"); Some (lit "C"); Some (lit "D")]
  /\ reorderDBML regeneratedCADB originalABC
     = tableText "A" ++ [LF] ++ tableText "B" ++ [LF]
         ++ tableText "C" ++ [LF] ++ tableText "D" ++ [LF].
Proof.
  intros key tables sorted.
  assert (Hs : StronglySorted (fun a b => orderLe (key a) (key b) = true)
                 sorted) by apply sortBy_sorted.
  split; [|split; [|split; [|split; [|split; [|split]]]]].
  - rewrite <- (sortBy_unmatched key tables).
    now apply sorted_matched_first.
  - now apply sorted_matched_indexLe.
  - apply filter_perm, sortBy_perm.
  - intros k. apply sortBy_stable.
  - intros b. apply blockOrder_orderedAt.
  - vm_compute. reflexivity.
  - vm_compute. reflexivity.
Qed.

(** The matched blocks do not come in original first-seen order when two
    entries share a key.  In the text of tables users, orders and
    audit.users, taken as original and as regenerated text, the bare
    name users is written again by the entry of audit.users: all three
    blocks are matched, users is first in the original order, and the
    result has orders before it. *)
Lemma shared_name_not_first_seen :
  extractTableOrder sharedName
  = [ mkOrder (lit "users") None; mkOrder (lit "orders") None;
      mkOrder (lit "users") (Some (lit "audit")) ]
  /\ forallb (isMatched (blockOrder (orderMap (extractTableOrder sharedName))))
       (List.filter (isBlockType bTable) (parseDBMLIntoBlocks sharedName))
     = true
  /\ List.map (fun b => (bSchemaName b, bTableName b))
       (sortedTableBlocks (parseDBMLIntoBlocks sharedName)
          (extractTableOrder sharedName))
     = [ (None, Some (lit "orders")); (None, Some (lit "users"));
         (Some (lit "audit"), Some (lit "users")) ]
  /\ reorderDBML sharedName (extractTableOrder sharedName)
     = tableText "orders" ++ [LF] ++ tableText "users" ++ [LF]
         ++ auditUsersText ++ [LF].
Proof. vm_compute. repeat split; reflexivity. Qed.

(** The index of the last entry named s.t is 1, but the key s.t was last
    written by the schema-qualified key of entry 2: a block named s.t is
    sorted by 2. *)
Lemma last_name_shadowed :
  dottedOrder !! 1%nat = Some (mkOrder (lit "s.t") None)
  /\ Forall (fun e => tableName e <> lit "s.t") (drop 2 dottedOrder)
  /\ blockOrder (orderMap dottedOrder)
       (mkBlock bTable [] (Some (lit "s.t")) None)
     = Some 2%nat.
Proof.
  split; [reflexivity|]. split; [|vm_compute; reflexivity].
  repeat constructor. vm_compute. discriminate.
Qed.

(** C9 (amended): when entry [i] is the last entry of the original order
    with table name [name], and no later entry has [name] as its
    schema-qualified key, the lookup gives [i] for [name], and a block
    that reaches the lookup through its bare name [name] is sorted by
    [i]: the indices of the earlier entries of that name cannot be
    reached through that key. *)
Theorem orderMap_last_write_wins (originalOrder : list DBMLTableOrder)
  (name : list N) (i : nat) (e : DBMLTableOrder) :
  originalOrder !! i = Some e ->
  tableName e = name ->
  Forall (fun e' => tableName e' <> name /\ fullKey e' <> name)
    (drop (S i) originalOrder) ->
  orderMap originalOrder !! name = Some i
  /\ forall b : DBMLBlock,
       bTableName b = Some name ->
       truthy (bSchemaName b) = None
       \/ orderMap originalOrder !! blockKey b = None ->
       blockOrder (orderMap originalOrder) b = Some i.
Proof.
  intros Hi Hname Hlater.
  assert (Hm : orderMap originalOrder !! name = Some i).
  { unfold orderMap.
    now rewrite (buildOrderFrom_last originalOrder name i e 0 ∅). }
  split; [exact Hm|].
  intros b Hb Hs. rewrite <- Hm. now apply blockOrder_bare.
Qed.

Lemma orderMap_last_write_wins_witness :
  orderMap twoUsers !! lit "users" = Some 2%nat
  /\ forall b : DBMLBlock,
       bTableName b = Some (lit "users") ->
       truthy (bSchemaName b) = None
       \/ orderMap twoUsers !! blockKey b = None ->
       blockOrder (orderMap twoUsers) b = Some 2%nat.
Proof.
  apply (orderMap_last_write_wins twoUsers (lit "users") 2
           (mkOrder (lit "users") (Some (lit "b")))).
  - reflexivity.
  - reflexivity.
  - constructor.
Defined.

(** ** Blank lines *)

Lemma isSpace_LF (c : char) : (c =? LF) = true -> isSpace c = true.
Proof. intros H. apply N.eqb_eq in H. now subst. Qed.

Lemma lfRun_skipRun (s : str) : lfRun (skipRun s) = 0%nat.
Proof.
  induction s as [|c r IH]; [reflexivity|].
  simpl. destruct (isSpace c) eqn:Ec.
  - destruct (lfRun r) eqn:Er; [|exact IH].
    destruct (c =? LF) eqn:El; [exact Er|].
    simpl. now rewrite Ec, El, Er.
  - simpl. now rewrite Ec.
Qed.

Lemma skipRun_length (s : str) :
  (List.length (skipRun s) <= List.length s)%nat.
Proof.
  induction s as [|c r IH]; [reflexivity|].
  simpl. destruct (isSpace c); [|reflexivity].
  destruct (lfRun r); [destruct (c =? LF)|]; simpl; lia.
Qed.

(** The second star of the pattern succeeds when the whitespace ahead
    has a newline, and stops after the last one. *)
Lemma blankStar2_spec (s : str) :
  blankStar2 s
  = match lfRun s with O => None | S _ => Some (skipRun s) end.
Proof.
  induction s as [|c r IH]; [reflexivity|].
  simpl. destruct (isSpace c) eqn:Ec.
  - rewrite IH. destruct (lfRun r) eqn:Er.
    + destruct (c =? LF); reflexivity.
    + now rewrite Nat.add_succ_r.
  - destruct (c =? LF) eqn:El; [|reflexivity].
    apply isSpace_LF in El. congruence.
Qed.

(** The first star succeeds when the whitespace ahead has two. *)
Lemma blankStar1_spec (s : str) :
  blankStar1 s
  = match lfRun s with
    | O | 1%nat => None
    | _ => Some (skipRun s)
    end.
Proof.
  induction s as [|c r IH]; [reflexivity|].
  simpl. destruct (isSpace c) eqn:Ec.
  - rewrite IH. destruct (lfRun r) as [|[|n]] eqn:Er.
    + destruct (c =? LF) eqn:El; simpl; [|reflexivity].
      rewrite blankStar2_spec. now rewrite Er.
    + destruct (c =? LF) eqn:El; simpl; [|reflexivity].
      rewrite blankStar2_spec. now rewrite Er.
    + now rewrite !Nat.add_succ_r.
  - destruct (c =? LF) eqn:El; [|reflexivity].
    apply isSpace_LF in El. congruence.
Qed.

Lemma matchBlank_spec (c : char) (r : str) :
  matchBlank (c :: r)
  = if (c =? LF) && (2 <=? lfRun r)%nat then Some (skipRun r) else None.
Proof.
  rewrite matchBlank_scan. simpl. destruct (c =? LF); [|reflexivity].
  rewrite blankStar1_spec. now destruct (lfRun r) as [|[|n]].
Qed.

Lemma matchBlank_shorter (s rest : str) :
  matchBlank s = Some rest -> (List.length rest < List.length s)%nat.
Proof.
  destruct s as [|c r]; [discriminate|].
  rewrite matchBlank_spec.
  destruct (_ && _); [|discriminate].
  intros [= <-]. pose proof (skipRun_length r). simpl. lia.
Qed.

(** With fuel for every character, more fuel changes nothing. *)
Lemma replaceBlank_fuel (fuel : nat) :
  forall s : str,
    (List.length s <= fuel)%nat ->
    replaceBlank fuel s = collapseBlankLines s.
Proof.
  unfold collapseBlankLines.
  induction fuel as [fuel IH] using lt_wf_ind.
  intros s Hlen. destruct s as [|c r].
  - now destruct fuel.
  - destruct fuel as [|fuel]; [simpl in Hlen; lia|].
    cbn [List.length replaceBlank].
    destruct (matchBlank (c :: r)) as [rest|] eqn:Em.
    + apply matchBlank_shorter in Em. simpl in *.
      rewrite (IH fuel) by lia.
      now rewrite (IH (List.length r)) by lia.
    + simpl in *. now rewrite (IH fuel) by lia.
Qed.

(** The scan, one position at a time. *)
Lemma collapse_cons (c : char) (r : str) :
  collapseBlankLines (c :: r)
  = match matchBlank (c :: r) with
    | Some rest => LF :: LF :: collapseBlankLines rest
    | None => c :: collapseBlankLines r
    end.
Proof.
  unfold collapseBlankLines at 1. cbn [List.length replaceBlank].
  destruct (matchBlank (c :: r)) as [rest|] eqn:Em.
  - apply matchBlank_shorter in Em. simpl in Em.
    now rewrite replaceBlank_fuel by lia.
  - now rewrite replaceBlank_fuel by lia.
Qed.

Lemma collapse_nil : collapseBlankLines [] = [].
Proof. reflexivity. Qed.

(** The scan only removes newlines from the whitespace at the start. *)
Lemma lfRun_collapse (s : str) :
  (lfRun (collapseBlankLines s) <= lfRun s)%nat.
Proof.
  remember (List.length s) as n eqn:Hn.
  revert s Hn. induction n as [n IH] using lt_wf_ind. intros s Hn.
  destruct s as [|c r]; [reflexivity|].
  rewrite collapse_cons.
  destruct (matchBlank (c :: r)) as [rest|] eqn:Em.
  - pose proof (matchBlank_shorter _ _ Em) as Hlt.
    rewrite matchBlank_spec in Em.
    destruct (c =? LF) eqn:El; [|discriminate].
    destruct (2 <=? lfRun r)%nat eqn:E2; [|discriminate].
    injection Em as <-. apply Nat.leb_le in E2.
    pose proof (IH (List.length (skipRun r)) ltac:(subst n; exact Hlt)
                  (skipRun r) eq_refl) as H.
    rewrite lfRun_skipRun in H.
    simpl. rewrite (isSpace_LF _ El), El. simpl. lia.
  - pose proof (IH (List.length r) ltac:(subst n; simpl; lia) r eq_refl) as H.
    simpl. destruct (isSpace c); [|reflexivity].
    destruct (c =? LF); lia.
Qed.

(** After the scan no position of the text matches the pattern. *)
Lemma collapse_no_match (s : str) :
  forall a b : str, collapseBlankLines s = a ++ b -> matchBlank b = None.
Proof.
  remember (List.length s) as n eqn:Hn.
  revert s Hn. induction n as [n IH] using lt_wf_ind. intros s Hn a b Hab.
  destruct s as [|c r].
  - rewrite collapse_nil in Hab. symmetry in Hab.
    apply app_eq_nil in Hab as [_ ->]. reflexivity.
  - rewrite collapse_cons in Hab.
    destruct (matchBlank (c :: r)) as [rest|] eqn:Em.
    + pose proof (matchBlank_shorter _ _ Em) as Hlt.
      rewrite matchBlank_spec in Em.
      destruct (c =? LF) eqn:El; [|discriminate].
      destruct (2 <=? lfRun r)%nat eqn:E2; [|discriminate].
      injection Em as <-.
      pose proof (lfRun_collapse (skipRun r)) as Hrun.
      rewrite lfRun_skipRun in Hrun.
      assert (H0 : lfRun (collapseBlankLines (skipRun r)) = 0%nat) by lia.
      destruct a as [|x a].
      * simpl in Hab. subst b. rewrite matchBlank_spec.
        simpl. rewrite H0. reflexivity.
      * simpl in Hab. injection Hab as <- Hab. destruct a as [|y a].
        -- simpl in Hab. subst b. rewrite matchBlank_spec.
           rewrite H0. reflexivity.
        -- simpl in Hab. injection Hab as <- Hab.
           exact (IH (List.length (skipRun r)) ltac:(subst n; exact Hlt)
                    (skipRun r) eq_refl a b Hab).
    + destruct a as [|x a].
      * simpl in Hab. subst b. rewrite matchBlank_spec in *.
        destruct (c =? LF); [|reflexivity]. cbn [andb] in *.
        destruct (2 <=? lfRun r)%nat eqn:E2; [discriminate|].
        apply Nat.leb_gt in E2. pose proof (lfRun_collapse r).
        destruct (2 <=? lfRun (collapseBlankLines r))%nat eqn:E3;
          [apply Nat.leb_le in E3; lia | reflexivity].
      * simpl in Hab. injection Hab as <- Hab.
        exact (IH (List.length r) ltac:(subst n; simpl; lia)
                 r eq_refl a b Hab).
Qed.

Lemma forallb_isSpace_lfRun (w rest : str) :
  forallb isSpace w = true ->
  (lfRun rest <= lfRun (w ++ rest))%nat.
Proof.
  induction w as [|c w IH]; simpl; [lia|].
  intros H. apply andb_prop in H as [Hc Hw]. rewrite Hc.
  specialize (IH Hw). lia.
Qed.

(** The pattern matches wherever three newlines are separated by
    whitespace only. *)
Lemma blankRun_matches (s : str) : blankRun s -> matchBlank s <> None.
Proof.
  intros (w1 & w2 & rest & -> & H1 & H2).
  rewrite matchBlank_spec. change (LF =? LF) with true. cbn [andb].
  pose proof (forallb_isSpace_lfRun w1 (LF :: w2 ++ LF :: rest) H1) as Ha.
  pose proof (forallb_isSpace_lfRun w2 (LF :: rest) H2) as Hb.
  simpl in Ha, Hb.
  destruct (2 <=? lfRun (w1 ++ LF :: w2 ++ LF :: rest))%nat eqn:E;
    [discriminate|].
  apply Nat.leb_gt in E. lia.
Qed.

Lemma lfRun_first (s : str) :
  (1 <= lfRun s)%nat ->
  exists w rest,
    s = w ++ LF :: rest /\ forallb isSpace w = true
    /\ lfRun s = S (lfRun rest).
Proof.
  induction s as [|c r IH]; simpl; [lia|].
  destruct (isSpace c) eqn:Ec; [|lia].
  destruct (N.eqb_spec c LF) as [->|Hc]; intros H.
  - exists [], r. repeat split.
  - destruct (IH H) as (w & rest & -> & Hw & Hn).
    exists (c :: w), rest. simpl. rewrite Ec, Hw. repeat split. exact Hn.
Qed.

(** The pattern matches only where three newlines are separated by
    whitespace. *)
Lemma matches_blankRun (s : str) : matchBlank s <> None -> blankRun s.
Proof.
  destruct s as [|c r]; [easy|].
  rewrite matchBlank_spec.
  destruct (N.eqb_spec c LF) as [->|Hc]; [|easy]. cbn [andb].
  destruct (2 <=? lfRun r)%nat eqn:E; [|easy]. intros _.
  apply Nat.leb_le in E.
  destruct (lfRun_first r ltac:(lia)) as (w1 & r1 & -> & H1 & Hn1).
  destruct (lfRun_first r1 ltac:(lia)) as (w2 & r2 & -> & H2 & Hn2).
  now exists w1, w2, r2.
Qed.

Lemma collapse_no_blankRun (s a b : str) :
  collapseBlankLines s = a ++ b -> ~ blankRun b.
Proof.
  intros Hab Hb. apply blankRun_matches in Hb.
  now rewrite (collapse_no_match s a b Hab) in Hb.
Qed.

(** The text [reorderDBML] returns never has three newlines in a row. *)
Lemma reorderDBML_no_three_newlines (regeneratedDbml : str)
  (originalOrder : list DBMLTableOrder) (a b : str) :
  reorderDBML regeneratedDbml originalOrder <> a ++ LF :: LF :: LF :: b.
Proof.
  unfold reorderDBML, ensureNewline.
  set (t := collapseBlankLines (reassemble regeneratedDbml originalOrder)).
  assert (Ht : forall a b, t <> a ++ LF :: LF :: LF :: b).
  { intros a' b' H. apply (collapse_no_blankRun _ _ _ H).
    now exists [], [], b'. }
  destruct (endsWithLF t) eqn:E; [apply Ht|].
  intros H. destruct (rev b) as [|x b'] eqn:Eb.
  - apply (f_equal (@rev N)) in Eb. rewrite rev_involutive in Eb.
    simpl in Eb. subst b.
    change (a ++ [LF; LF; LF]) with (a ++ [LF; LF] ++ [LF]) in H.
    rewrite app_assoc in H. apply app_inj_tail in H as [H _].
    unfold endsWithLF in E. rewrite H, rev_app_distr in E. discriminate.
  - apply (f_equal (@rev N)) in Eb. rewrite rev_involutive in Eb.
    simpl in Eb. subst b.
    change (a ++ LF :: LF :: LF :: rev b' ++ [x])
      with (a ++ (LF :: LF :: LF :: rev b') ++ [x]) in H.
    rewrite app_assoc in H. apply app_inj_tail in H as [H _].
    now apply Ht in H.
Qed.

Lemma isIndent_inv (c : char) :
  isIndent c = true -> isSpace c = true /\ (c =? LF) = false.
Proof.
  unfold isIndent. intros H. apply andb_prop in H as [H1 H2].
  split; [exact H1|]. now apply negb_true_iff in H2.
Qed.

Lemma lfRun_indent (w q : str) :
  forallb isIndent w = true -> startsNonSpace q = true ->
  lfRun (w ++ q) = 0%nat.
Proof.
  intros Hw Hq. induction w as [|c w IH]; simpl.
  - destruct q as [|d q]; [reflexivity|]. simpl in *.
    now apply negb_true_iff in Hq as ->.
  - simpl in Hw. apply andb_prop in Hw as [Hc Hw].
    apply isIndent_inv in Hc as [-> ->]. now apply IH.
Qed.

Lemma lfRun_app_space (w rest : str) :
  forallb isSpace w = true ->
  lfRun (w ++ rest)
  = (List.length (List.filter (N.eqb LF) w) + lfRun rest)%nat.
Proof.
  induction w as [|c w IH]; [reflexivity|].
  cbn [forallb app lfRun List.filter].
  intros H. apply andb_prop in H as [-> Hw]. rewrite (IH Hw).
  rewrite (N.eqb_sym LF c). now destruct (c =? LF).
Qed.

Lemma skipRun_app_space (w rest : str) :
  forallb isSpace w = true -> (1 <= lfRun rest)%nat ->
  skipRun (w ++ rest) = skipRun rest.
Proof.
  intros Hw Hr. induction w as [|c w IH]; simpl; [reflexivity|].
  simpl in Hw. apply andb_prop in Hw as [-> Hw].
  rewrite (lfRun_app_space _ _ Hw).
  destruct (_ + lfRun rest)%nat eqn:E; [lia|]. now apply IH.
Qed.

Lemma existsb_LF_count (w : str) :
  existsb (N.eqb LF) w = true ->
  (1 <= List.length (List.filter (N.eqb LF) w))%nat.
Proof.
  induction w as [|c w IH]; [discriminate|].
  cbn [existsb List.filter].
  destruct (LF =? c); cbn [orb List.length]; [lia | exact IH].
Qed.

(** Indentation is copied by the scan. *)
Lemma collapse_indent (w y : str) :
  forallb isIndent w = true ->
  collapseBlankLines (w ++ y) = w ++ collapseBlankLines y.
Proof.
  induction w as [|c w IH]; [reflexivity|].
  simpl. intros H. apply andb_prop in H as [Hc Hw].
  apply isIndent_inv in Hc as [_ Hc].
  rewrite collapse_cons, matchBlank_spec, Hc. cbn [andb].
  now rewrite IH.
Qed.

Lemma lfRun_app_nonspace (p : str) (c : char) (y : str) :
  isSpace c = false -> lfRun (p ++ c :: y) = lfRun (p ++ [c]).
Proof.
  intros Hc. induction p as [|x p IH]; simpl.
  - now rewrite Hc.
  - now rewrite IH.
Qed.

Lemma skipRun_app_nonspace (p : str) (c : char) :
  isSpace c = false ->
  exists p',
    (List.length p' <= List.length p)%nat
    /\ forall y, skipRun (p ++ c :: y) = p' ++ c :: y.
Proof.
  intros Hc. induction p as [|x p (p' & Hlen & IH)].
  - exists []. split; [reflexivity|]. intros y. simpl. now rewrite Hc.
  - destruct (isSpace x) eqn:Ex.
    + destruct (lfRun (p ++ [c])) eqn:Er.
      * destruct (x =? LF) eqn:El.
        -- exists p. split; [simpl; lia|]. intros y. simpl.
           now rewrite Ex, lfRun_app_nonspace, Er, El.
        -- exists (x :: p). split; [reflexivity|]. intros y. simpl.
           now rewrite Ex, lfRun_app_nonspace, Er, El.
      * exists p'. split; [simpl; lia|]. intros y. simpl.
        now rewrite Ex, lfRun_app_nonspace, Er, IH.
    + exists (x :: p). split; [reflexivity|]. intros y. simpl.
      now rewrite Ex.
Qed.

(** The scan of a text does not depend on what follows a character
    that is not whitespace. *)
Lemma collapse_app_nonspace (c : char) (y : str) :
  isSpace c = false ->
  forall p : str,
    collapseBlankLines (p ++ c :: y)
    = collapseBlankLines (p ++ [c]) ++ collapseBlankLines y.
Proof.
  intros Hc p.
  remember (List.length p) as n eqn:Hn.
  revert p Hn. induction n as [n IH] using lt_wf_ind. intros p Hn.
  assert (Hlf : (c =? LF) = false).
  { destruct (c =? LF) eqn:E; [|reflexivity].
    apply isSpace_LF in E. congruence. }
  destruct p as [|x p]; simpl.
  - rewrite !collapse_cons, !matchBlank_spec, Hlf. reflexivity.
  - rewrite !collapse_cons, !matchBlank_spec.
    rewrite (lfRun_app_nonspace p c y Hc).
    destruct ((x =? LF) && (2 <=? lfRun (p ++ [c]))%nat).
    + destruct (skipRun_app_nonspace p c Hc) as (p' & Hlen & Hp').
      rewrite !Hp'. simpl.
      now rewrite (IH (List.length p') ltac:(subst n; simpl; lia) p' eq_refl).
    + simpl.
      now rewrite (IH (List.length p) ltac:(subst n; simpl; lia) p eq_refl).
Qed.

Lemma collapse_app (p y : str) :
  endsNonSpace p = true ->
  collapseBlankLines (p ++ y) = collapseBlankLines p ++ collapseBlankLines y.
Proof.
  unfold endsNonSpace. intros H.
  destruct (rev p) as [|c l] eqn:E.
  - apply (f_equal (@rev N)) in E. rewrite rev_involutive in E. now subst.
  - apply (f_equal (@rev N)) in E. rewrite rev_involutive in E.
    simpl in E, H. subst p. apply negb_true_iff in H.
    rewrite <- app_assoc. simpl. now apply collapse_app_nonspace.
Qed.

(** Between two pieces of text, whitespace with three newlines or more
    is replaced by its indentation before the first newline, two
    newlines, and its indentation after the last one. *)
Lemma collapse_exact (p w0 w1 w2 q : str) :
  endsNonSpace p = true -> startsNonSpace q = true ->
  forallb isIndent w0 = true -> forallb isSpace w1 = true ->
  existsb (N.eqb LF) w1 = true -> forallb isIndent w2 = true ->
  collapseBlankLines (p ++ w0 ++ LF :: w1 ++ LF :: w2 ++ q)
  = collapseBlankLines p ++ w0 ++ LF :: LF :: w2 ++ collapseBlankLines q.
Proof.
  intros Hp Hq H0 H1 Hlf H2.
  rewrite (collapse_app p _ Hp). f_equal.
  rewrite (collapse_indent w0 _ H0). f_equal.
  pose proof (lfRun_indent w2 q H2 Hq) as Hz.
  assert (Hrun : lfRun (LF :: w2 ++ q) = 1%nat) by (simpl; now rewrite Hz).
  rewrite collapse_cons, matchBlank_spec.
  rewrite (lfRun_app_space w1 _ H1), Hrun.
  apply existsb_LF_count in Hlf.
  destruct (2 <=? _)%nat eqn:E; [|apply Nat.leb_gt in E; lia].
  change (LF =? LF) with true. cbn [andb].
  rewrite (skipRun_app_space w1 _ H1) by lia.
  simpl. rewrite Hz. now rewrite (collapse_indent w2 _ H2).
Qed.

(** Two blank lines can remain in the returned text only as its
    whitespace tail, when the newline was appended after a last line of
    whitespace. *)
Lemma reorderDBML_blankRun_at_end (regeneratedDbml : str)
  (originalOrder : list DBMLTableOrder) (a b : str) :
  reorderDBML regeneratedDbml originalOrder = a ++ b ->
  blankRun b ->
  endsWithLF (collapseBlankLines (reassemble regeneratedDbml originalOrder))
  = false
  /\ forallb isSpace b = true.
Proof.
  unfold reorderDBML, ensureNewline.
  set (t := collapseBlankLines (reassemble regeneratedDbml originalOrder)).
  destruct (endsWithLF t) eqn:E; intros Hab Hb.
  - now apply (collapse_no_blankRun _ _ _ Hab) in Hb.
  - split; [reflexivity|].
    destruct Hb as (w1 & w2 & rest & -> & H1 & H2).
    destruct (rev rest) as [|x l] eqn:Er;
      apply (f_equal (@rev N)) in Er; rewrite rev_involutive in Er;
      simpl in Er; subst rest.
    + simpl. rewrite forallb_app, H1. simpl.
      rewrite forallb_app, H2. reflexivity.
    + exfalso.
      assert (Heq : a ++ LF :: w1 ++ LF :: w2 ++ LF :: rev l ++ [x]
                    = (a ++ LF :: w1 ++ LF :: w2 ++ LF :: rev l) ++ [x])
        by (repeat (rewrite <- app_assoc; simpl); reflexivity).
      rewrite Heq in Hab. apply app_inj_tail in Hab as [Hab _].
      apply (collapse_no_blankRun _ _ _ Hab).
      now exists w1, w2, (rev l).
Qed.

(** After the blank lines of [openTable] are reduced to one, the
    newline appended to the last line makes it a second blank line. *)
Lemma trailing_blank_lines_remain :
  reorderDBML openTable []
  = lit "Table a {" ++ LF :: [] ++ LF :: [32; 32] ++ LF :: []
  /\ blankRun (LF :: [] ++ LF :: [32; 32] ++ LF :: []).
Proof.
  split; [vm_compute; reflexivity|].
  now exists [], [32; 32], [].
Qed.

(** C3 (amended): in the reassembled text, whitespace with three
    newlines or more between two pieces of text is replaced by two
    newlines (and the indentation around them), so that two or more
    blank lines become exactly one; after this step no three newlines
    with only whitespace between them remain.  The returned text never
    has three newlines in a row, and keeps two blank lines only as its
    whitespace tail, when the final newline was appended to a last line
    of whitespace. *)
Theorem blank_lines_collapsed (regeneratedDbml : str)
  (originalOrder : list DBMLTableOrder) (p w0 w1 w2 q : str) :
  reassemble regeneratedDbml originalOrder
  = p ++ w0 ++ LF :: w1 ++ LF :: w2 ++ q ->
  endsNonSpace p = true -> startsNonSpace q = true ->
  forallb isIndent w0 = true -> forallb isSpace w1 = true ->
  existsb (N.eqb LF) w1 = true -> forallb isIndent w2 = true ->
  let collapsed :=
    collapseBlankLines (reassemble regeneratedDbml originalOrder) in
  collapsed
  = collapseBlankLines p ++ w0 ++ LF :: LF :: w2 ++ collapseBlankLines q
  /\ (forall a b, collapsed = a ++ b -> ~ blankRun b)
  /\ (forall a b,
        reorderDBML regeneratedDbml originalOrder = a ++ b ->
        blankRun b ->
        endsWithLF collapsed = false /\ forallb isSpace b = true)
  /\ (forall a b,
        reorderDBML regeneratedDbml originalOrder
        <> a ++ LF :: LF :: LF :: b).
Proof.
  intros Htext Hp Hq H0 H1 Hlf H2 collapsed.
  split; [|split; [|split]].
  - unfold collapsed. rewrite Htext. now apply collapse_exact.
  - intros a b. apply collapse_no_blankRun.
  - intros a b. apply reorderDBML_blankRun_at_end.
  - intros a b. apply reorderDBML_no_three_newlines.
Qed.

Lemma blank_lines_collapsed_witness :
  let collapsed := collapseBlankLines (reassemble spacedTable []) in
  collapsed
  = collapseBlankLines (lit "Table a {") ++ [] ++ LF :: LF :: lit "  "
      ++ collapseBlankLines (lit "id int" ++ [LF] ++ lit "}")
  /\ (forall a b, collapsed = a ++ b -> ~ blankRun b)
  /\ (forall a b,
        reorderDBML spacedTable [] = a ++ b ->
        blankRun b ->
        endsWithLF collapsed = false /\ forallb isSpace b = true)
  /\ (forall a b, reorderDBML spacedTable [] <> a ++ LF :: LF :: LF :: b).
Proof.
  apply (blank_lines_collapsed spacedTable [] (lit "Table a {") []
           [LF; LF] (lit "  ") (lit "id int" ++ [LF] ++ lit "}"));
    vm_compute; reflexivity.
Defined.

(** ** The anchors of the extracted comments *)

Lemma hasName_truthy (x : option str) :
  hasName x = true -> hasName (truthy x) = true.
Proof. now destruct x as [[|c r]|]. Qed.

Lemma hasName_some (name : str) : name <> [] -> hasName (Some name) = true.
Proof. now destruct name. Qed.

Lemma forallb_snoc {A : Type} (f : A -> bool) (l : list A) (x : A) :
  forallb f l = true -> f x = true -> forallb f (l ++ [x]) = true.
Proof. intros Hl Hx. rewrite forallb_app, Hl. simpl. now rewrite Hx. Qed.

Lemma placeComment_inv (st : ExtractState) (txt : str) :
  extractInv st -> extractInv (placeComment st txt).
Proof.
  intros [Hc Ht]. unfold placeComment.
  destruct (negb (foundFirstDefinition st)); [now split|].
  destruct (inTableBlock st && (0 <? braceDepth st)%Z) eqn:E; [|now split].
  apply andb_prop in E as [E _]. split; [|exact Ht]. simpl.
  apply forallb_snoc; [exact Hc|].
  unfold anchorOK. cbn [ctype context ctxTable ctxField].
  now rewrite (hasName_truthy _ (Ht E)).
Qed.

Lemma onTable_inv (t : str) (st : ExtractState) :
  extractInv st -> extractInv (onTable t st).
Proof.
  intros [Hc Ht]. unfold onTable.
  destruct (matchTable t) as [[schema name]|] eqn:Em; [|now split].
  apply matchTable_name in Em. split; simpl.
  - destruct (pendingComments st); [exact Hc|].
    destruct (negb (foundFirstDefinition st));
      (apply forallb_snoc; [exact Hc|]); [reflexivity|].
    unfold anchorOK. cbn [ctype context ctxTable ctxField].
    now rewrite (hasName_some _ Em).
  - intros _. now apply hasName_some.
Qed.

Lemma onEnum_inv (t : str) (st : ExtractState) :
  extractInv st -> extractInv (onEnum t st).
Proof.
  intros [Hc Ht]. unfold onEnum.
  destruct (matchEnum t); [|now split].
  destruct (pendingComments st); [now split|].
  destruct (truthy (currentTable st)); [now split|].
  split; [|exact Ht]. simpl. now apply forallb_snoc.
Qed.

Lemma onSingleLine_inv (line t : str) (st : ExtractState) :
  extractInv st -> extractInv (onSingleLine line t st).
Proof.
  intros H. unfold onSingleLine.
  destruct (matchSingleLine t); [now apply placeComment_inv | exact H].
Qed.

Lemma onInline_inv (line t : str) (st : ExtractState) :
  extractInv st -> extractInv (onInline line t st).
Proof.
  intros H. pose proof H as [Hc Ht]. unfold onInline.
  destruct (matchInline line) as [[code commentPart]|]; [|exact H].
  destruct (negb (matchSingleLine t)); [|exact H].
  destruct (matchField (trim code)) as [fieldName|] eqn:Ef; [|exact H].
  destruct (inTableBlock st) eqn:Ei; [|exact H].
  apply matchField_name in Ef.
  split; [|simpl; intros _; exact (Ht eq_refl)]. simpl.
  apply forallb_snoc; [exact Hc|].
  unfold anchorOK. cbn [ctype context ctxTable ctxField].
  now rewrite (hasName_truthy _ (Ht eq_refl)), (hasName_some _ Ef).
Qed.

Lemma onMultiLine_inv (line t : str) (rest : list str) (st : ExtractState) :
  extractInv st -> extractInv (onMultiLine line t rest st).
Proof.
  intros H. unfold onMultiLine.
  destruct (matchMultiLineStart t); [|exact H].
  match goal with
  | |- context [placeComment st ?txt] =>
      destruct (placeComment_inv st txt H) as [Hc Ht]
  end.
  split; assumption.
Qed.

Lemma onBraces_inv (line : str) (st : ExtractState) :
  extractInv st -> extractInv (onBraces line st).
Proof.
  intros [Hc Ht]. unfold onBraces.
  destruct (_ && _); split; simpl; try assumption. discriminate.
Qed.

Lemma extractStep_inv (st : ExtractState) (line : str) (rest : list str) :
  extractInv st -> extractInv (extractStep st line rest).
Proof.
  intros H. unfold extractStep.
  now apply onBraces_inv, onMultiLine_inv, onInline_inv, onSingleLine_inv,
    onEnum_inv, onTable_inv.
Qed.

Lemma extractLoop_inv (lines : list str) :
  forall st : ExtractState, extractInv st -> extractInv (extractLoop st lines).
Proof.
  induction lines as [|line rest IH]; intros st H; [exact H|].
  simpl. destruct (skip st) as [|k].
  - now apply IH, extractStep_inv.
  - apply IH. exact H.
Qed.

(** C7: every record [extractComments] returns is anchored as its type
    requires: an inline record has a table name and a field name, a table
    or field record has a table name and no field name, a header or
    footer record has no anchor. *)
Theorem extractComments_anchors (dbml : str) :
  forallb anchorOK (extractComments dbml) = true.
Proof.
  unfold extractComments, extractFinish.
  destruct (extractLoop_inv (split dbml) extractInit) as [Hc _];
    [now split|].
  destruct (pendingComments _); [exact Hc|].
  destruct (negb _); now apply forallb_snoc.
Qed.

(** ** A table header line *)

Lemma dropWhile_snoc (f : char -> bool) (l : str) (d : char) :
  f d = false -> dropWhile f (l ++ [d]) = dropWhile f l ++ [d].
Proof.
  intros Hd. induction l as [|x l IH]; simpl.
  - now rewrite Hd.
  - now destruct (f x).
Qed.

Lemma trimEnd_head (c : char) (r : str) :
  isSpace c = false -> exists r', trimEnd (c :: r) = c :: r'.
Proof.
  intros Hc. unfold trimEnd. simpl.
  rewrite (dropWhile_snoc _ _ _ Hc), rev_app_distr. simpl. eauto.
Qed.

(** The first character of a trimmed line is the first character of the
    line that is not whitespace. *)
Lemma trim_head (line : str) (c : char) (r : str) :
  trim line = c :: r ->
  isSpace c = false /\ exists r', dropWhile isSpace line = c :: r'.
Proof.
  unfold trim, trimStart.
  destruct (dropWhile isSpace line) as [|d r'] eqn:E; [discriminate|].
  pose proof (dropWhile_head _ _ _ _ E) as Hd.
  destruct (trimEnd_head d r' Hd) as [r'' ->].
  intros [= <- _]. eauto.
Qed.

Lemma eqCI_T (c : char) : eqCI 84 c = true -> c = 84 \/ c = 116.
Proof.
  unfold eqCI. rewrite !orb_true_iff, !andb_true_iff, !N.eqb_eq.
  intros [[H|[_ H]]|[[H _] _]]; [now left | now right | discriminate].
Qed.

(** A line that matches the table pattern starts with T or t. *)
Lemma matchTable_head (t : str) (x : option str * str) :
  matchTable t = Some x -> exists c r, t = c :: r /\ (c = 84 \/ c = 116).
Proof.
  rewrite matchTable_scan. unfold scanTable.
  destruct t as [|c r]; [discriminate|].
  change (lit "Table") with [84; 97; 98; 108; 101]. cbn [stripPrefixCI].
  destruct (eqCI 84 c) eqn:E; [|discriminate].
  intros _. exists c, r. split; [reflexivity | now apply eqCI_T].
Qed.

Lemma inlineLazy_split (s : str) :
  forall acc code commentPart,
    inlineLazy acc s = Some (code, commentPart) ->
    code ++ commentPart = rev acc ++ s
    /\ exists x, commentPart = SLASH :: x.
Proof.
  induction s as [|c s IH]; intros acc code commentPart.
  - simpl. discriminate.
  - cbn [inlineLazy].
    assert (Hstep : (if isLineTerminator c then None
                     else inlineLazy (c :: acc) s) = Some (code, commentPart)
                    -> code ++ commentPart = rev acc ++ c :: s
                       /\ exists x, commentPart = SLASH :: x).
    { destruct (isLineTerminator c); [discriminate|]. intros H.
      apply IH in H as [H1 H2]. split; [|exact H2].
      rewrite H1. simpl. now rewrite <- app_assoc. }
    destruct (stripPrefix [SLASH; SLASH] (c :: s)) as [r|] eqn:Ep;
      [|exact Hstep].
    destruct (forallb _ r); [|exact Hstep].
    intros [= <- <-]. split; [reflexivity|].
    cbn [stripPrefix] in Ep. destruct (N.eqb_spec c SLASH) as [->|];
      [eauto | discriminate].
Qed.

Lemma matchInline_split (line code commentPart : str) :
  matchInline line = Some (code, commentPart) ->
  code ++ commentPart = line /\ exists x, commentPart = SLASH :: x.
Proof.
  rewrite matchInline_scan. unfold scanInline.
  destruct line as [|c r]; [discriminate|].
  destruct (isLineTerminator c); [discriminate|].
  intros H. now apply inlineLazy_split in H.
Qed.

Lemma dropWhile_app_head (code commentPart : str) (c : char) (r x : str) :
  dropWhile isSpace (code ++ commentPart) = c :: r ->
  commentPart = SLASH :: x -> c <> SLASH ->
  exists r', dropWhile isSpace code = c :: r'.
Proof.
  intros H -> Hc. induction code as [|d code IH]; simpl in *.
  - injection H as <- _. congruence.
  - destruct (isSpace d); [now apply IH|].
    injection H as <- _. eauto.
Qed.

(** On a table header line nothing but the table check pushes a
    record. *)
Lemma matchTable_not_enum (t : str) (x : option str * str) :
  matchTable t = Some x -> matchEnum t = false.
Proof.
  intros H. apply matchTable_head in H as (c & r & -> & [-> | ->]);
    reflexivity.
Qed.

Lemma matchTable_not_comment (t : str) (x : option str * str) :
  matchTable t = Some x ->
  matchSingleLine t = false /\ matchMultiLineStart t = false.
Proof.
  intros H. apply matchTable_head in H as (c & r & -> & [-> | ->]);
    split; reflexivity.
Qed.

Lemma matchTable_not_field (line code commentPart : str)
  (x : option str * str) :
  matchTable (trim line) = Some x ->
  matchInline line = Some (code, commentPart) ->
  matchField (trim code) = None.
Proof.
  intros Ht Hi.
  apply matchTable_head in Ht as (c & r & Ht & Hc).
  apply trim_head in Ht as [Hsp [r' Hd]].
  apply matchInline_split in Hi as [<- [y Hy]].
  destruct (dropWhile_app_head _ _ _ _ _ Hd Hy) as [r'' Hcode].
  { destruct Hc as [-> | ->]; discriminate. }
  unfold trim, trimStart. rewrite Hcode.
  destruct (trimEnd_head c r'' Hsp) as [r3 ->].
  rewrite matchField_scan. unfold scanField, quoted.
  destruct Hc as [-> | ->]; reflexivity.
Qed.

(** The records an iteration pushes are added at the end. *)
Lemma pushes_refl (st : ExtractState) : pushes st st.
Proof. exists []. now rewrite app_nil_r. Qed.

Lemma pushes_trans (a b c : ExtractState) :
  pushes a b -> pushes b c -> pushes a c.
Proof.
  intros (n1 & H1 & F1) (n2 & H2 & F2). exists (n1 ++ n2).
  rewrite H2, H1, <- app_assoc. split; [reflexivity|].
  rewrite forallb_app. now rewrite F1, F2.
Qed.

Lemma pushes_one (st st' : ExtractState) (c : DBMLComment) :
  comments st' = comments st ++ [c] -> notFooter c = true -> pushes st st'.
Proof. intros H Hc. exists [c]. split; [exact H|]. simpl. now rewrite Hc. Qed.

Lemma pushes_same (st st' : ExtractState) :
  comments st' = comments st -> pushes st st'.
Proof. intros H. exists []. now rewrite app_nil_r. Qed.

Lemma placeComment_pushes (st : ExtractState) (txt : str) :
  pushes st (placeComment st txt).
Proof.
  unfold placeComment. destruct (negb _); [now apply pushes_same|].
  destruct (_ && _); [|now apply pushes_same].
  now eapply pushes_one.
Qed.

Lemma extractStep_pushes (st : ExtractState) (line : str) (rest : list str) :
  pushes st (extractStep st line rest).
Proof.
  unfold extractStep. cbv zeta.
  set (t := trim line).
  assert (H1 : pushes st (onTable t st)).
  { unfold onTable. destruct (matchTable t) as [[schema name]|];
      [|apply pushes_refl].
    destruct (pendingComments st); [now apply pushes_same|].
    destruct (negb (foundFirstDefinition st)); now eapply pushes_one. }
  set (s1 := onTable t st) in *.
  assert (H2 : pushes s1 (onEnum t s1)).
  { unfold onEnum. destruct (matchEnum t); [|apply pushes_refl].
    destruct (pendingComments s1); [now apply pushes_same|].
    destruct (truthy (currentTable s1)); [now apply pushes_same|].
    now eapply pushes_one. }
  set (s2 := onEnum t s1) in *.
  assert (H3 : pushes s2 (onSingleLine line t s2)).
  { unfold onSingleLine. destruct (matchSingleLine t);
      [apply placeComment_pushes | apply pushes_refl]. }
  set (s3 := onSingleLine line t s2) in *.
  assert (H4 : pushes s3 (onInline line t s3)).
  { unfold onInline. destruct (matchInline line) as [[code commentPart]|];
      [|apply pushes_refl].
    destruct (negb _); [|apply pushes_refl].
    destruct (matchField _); [|apply pushes_refl].
    destruct (inTableBlock s3); [|apply pushes_refl].
    now eapply pushes_one. }
  set (s4 := onInline line t s3) in *.
  assert (H5 : pushes s4 (onMultiLine line t rest s4)).
  { unfold onMultiLine. destruct (matchMultiLineStart t);
      [|apply pushes_refl].
    cbv zeta.
    eapply pushes_trans; [apply placeComment_pushes|].
    now apply pushes_same. }
  set (s5 := onMultiLine line t rest s4) in *.
  assert (H6 : pushes s5 (onBraces line s5)).
  { unfold onBraces. cbv zeta. destruct (_ && _); now apply pushes_same. }
  eauto 10 using pushes_trans.
Qed.

Lemma extractLoop_pushes (lines : list str) :
  forall st : ExtractState, pushes st (extractLoop st lines).
Proof.
  induction lines as [|line rest IH]; intros st; [apply pushes_refl|].
  simpl. destruct (skip st) as [|k].
  - eapply pushes_trans; [apply extractStep_pushes | apply IH].
  - eapply pushes_trans; [|apply IH]. now apply pushes_same.
Qed.

Lemma extractFinish_prefix (st : ExtractState) :
  exists more, extractFinish st = comments st ++ more.
Proof.
  unfold extractFinish. destruct (pendingComments st).
  - exists []. now rewrite app_nil_r.
  - destruct (negb _); eauto.
Qed.

(** C8: on a line that matches the table pattern, reached with comments
    pending, the table check pushes exactly one record made of the
    pending lines joined by newlines: a header record when no definition
    was seen before, and otherwise a table record anchored to the table
    named on that line.  Nothing else in the iteration pushes a record,
    the buffer is emptied, the loop goes on from the state of that
    iteration, and the record is in the list that is returned, right
    after the records pushed before. *)
Theorem table_header_flushes_pending (st : ExtractState) (line : str)
  (rest : list str) (schema : option str) (name : str) :
  skip st = 0%nat ->
  matchTable (trim line) = Some (schema, name) ->
  pendingComments st <> [] ->
  comments (onTable (trim line) st) = comments st ++ [flushedRecord st name]
  /\ comments (extractStep st line rest)
     = comments st ++ [flushedRecord st name]
  /\ pendingComments (extractStep st line rest) = []
  /\ foundFirstDefinition (extractStep st line rest) = true
  /\ extractLoop st (line :: rest)
     = extractLoop (extractStep st line rest) rest
  /\ exists more,
       extractFinish (extractLoop st (line :: rest))
       = comments st ++ flushedRecord st name :: more.
Proof.
  intros Hskip Ht Hp.
  assert (H1 : comments (onTable (trim line) st)
               = comments st ++ [flushedRecord st name]
               /\ pendingComments (onTable (trim line) st) = []
               /\ foundFirstDefinition (onTable (trim line) st) = true
               /\ inTableBlock (onTable (trim line) st) = true).
  { unfold onTable, flushedRecord. rewrite Ht. simpl.
    destruct (pendingComments st); [congruence|].
    now destruct (foundFirstDefinition st). }
  assert (Hstep : comments (extractStep st line rest)
                  = comments st ++ [flushedRecord st name]
                  /\ pendingComments (extractStep st line rest) = []
                  /\ foundFirstDefinition (extractStep st line rest) = true).
  { unfold extractStep. cbv zeta.
    set (st1 := onTable (trim line) st) in *.
    clearbody st1. destruct H1 as (Hc & Hpend & Hfound & Hin).
    assert (E2 : onEnum (trim line) st1 = st1).
    { unfold onEnum. now rewrite (matchTable_not_enum _ _ Ht). }
    destruct (matchTable_not_comment _ _ Ht) as [Hs Hm].
    assert (E3 : onSingleLine line (trim line) st1 = st1).
    { unfold onSingleLine. now rewrite Hs. }
    assert (E4 : onInline line (trim line) st1 = st1).
    { unfold onInline.
      destruct (matchInline line) as [[code commentPart]|] eqn:Ei;
        [|reflexivity].
      rewrite (matchTable_not_field _ _ _ _ Ht Ei).
      now destruct (negb _). }
    assert (E5 : onMultiLine line (trim line) rest st1 = st1).
    { unfold onMultiLine. now rewrite Hm. }
    rewrite E2, E3, E4, E5.
    unfold onBraces. cbv zeta. destruct (_ && _); simpl; auto. }
  destruct H1 as (Hc & _). destruct Hstep as (Hsc & Hsp & Hsf).
  assert (Hloop : extractLoop st (line :: rest)
                  = extractLoop (extractStep st line rest) rest)
    by (simpl; now rewrite Hskip).
  repeat (split; [assumption|]).
  rewrite Hloop.
  destruct (extractFinish_prefix (extractLoop (extractStep st line rest) rest))
    as [tail ->].
  destruct (extractLoop_pushes rest (extractStep st line rest))
    as (new & -> & _).
  rewrite Hsc. exists (new ++ tail). now rewrite <- !app_assoc.
Qed.

Lemma table_header_flushes_pending_witness :
  comments (onTable (trim (lit "Table users {")) afterComment)
  = comments afterComment ++ [flushedRecord afterComment (lit "users")]
  /\ comments (extractStep afterComment (lit "Table users {") [lit "}"])
     = comments afterComment ++ [flushedRecord afterComment (lit "users")]
  /\ pendingComments (extractStep afterComment (lit "Table users {") [lit "}"])
     = []
  /\ foundFirstDefinition
       (extractStep afterComment (lit "Table users {") [lit "}"]) = true
  /\ extractLoop afterComment [lit "Table users {"; lit "}"]
     = extractLoop (extractStep afterComment (lit "Table users {") [lit "}"])
         [lit "}"]
  /\ exists more,
       extractFinish (extractLoop afterComment [lit "Table users {"; lit "}"])
       = comments afterComment
           ++ flushedRecord afterComment (lit "users") :: more.
Proof.
  apply (table_header_flushes_pending afterComment (lit "Table users {")
           [lit "}"] None (lit "users")).
  - reflexivity.
  - vm_compute. reflexivity.
  - discriminate.
Defined.

(** ** Comments without an anchor in the regenerated text *)

Lemma stripPrefix_app (p s : str) : stripPrefix p (p ++ s) = Some s.
Proof.
  induction p as [|a p IH]; [reflexivity|].
  simpl. now rewrite N.eqb_refl.
Qed.

Lemma inlineKey_clash (c : DBMLComment) (tbl fld name fieldName : str) :
  ctype c = inline -> commentTable c = Some tbl ->
  commentField c = Some fld -> inlineKeyClash name c = false ->
  inlineKey tbl fld <> inlineKey name fieldName.
Proof.
  unfold inlineKeyClash. intros -> -> -> H E. rewrite E in H.
  unfold inlineKey in H.
  change (name ++ DOT :: fieldName) with (name ++ [DOT] ++ fieldName) in H.
  now rewrite app_assoc, stripPrefix_app in H.
Qed.

Lemma pushTo_other (key name txt : str)
  (m : gmap (list N) (list (list N))) :
  key <> name -> pushTo key txt m !! name = m !! name.
Proof. intros H. unfold pushTo. now rewrite lookup_insert_ne. Qed.

(** A record that is not anchored to [name] leaves the entries of
    [name] as they are. *)
Lemma addComment_other (m : CommentMaps) (c : DBMLComment) (name : str) :
  anchoredAt name c = false -> inlineKeyClash name c = false ->
  tableComments (addComment m c) !! name = tableComments m !! name
  /\ fieldComments (addComment m c) !! name = fieldComments m !! name
  /\ forall fieldName,
       inlineFieldComments (addComment m c) !! inlineKey name fieldName
       = inlineFieldComments m !! inlineKey name fieldName.
Proof.
  intros Ha Hk. unfold addComment.
  destruct (ctype c) eqn:Ety;
    destruct (commentTable c) as [tbl|] eqn:Et; try (now repeat split);
    simpl.
  - pose proof (commentTable_anchored _ _ _ Et Ha).
    repeat split. now apply pushTo_other.
  - pose proof (commentTable_anchored _ _ _ Et Ha).
    repeat split. now apply pushTo_other.
  - destruct (commentField c) as [fld|] eqn:Ef; [|now repeat split].
    simpl. repeat split. intros fieldName.
    apply lookup_insert_ne.
    now apply (inlineKey_clash c).
Qed.

Lemma buildMaps_clear (names : list str) (cs : list DBMLComment) :
  unanchored names cs = true -> inlineKeysClear names cs = true ->
  forall m : CommentMaps,
    (forall name, In name names -> mapsClear m name) ->
    forall name, In name names ->
      mapsClear (List.fold_left addComment cs m) name.
Proof.
  unfold unanchored, inlineKeysClear.
  induction cs as [|c cs IH]; intros Hu Hk m Hm; [exact Hm|].
  simpl in Hu, Hk. apply andb_prop in Hu as [Hu Hus].
  apply andb_prop in Hk as [Hk Hks].
  simpl. apply (IH Hus Hks). intros name Hin.
  rewrite forallb_forall in Hu, Hk.
  destruct (addComment_other m c name) as (H1 & H2 & H3).
  - apply negb_true_iff, Hu, Hin.
  - apply negb_true_iff, Hk, Hin.
  - destruct (Hm name Hin) as (M1 & M2 & M3).
    repeat split; [congruence | congruence |].
    intros fieldName. now rewrite H3.
Qed.

(** With nothing stored for the names, a step emits the line alone. *)
Lemma mergeStep_plain (m : CommentMaps) (names : list str)
  (st : MergeState) (line : str) :
  (forall name, In name names -> mapsClear m name) ->
  (forall schema name,
      matchTable (trim line) = Some (schema, name) -> In name names) ->
  mergeInv names st ->
  result (mergeStep m st line) = result st ++ [line]
  /\ mergeInv names (mergeStep m st line).
Proof.
  intros Hm Hline Hinv. unfold mergeStep.
  set (st0 := mergeOnTable m (trim line) st).
  assert (H0 : result st0 = result st /\ mergeInv names st0).
  { unfold st0, mergeOnTable.
    destruct (matchTable (trim line)) as [[schema name]|] eqn:Et;
      [|now split].
    pose proof (Hline _ _ eq_refl) as Hn.
    destruct (Hm name Hn) as (-> & _ & _).
    simpl. rewrite app_nil_r. split; [reflexivity|].
    unfold mergeInv. simpl. exact Hn. }
  clearbody st0. destruct H0 as [Hr0 Hi0].
  set (st1 := mergeOnBody m st0).
  assert (H1 : result st1 = result st /\ mergeInv names st1).
  { unfold st1, mergeOnBody.
    destruct (truthy (mCurrentTable st0)) as [tbl|] eqn:Et; [|now split].
    destruct (_ && _); [|now split].
    apply truthy_some in Et. unfold mergeInv in Hi0 |- *.
    rewrite Et in Hi0. destruct (Hm tbl Hi0) as (_ & -> & _).
    simpl. rewrite app_nil_r, Et. now split. }
  clearbody st1. destruct H1 as [Hr1 Hi1].
  assert (Hl : mergeLine m line (trim line) st1 = line).
  { unfold mergeLine.
    destruct (truthy (mCurrentTable st1)) as [tbl|] eqn:Et; [|reflexivity].
    destruct (matchField (trim line)) as [fieldName|]; [|reflexivity].
    destruct (mInTableBlock st1); [|reflexivity].
    apply truthy_some in Et. unfold mergeInv in Hi1. rewrite Et in Hi1.
    destruct (Hm tbl Hi1) as (_ & _ & ->). reflexivity. }
  rewrite Hl. unfold mergeEmit.
  destruct (_ && _); simpl; rewrite Hr1; (split; [reflexivity|]).
  - exact I.
  - exact Hi1.
Qed.

Lemma mergeLoop_plain (m : CommentMaps) (names : list str)
  (lines : list str) :
  (forall name, In name names -> mapsClear m name) ->
  (forall line schema name,
      In line lines ->
      matchTable (trim line) = Some (schema, name) -> In name names) ->
  forall st : MergeState,
    mergeInv names st ->
    result (List.fold_left (mergeStep m) lines st) = result st ++ lines.
Proof.
  intros Hm. induction lines as [|line lines IH]; intros Hlines st Hinv.
  - simpl. now rewrite app_nil_r.
  - simpl.
    destruct (mergeStep_plain m names st line Hm) as [Hr Hi];
      [intros schema name; apply Hlines; now left | exact Hinv |].
    rewrite IH; [|intros l schema name Hl; apply Hlines; now right|exact Hi].
    rewrite Hr, <- app_assoc. reflexivity.
Qed.

Lemma tableNamesOf_line (dbml line : str) (schema : option str) (name : str) :
  In line (split dbml) ->
  matchTable (trim line) = Some (schema, name) ->
  In name (tableNamesOf dbml).
Proof.
  intros Hl Hm. unfold tableNamesOf. apply in_flat_map.
  exists line. split; [exact Hl|]. rewrite Hm. now left.
Qed.

Lemma filter_none {A : Type} (f g : A -> bool) (l : list A) :
  forallb g l = true -> (forall x, g x = true -> f x = false) ->
  List.filter f l = [].
Proof.
  intros Hl Hfg. induction l as [|x l IH]; [reflexivity|].
  simpl in *. apply andb_prop in Hl as [Hx Hl].
  rewrite (Hfg x Hx). now apply IH.
Qed.

(** The comment is anchored to table a, the text only has table a.b,
    and yet field c of a.b gets the comment: both keys read a.b.c. *)
Lemma inline_key_collision :
  noHeaderFooter dottedComment = true
  /\ unanchored (tableNamesOf dottedTable) dottedComment = true
  /\ mergeComments dottedTable dottedComment
     = lit "Table " ++ quote (lit "a.b") ++ lit " {" ++ [LF]
         ++ lit "  " ++ quote (lit "c") ++ lit " int // x" ++ [LF] ++ lit "}"
  /\ mergeComments dottedTable dottedComment <> dottedTable.
Proof.
  repeat split; try (vm_compute; reflexivity).
  vm_compute. discriminate.
Qed.

(** C10 (amended): when the comment list has no header and no footer
    record, no record is anchored to a table name parsed from a table
    header line of the regenerated text, and no inline record has a key
    (table, dot, field) that starts with such a name and a dot, then
    [mergeComments] returns the regenerated text unchanged. *)
Theorem mergeComments_unanchored (regeneratedDbml : str)
  (cs : list DBMLComment) :
  noHeaderFooter cs = true ->
  unanchored (tableNamesOf regeneratedDbml) cs = true ->
  inlineKeysClear (tableNamesOf regeneratedDbml) cs = true ->
  mergeComments regeneratedDbml cs = regeneratedDbml.
Proof.
  intros Hhf Hu Hk. unfold mergeComments.
  destruct cs as [|c0 cs0] eqn:Ecs; [reflexivity|]. rewrite <- Ecs in *.
  clear Ecs c0 cs0.
  assert (Hh : List.filter (isType header) cs = []).
  { apply (filter_none _ _ _ Hhf). intros x Hx.
    apply andb_prop in Hx as [Hx _]. now apply negb_true_iff in Hx. }
  assert (Hf : List.filter (isType footer) cs = []).
  { apply (filter_none _ _ _ Hhf). intros x Hx.
    apply andb_prop in Hx as [_ Hx]. now apply negb_true_iff in Hx. }
  rewrite Hh, Hf. simpl.
  rewrite (mergeLoop_plain (buildMaps cs) (tableNamesOf regeneratedDbml)).
  - simpl. rewrite app_nil_r. apply join_split.
  - apply (buildMaps_clear _ _ Hu Hk).
    intros name _. repeat split; apply lookup_empty.
  - intros line schema name. apply tableNamesOf_line.
  - exact I.
Qed.

Lemma mergeComments_unanchored_witness :
  mergeComments scenario ordersComments = scenario.
Proof.
  apply (mergeComments_unanchored scenario ordersComments);
    vm_compute; reflexivity.
Defined.
(** * Further properties of the functions *)

(** ** extractTableOrder *)

Lemma fold_left_flat_map {A B : Type} (f : A -> list B) (g : list B -> A -> list B)
  (l : list A) :
  (forall acc x, g acc x = acc ++ f x) ->
  forall init, List.fold_left g l init = init ++ flat_map f l.
Proof.
  intros Hg. induction l as [|x l IH]; intros init; simpl.
  - now rewrite app_nil_r.
  - now rewrite IH, Hg, <- app_assoc.
Qed.

(** The order is collected line by line. *)
Lemma extractTableOrder_lines (dbml : str) :
  extractTableOrder dbml = flat_map orderEntry (split dbml).
Proof.
  unfold extractTableOrder.
  rewrite (fold_left_flat_map orderEntry); [reflexivity|].
  intros acc line. unfold orderEntry.
  destruct (matchTable (trim line)) as [[schema name]|];
    [reflexivity | now rewrite app_nil_r].
Qed.

Lemma split_app (a b : str) : split (a ++ LF :: b) = split a ++ split b.
Proof.
  induction a as [|c a IH]; [reflexivity|].
  simpl. destruct (c =? LF); [now rewrite IH|].
  rewrite IH. pose proof (split_nonempty a).
  now destruct (split a).
Qed.

(** X1: the order of two texts put one after the other, with a newline
    between them, is the order of the first followed by the order of the
    second: no line looks at another. *)
Theorem extractTableOrder_app (a b : str) :
  extractTableOrder (a ++ LF :: b)
  = extractTableOrder a ++ extractTableOrder b.
Proof.
  rewrite !extractTableOrder_lines, split_app. apply flat_map_app.
Qed.

(** The schema of a match is missing or not empty. *)
Lemma matchTable_schema (t : str) (schema : option str) (name : str) :
  matchTable t = Some (schema, name) -> nameOK schema = true.
Proof.
  rewrite matchTable_scan. unfold scanTable.
  destruct (stripPrefixCI _ t) as [[|c r]|]; try discriminate.
  destruct (isSpace c); [|discriminate].
  destruct (quoted (dropWhile isSpace r)) as [[x rest]|] eqn:Eq.
  - apply quoted_name in Eq.
    destruct rest as [|d r2]; [now intros [= <- _]|].
    destruct (d =? DOT); [|now intros [= <- _]].
    destruct (nameTok r2) as [n|]; intros [= <- _]; [|reflexivity].
    now destruct x.
  - destruct (wordTok _); [|discriminate]. now intros [= <- _].
Qed.

(** X2: every entry of the extracted order has a table name that is not
    empty, and a schema name that is missing or not empty. *)
Theorem extractTableOrder_names (dbml : str) :
  forallb (fun e => nameOK (Some (tableName e)) && nameOK (schemaName e))
    (extractTableOrder dbml) = true.
Proof.
  rewrite extractTableOrder_lines. apply forallb_forall.
  intros e He. apply in_flat_map in He as (line & _ & He).
  unfold orderEntry in He.
  destruct (matchTable (trim line)) as [[schema name]|] eqn:Em;
    [|contradiction].
  destruct He as [<-|[]]. simpl.
  rewrite (matchTable_schema _ _ _ Em).
  apply matchTable_name in Em. now destruct name.
Qed.

(** ** The order lookup, key by key *)

(** X3: a key is missing from the order lookup exactly when no entry of
    the original order has it as table name or as schema-qualified key;
    an index the lookup gives is the position of an entry that has the
    key, and of the last such entry. *)
Theorem orderMap_lookup (originalOrder : list DBMLTableOrder) (k : list N) :
  (orderMap originalOrder !! k = None
   <-> Forall (fun e => ~ writesKey k e) originalOrder)
  /\ forall i : nat,
       orderMap originalOrder !! k = Some i ->
       exists e,
         originalOrder !! i = Some e /\ writesKey k e
         /\ Forall (fun e' => ~ writesKey k e') (drop (S i) originalOrder).
Proof.
  unfold orderMap. split; [split|].
  - intros H. now apply buildOrderFrom_none in H.
  - intros H. rewrite buildOrderFrom_untouched; [apply lookup_empty|].
    eapply Forall_impl; [exact H|]. unfold writesKey. intros e He. tauto.
  - intros i H.
    apply buildOrderFrom_some in H as [[H _]|(j & e & -> & Hj & He & Hl)].
    + now rewrite lookup_empty in H.
    + now exists e.
Qed.

(** ** Tables the lookup does not know *)

Lemma filter_all {A : Type} (f : A -> bool) (l : list A) :
  forallb f l = true -> List.filter f l = l.
Proof.
  induction l as [|x l IH]; [reflexivity|].
  simpl. intros H. apply andb_prop in H as [-> H]. now rewrite IH.
Qed.

Lemma forallb_perm {A : Type} (f : A -> bool) (l l' : list A) :
  Permutation l l' -> forallb f l = true -> forallb f l' = true.
Proof.
  intros Hp H. apply forallb_forall. intros x Hx.
  rewrite forallb_forall in H. apply H.
  apply (Permutation_in x (Permutation_sym Hp) Hx).
Qed.

(** X4: when the lookup knows none of the table blocks, the sort
    leaves them in the order of the regenerated text. *)
Theorem sortedTableBlocks_unmatched (bs : list DBMLBlock)
  (originalOrder : list DBMLTableOrder) :
  forallb (fun b => negb (isMatched (blockOrder (orderMap originalOrder)) b))
    (List.filter (isBlockType bTable) bs) = true ->
  sortedTableBlocks bs originalOrder = List.filter (isBlockType bTable) bs.
Proof.
  intros H. unfold sortedTableBlocks.
  set (key := blockOrder (orderMap originalOrder)) in *.
  set (tables := List.filter (isBlockType bTable) bs) in *.
  rewrite <- (filter_all (fun b => negb (isMatched key b))
                (sortBy key tables)).
  - rewrite sortBy_unmatched. now apply filter_all.
  - apply (forallb_perm _ tables); [|exact H].
    apply Permutation_sym, sortBy_perm.
Qed.

Lemma sortedTableBlocks_unmatched_witness :
  sortedTableBlocks (parseDBMLIntoBlocks twoTables) []
  = List.filter (isBlockType bTable) (parseDBMLIntoBlocks twoTables).
Proof.
  apply (sortedTableBlocks_unmatched (parseDBMLIntoBlocks twoTables) []).
  vm_compute. reflexivity.
Defined.

(** ** The cleanup of blank lines, again *)

Lemma collapse_fixed (s : str) :
  (forall a b, s = a ++ b -> matchBlank b = None) ->
  collapseBlankLines s = s.
Proof.
  induction s as [|c s IH]; intros H; [reflexivity|].
  rewrite collapse_cons, (H [] (c :: s) eq_refl). f_equal.
  apply IH. intros a b ->. now apply (H (c :: a) b).
Qed.

(** X5: cleaning up the blank lines a second time changes nothing. *)
Theorem collapseBlankLines_idempotent (s : str) :
  collapseBlankLines (collapseBlankLines s) = collapseBlankLines s.
Proof. apply collapse_fixed, collapse_no_match. Qed.

Lemma skipRun_suffix (s : str) :
  exists w, s = w ++ skipRun s /\ forallb isSpace w = true.
Proof.
  induction s as [|c s (w & IH & Hw)]; [now exists []|].
  simpl. destruct (isSpace c) eqn:Ec; [|now exists []].
  destruct (lfRun s).
  - destruct (c =? LF); [|now exists []].
    exists [c]. simpl. now rewrite Ec.
  - exists (c :: w). simpl. now rewrite <- IH, Ec.
Qed.

Lemma filter_ink_space (w s : str) :
  forallb isSpace w = true ->
  List.filter isInk (w ++ s) = List.filter isInk s.
Proof.
  induction w as [|c w IH]; [reflexivity|].
  simpl. intros H. apply andb_prop in H as [Hc Hw].
  unfold isInk at 1. rewrite Hc. now apply IH.
Qed.

(** What the cleanup removes is whitespace. *)
Lemma collapse_ink (s : str) :
  List.filter isInk (collapseBlankLines s) = List.filter isInk s.
Proof.
  remember (List.length s) as n eqn:Hn.
  revert s Hn. induction n as [n IH] using lt_wf_ind. intros s Hn.
  destruct s as [|c r]; [reflexivity|].
  rewrite collapse_cons.
  destruct (matchBlank (c :: r)) as [rest|] eqn:Em.
  - pose proof (matchBlank_shorter _ _ Em) as Hlt.
    rewrite matchBlank_spec in Em.
    destruct (c =? LF) eqn:El; [|discriminate].
    destruct (2 <=? lfRun r)%nat; [|discriminate].
    injection Em as <-.
    destruct (skipRun_suffix r) as (w & Hr & Hw).
    cbn [List.filter]. change (isInk LF) with false. cbv iota.
    rewrite (IH (List.length (skipRun r)) ltac:(subst n; exact Hlt)
               (skipRun r) eq_refl).
    unfold isInk at 2. rewrite (isSpace_LF _ El). cbn [negb].
    rewrite Hr at 2. now rewrite filter_ink_space.
  - cbn [List.filter].
    now rewrite (IH (List.length r) ltac:(subst n; simpl; lia) r eq_refl).
Qed.

Lemma skipRun_shorter (r : str) (k : nat) :
  (k <= lfRun r)%nat -> (k + List.length (skipRun r) <= List.length r)%nat.
Proof.
  revert k. induction r as [|c r IHr]; intros k Hk; simpl in *; [lia|].
  destruct (isSpace c); [|simpl; lia].
  destruct (lfRun r) eqn:Er.
  - destruct (c =? LF); simpl in *; lia.
  - destruct (c =? LF); simpl in Hk.
    + specialize (IHr (k - 1)%nat ltac:(lia)). lia.
    + specialize (IHr k ltac:(lia)). lia.
Qed.

Lemma collapse_length (s : str) :
  (List.length (collapseBlankLines s) <= List.length s)%nat.
Proof.
  assert (H : forall n s,
             (List.length s <= n)%nat ->
             (List.length (collapseBlankLines s) <= List.length s)%nat).
  { clear s. induction n as [|n IH]; intros s Hs.
    - destruct s; [reflexivity | simpl in Hs; lia].
    - destruct s as [|c r]; [reflexivity|].
      rewrite collapse_cons. simpl in Hs.
      destruct (matchBlank (c :: r)) as [rest|] eqn:Em.
      + rewrite matchBlank_spec in Em.
        destruct (c =? LF); [|discriminate].
        destruct (2 <=? lfRun r)%nat eqn:E2; [|discriminate].
        injection Em as <-. apply Nat.leb_le in E2.
        pose proof (skipRun_shorter r 2 E2).
        pose proof (IH (skipRun r) ltac:(lia)). simpl. lia.
      + pose proof (IH r ltac:(lia)). simpl. lia. }
  now apply (H (List.length s)).
Qed.

Lemma reorderDBML_ink_reassemble (regeneratedDbml : str)
  (originalOrder : list DBMLTableOrder) :
  List.filter isInk (reorderDBML regeneratedDbml originalOrder)
  = List.filter isInk (reassemble regeneratedDbml originalOrder).
Proof.
  unfold reorderDBML, ensureNewline.
  destruct (endsWithLF _); [apply collapse_ink|].
  rewrite List.filter_app. simpl. rewrite app_nil_r. apply collapse_ink.
Qed.

(** X6: the cleanup and the final newline only touch whitespace: the
    returned text has the characters that are not whitespace of the
    reassembled text, in the same order, and the cleanup never makes the
    text longer. *)
Theorem reorderDBML_ink (regeneratedDbml : str)
  (originalOrder : list DBMLTableOrder) :
  List.filter isInk (reorderDBML regeneratedDbml originalOrder)
  = List.filter isInk (reassemble regeneratedDbml originalOrder)
  /\ (List.length (collapseBlankLines
                     (reassemble regeneratedDbml originalOrder))
      <= List.length (reassemble regeneratedDbml originalOrder))%nat.
Proof.
  split; [apply reorderDBML_ink_reassemble | apply collapse_length].
Qed.

(** ** parseDBMLIntoBlocks *)

Lemma split_noLF (s : str) : forallb noLF (split s) = true.
Proof.
  induction s as [|c s IH]; [reflexivity|].
  simpl. destruct (c =? LF) eqn:E; [exact IH|].
  destruct (split s) as [|l ls]; simpl in *; now rewrite ?E.
Qed.

Lemma split_line (line : str) : noLF line = true -> split line = [line].
Proof.
  induction line as [|c line IH]; [reflexivity|].
  simpl. intros H. apply andb_prop in H as [Hc H].
  apply negb_true_iff in Hc. now rewrite Hc, (IH H).
Qed.

Lemma split_app_line (line rest : str) :
  noLF line = true -> split (line ++ LF :: rest) = line :: split rest.
Proof. intros H. now rewrite split_app, (split_line _ H). Qed.

(** Splitting the joined lines gives the lines back. *)
Lemma split_join (line : str) (more : list str) :
  forallb noLF (line :: more) = true ->
  split (join (line :: more)) = line :: more.
Proof.
  revert line. induction more as [|l more IH]; intros line H.
  - simpl in *. apply andb_prop in H as [H _]. now apply split_line.
  - change (join (line :: l :: more)) with (line ++ LF :: join (l :: more)).
    cbn [forallb] in H. apply andb_prop in H as [H1 H2].
    now rewrite (split_app_line _ _ H1), (IH l H2).
Qed.

(** The block checks of one line: no check fires, or a block of some
    type is open and empty, the one before it flushed. *)
Lemma startsAt_spec (line : str) (st : ParseState) :
  let t := trim line in
  (startsBlock bTable line = false /\ startsAt t st = st)
  \/ (blocks (startsAt t st) = blocks (flushBlock st)
      /\ currentBlock (startsAt t st) = []
      /\ pBraceDepth (startsAt t st) = pBraceDepth st
      /\ exists k,
           currentType (startsAt t st) = Some k
           /\ startsBlock k line = true
           /\ match k with
              | bTable =>
                  exists schema name,
                    matchTable t = Some (schema, name)
                    /\ currentTableName (startsAt t st) = Some name
                    /\ currentSchemaName (startsAt t st) = schema
              | bOther => False
              | _ =>
                  currentTableName (startsAt t st) = None
                  /\ currentSchemaName (startsAt t st) = None
              end).
Proof.
  intros t. subst t. unfold startsAt, startRef, startEnum, startTable.
  unfold startsBlock.
  destruct (matchTable (trim line)) as [[schema name]|] eqn:Et;
    destruct (matchEnum (trim line)) eqn:Ee;
    destruct (matchRef (trim line)) eqn:Er; simpl;
    try (left; split; reflexivity); right;
    (split; [reflexivity|]); (split; [reflexivity|]);
    (split; [reflexivity|]).
  - exists bRef. now repeat split.
  - exists bEnum. now repeat split.
  - exists bRef. now repeat split.
  - exists bTable. repeat split. now exists schema, name.
  - exists bRef. now repeat split.
  - exists bEnum. now repeat split.
  - exists bRef. now repeat split.
Qed.

Lemma blocksInv_snoc (all : list str) (bs : list DBMLBlock) (b : DBMLBlock) :
  blocksInv all bs ->
  blockOK b = true -> blockHeaded b = true ->
  (btype b = bTable -> In (blockEntry b) (flat_map orderEntry all)) ->
  blocksInv all (bs ++ [b]).
Proof.
  intros (H1 & H2 & H3) Hb1 Hb2 Hb3. repeat split.
  - now apply forallb_snoc.
  - now apply forallb_snoc.
  - apply Forall_app. split; [exact H3 | now constructor].
Qed.

Lemma flushBlock_inv (all : list str) (st : ParseState) :
  parseInv all st -> parseInv all (flushBlock st).
Proof.
  intros (Hb & Hlf & Hcur). unfold parseInv, flushBlock. simpl.
  split; [|now repeat split].
  destruct (currentType st) as [k|]; [|now destruct (currentBlock st)].
  destruct Hcur as [(line & more & Hcb & Hstart) Hk]. rewrite Hcb in *.
  apply blocksInv_snoc; [exact Hb | | |].
  - unfold blockOK. simpl. destruct k; try tauto.
    + destruct Hk as [-> ->]. reflexivity.
    + destruct Hk as (-> & -> & _). reflexivity.
    + destruct Hk as [-> ->]. reflexivity.
  - unfold blockHeaded. cbn [content btype].
    rewrite (split_join _ _ Hlf), Hstart. now destruct k.
  - cbn [btype]. intros ->. now destruct Hk as (_ & _ & Hk).
Qed.

Lemma orderEntry_in (all : list str) (line : str) (schema : option str)
  (name : str) :
  In line all -> matchTable (trim line) = Some (schema, name) ->
  In (mkOrder name schema) (flat_map orderEntry all).
Proof.
  intros Hl Hm. apply in_flat_map. exists line. split; [exact Hl|].
  unfold orderEntry. rewrite Hm. now left.
Qed.

(** The state after the checks and after the line is added. *)
Lemma addLine_inv (all : list str) (st : ParseState) (line : str) :
  noLF line = true -> In line all ->
  parseInv all st ->
  parseInv all
    (addLine line (trim line)
       (if (pBraceDepth st =? 0)%Z then startsAt (trim line) st else st)).
Proof.
  intros Hlf Hin Hinv.
  assert (Hkeep : parseInv all (addLine line (trim line) st)).
  { destruct Hinv as (Hb & Hl & Hcur). unfold addLine.
    destruct (currentType st) as [k|] eqn:Ek.
    - unfold parseInv. simpl. rewrite ?Ek.
      destruct Hcur as [(l0 & more & Hcb & Hstart) Hk].
      split; [exact Hb|]. split; [now apply forallb_snoc|].
      split; [|exact Hk]. rewrite Hcb. now exists l0, (more ++ [line]).
    - destruct (trim line) as [|c t']; [destruct (blocks st) eqn:Eb|].
      + unfold parseInv. now rewrite Ek, Eb in *.
      + unfold parseInv. simpl. rewrite ?Ek. split; [|now split].
        apply (blocksInv_snoc all (d :: l));
          [exact Hb | reflexivity | reflexivity | discriminate].
      + unfold parseInv. simpl. rewrite ?Ek. split; [|now split].
        apply blocksInv_snoc; [exact Hb | reflexivity | |discriminate].
        unfold blockHeaded. simpl. now rewrite (split_line _ Hlf). }
  destruct (pBraceDepth st =? 0)%Z; [|exact Hkeep].
  destruct (startsAt_spec line st)
    as [[_ ->]|(Hbl & Hcb & _ & k & Hty & Hstart & Hk)];
    [exact Hkeep|].
  apply flushBlock_inv in Hinv. destruct Hinv as (Hb & _ & _).
  unfold addLine. rewrite Hty. unfold parseInv.
  cbn [blocks currentBlock currentType currentTableName
         currentSchemaName].
  rewrite ?Hty, Hbl, Hcb. simpl. rewrite Hlf.
  split; [exact Hb|]. split; [reflexivity|].
  split; [now exists line, []|].
  destruct k; try exact Hk.
  destruct Hk as (schema & name & Hm & -> & ->).
  split; [apply hasName_some; eapply matchTable_name, Hm|].
  split; [eapply matchTable_schema, Hm|].
  simpl. now apply (orderEntry_in all line).
Qed.

(** One line keeps what holds of the state. *)
Lemma parseStep_inv (all : list str) (st : ParseState) (line : str) :
  noLF line = true -> In line all ->
  parseInv all st -> parseInv all (parseStep st line).
Proof.
  intros Hlf Hin Hinv. unfold parseStep. cbv zeta.
  fold (startsAt (trim line) st).
  pose proof (addLine_inv all st line Hlf Hin Hinv) as H1.
  unfold closeLine.
  set (st2 := addLine line (trim line) _) in *.
  set (depth := (pBraceDepth st2 + _)%Z).
  assert (H2 : parseInv all
                 (mkParse (blocks st2) (currentBlock st2) (currentType st2)
                    (currentTableName st2) (currentSchemaName st2) depth))
    by exact H1.
  destruct (currentType st2); [|exact H2].
  destruct (_ && _); [now apply flushBlock_inv | exact H2].
Qed.

Lemma parseLoop_inv (all lines : list str) :
  forallb noLF lines = true -> (forall l, In l lines -> In l all) ->
  forall st : ParseState,
    parseInv all st ->
    parseInv all (List.fold_left parseStep lines st).
Proof.
  induction lines as [|line lines IH]; intros Hlf Hin st Hinv; [exact Hinv|].
  simpl in *. apply andb_prop in Hlf as [Hl Hlf].
  apply IH; [exact Hlf | intros l Hl'; apply Hin; now right |].
  apply parseStep_inv; [exact Hl | apply Hin; now left | exact Hinv].
Qed.

Lemma parseDBMLIntoBlocks_inv (dbml : str) :
  blocksInv (split dbml) (parseDBMLIntoBlocks dbml).
Proof.
  unfold parseDBMLIntoBlocks.
  assert (H : parseInv (split dbml)
                (flushBlock
                   (List.fold_left parseStep (split dbml)
                      (mkParse [] [] None None None 0)))).
  { apply flushBlock_inv, parseLoop_inv;
      [apply split_noLF | auto |].
    unfold parseInv, blocksInv. simpl. repeat split. constructor. }
  apply H.
Qed.

(** X7: a table block carries a table name that is not empty and a
    schema name that is missing or not empty; an enum, ref or other
    block carries neither. *)
Theorem parseDBMLIntoBlocks_names (dbml : str) :
  forallb blockOK (parseDBMLIntoBlocks dbml) = true.
Proof. apply (parseDBMLIntoBlocks_inv dbml). Qed.

(** X8: the content of every block starts with the line that opened it:
    its first line matches the pattern of the type of the block, and a
    block of type other is one line. *)
Theorem parseDBMLIntoBlocks_headed (dbml : str) :
  forallb blockHeaded (parseDBMLIntoBlocks dbml) = true.
Proof. apply (parseDBMLIntoBlocks_inv dbml). Qed.

Lemma hasName_default (x : option str) :
  hasName x = true -> x = Some (default [] x) /\ default [] x <> [].
Proof. destruct x as [[|c r]|]; try discriminate. now split. Qed.

(** X9: every table block of a text stands for an entry of the order
    extracted from the same text, and the lookup built from that order
    knows it: reordering a text by its own order leaves no table
    unmatched. *)
Theorem own_order_matches (dbml : str) (b : DBMLBlock) :
  In b (parseDBMLIntoBlocks dbml) -> isBlockType bTable b = true ->
  In (blockEntry b) (extractTableOrder dbml)
  /\ isMatched (blockOrder (orderMap (extractTableOrder dbml))) b = true.
Proof.
  intros Hb Hty.
  assert (Ht : btype b = bTable)
    by (unfold isBlockType in Hty; now destruct (btype b)).
  destruct (parseDBMLIntoBlocks_inv dbml) as (Hok & _ & Hin).
  rewrite Forall_forall in Hin.
  assert (He : In (blockEntry b) (extractTableOrder dbml)).
  { rewrite extractTableOrder_lines. apply Hin; [|exact Ht].
    now apply list_elem_of_In. }
  split; [exact He|].
  rewrite forallb_forall in Hok. specialize (Hok b Hb).
  unfold blockOK in Hok. rewrite Ht in Hok.
  apply andb_prop in Hok as [Hname _].
  destruct (hasName_default _ Hname) as [Hn Hne].
  set (order := extractTableOrder dbml) in *.
  destruct (orderMap order !! default [] (bTableName b)) as [i|] eqn:Ei.
  - unfold isMatched, blockOrder.
    destruct (orderMap order !! blockKey b); [reflexivity|].
    rewrite Hn. rewrite (truthy_name _ Hne). simpl. now rewrite Ei.
  - exfalso. unfold orderMap in Ei.
    apply buildOrderFrom_none in Ei as [_ Ei].
    rewrite Forall_forall in Ei.
    apply (Ei (blockEntry b)); [now apply list_elem_of_In|].
    now left.
Qed.

Lemma own_order_matches_witness :
  In (blockEntry (mkBlock bTable (tableText "a") (Some (lit "a")) None))
    (extractTableOrder twoTables)
  /\ isMatched (blockOrder (orderMap (extractTableOrder twoTables)))
       (mkBlock bTable (tableText "a") (Some (lit "a")) None)
     = true.
Proof.
  apply (own_order_matches twoTables).
  - vm_compute. right. now left.
  - reflexivity.
Defined.

(** ** No line is lost *)

Lemma isBlank_header (k : BlockType) (line : str) :
  k <> bOther -> startsBlock k line = true -> isBlank line = false.
Proof.
  unfold startsBlock, isBlank. intros Hk.
  destruct (trim line); [|reflexivity].
  destruct k; try discriminate. congruence.
Qed.

Lemma dropBlank_snoc (done : list str) (line : str) :
  dropBlank done <> [] \/ isBlank line = false ->
  dropBlank (done ++ [line]) = dropBlank done ++ [line].
Proof.
  induction done as [|l done IH]; simpl.
  - intros [H|H]; [congruence | now rewrite H].
  - destruct (isBlank l); [exact IH | reflexivity].
Qed.

Lemma dropBlank_snoc_blank (done : list str) (line : str) :
  dropBlank done = [] -> isBlank line = true ->
  dropBlank (done ++ [line]) = [].
Proof.
  induction done as [|l done IH]; simpl.
  - intros _ H. now rewrite H.
  - destruct (isBlank l); [exact IH | discriminate].
Qed.

Lemma Forall2_nonempty {A B : Type} (R : A -> B -> Prop) (l : list A)
  (l' : list B) :
  Forall2 R l l' -> l' <> [] -> l <> [].
Proof. intros H. destruct H; congruence. Qed.

Lemma blockLines_snoc (bs : list DBMLBlock) (b : DBMLBlock) :
  blockLines (bs ++ [b]) = blockLines bs ++ split (content b).
Proof. unfold blockLines. rewrite flat_map_app. simpl. now rewrite app_nil_r. Qed.

Lemma blockLines_nonempty (bs : list DBMLBlock) :
  bs <> [] -> blockLines bs <> [].
Proof.
  destruct bs as [|b bs]; [congruence|]. intros _. unfold blockLines.
  simpl. pose proof (split_nonempty (content b)).
  destruct (split (content b)); [congruence | discriminate].
Qed.

(** Flushing moves the lines of the open block to the blocks. *)
Lemma outLines_flush (all : list str) (st : ParseState) :
  parseInv all st -> outLines (flushBlock st) = outLines st.
Proof.
  intros (_ & Hlf & Hcur). unfold outLines, flushBlock. simpl.
  rewrite app_nil_r.
  destruct (currentType st) as [k|].
  - destruct Hcur as [(line & more & Hcb & _) _]. rewrite Hcb in *.
    rewrite blockLines_snoc. cbn [content].
    now rewrite (split_join _ _ Hlf).
  - destruct Hcur as (-> & _). now rewrite app_nil_r.
Qed.

(** One line more, read and kept. *)
Lemma parseStep_lines (all done : list str) (st : ParseState) (line : str) :
  noLF line = true -> In line all ->
  parseInv all st ->
  Forall2 keptLine (dropBlank done) (outLines st) ->
  Forall2 keptLine (dropBlank (done ++ [line])) (outLines (parseStep st line)).
Proof.
  intros Hlf Hin Hinv Hdone.
  pose proof (addLine_inv all st line Hlf Hin Hinv) as Hmid.
  unfold parseStep. cbv zeta. fold (startsAt (trim line) st).
  set (st1 := if (pBraceDepth st =? 0)%Z then startsAt (trim line) st
              else st) in *.
  assert (Hadd : Forall2 keptLine (dropBlank (done ++ [line]))
                   (outLines (addLine line (trim line) st1))).
  { assert (Hsame : forall s1,
               outLines s1 = outLines st ->
               (currentType s1 = None -> currentBlock s1 = []) ->
               (forall k, currentType s1 = Some k ->
                          currentBlock s1 <> []
                          \/ (k <> bOther /\ startsBlock k line = true)) ->
               Forall2 keptLine (dropBlank (done ++ [line]))
                 (outLines (addLine line (trim line) s1))).
    { intros s1 Hout Hnone Hsome. unfold addLine.
      destruct (currentType s1) as [k|] eqn:Ek.
      - unfold outLines at 1. cbn [blocks currentBlock].
        rewrite app_assoc. fold (outLines s1). rewrite Hout.
        rewrite dropBlank_snoc.
        + apply Forall2_app; [exact Hdone|].
          constructor; [now left | constructor].
        + destruct (Hsome k eq_refl) as [Hne|[Hk Hs]].
          * left. apply (Forall2_nonempty _ _ _ Hdone).
            rewrite <- Hout. unfold outLines.
            destruct (currentBlock s1); [congruence|].
            now destruct (blockLines (blocks s1)).
          * right. now apply (isBlank_header k).
      - specialize (Hnone eq_refl).
        destruct (trim line) as [|c t'] eqn:Et;
          [destruct (blocks s1) as [|b0 bs0] eqn:Eb|].
        + rewrite <- Hout in Hdone. unfold outLines in Hdone.
          rewrite Eb, Hnone in Hdone. simpl in Hdone.
          inversion Hdone as [Hd|]; subst.
          rewrite dropBlank_snoc_blank;
            [ | now symmetry | unfold isBlank; now rewrite Et].
          unfold outLines. rewrite Eb, Hnone. constructor.
        + assert (Hout' : blockLines (b0 :: bs0) = outLines st).
          { rewrite <- Hout. unfold outLines.
            now rewrite Eb, Hnone, app_nil_r. }
          unfold outLines at 1. cbn [blocks currentBlock].
          rewrite Hnone, app_nil_r.
          change (b0 :: bs0 ++ [mkBlock bOther [] None None])
            with ((b0 :: bs0) ++ [mkBlock bOther [] None None]).
          rewrite blockLines_snoc. cbn [content].
          change (split []) with [@nil char].
          rewrite dropBlank_snoc.
          * rewrite Hout'. apply Forall2_app; [exact Hdone|].
            constructor; [|constructor]. right. unfold isBlank.
            now rewrite Et.
          * left. apply (Forall2_nonempty _ _ _ Hdone). rewrite <- Hout'.
            now apply blockLines_nonempty.
        + assert (Hout' : blockLines (blocks s1) = outLines st).
          { rewrite <- Hout. unfold outLines.
            now rewrite Hnone, app_nil_r. }
          unfold outLines at 1. cbn [blocks currentBlock].
          rewrite Hnone, app_nil_r, blockLines_snoc. cbn [content].
          rewrite (split_line _ Hlf), Hout'.
          rewrite dropBlank_snoc;
            [|right; unfold isBlank; now rewrite Et].
          apply Forall2_app; [exact Hdone|].
          constructor; [now left | constructor]. }
    assert (Hst : Forall2 keptLine (dropBlank (done ++ [line]))
                    (outLines (addLine line (trim line) st))).
    { destruct Hinv as (_ & _ & Hcur). apply Hsame; [reflexivity | |].
      - intros E. rewrite E in Hcur. apply Hcur.
      - intros k E. rewrite E in Hcur.
        destruct Hcur as [(l0 & more & -> & _) _]. now left. }
    unfold st1. destruct (pBraceDepth st =? 0)%Z; [|exact Hst].
    destruct (startsAt_spec line st)
      as [[_ ->]|(Hbl & Hcb & _ & k & Hty & Hstart & Hk)];
      [exact Hst|].
    apply Hsame.
    - unfold outLines at 1. rewrite Hbl, Hcb.
      rewrite <- (outLines_flush all st Hinv). reflexivity.
    - intros E. congruence.
    - intros k' E. right. rewrite Hty in E. injection E as <-.
      split; [|exact Hstart]. now destruct k. }
  unfold closeLine.
  set (st2 := addLine line (trim line) st1) in *.
  set (depth := (pBraceDepth st2 + _)%Z).
  set (st3 := mkParse (blocks st2) (currentBlock st2) (currentType st2)
                (currentTableName st2) (currentSchemaName st2) depth).
  assert (H3 : parseInv all st3) by exact Hmid.
  assert (Hout3 : outLines st3 = outLines st2) by reflexivity.
  destruct (currentType st2); [|now rewrite Hout3].
  destruct (_ && _); [|now rewrite Hout3].
  now rewrite (outLines_flush all st3 H3), Hout3.
Qed.

Lemma parseLoop_lines (all lines : list str) :
  forallb noLF lines = true -> (forall l, In l lines -> In l all) ->
  forall (done : list str) (st : ParseState),
    parseInv all st ->
    Forall2 keptLine (dropBlank done) (outLines st) ->
    parseInv all (List.fold_left parseStep lines st)
    /\ Forall2 keptLine (dropBlank (done ++ lines))
         (outLines (List.fold_left parseStep lines st)).
Proof.
  induction lines as [|line lines IH]; intros Hlf Hin done st Hinv Hdone.
  - rewrite app_nil_r. now split.
  - simpl in Hlf. apply andb_prop in Hlf as [Hl Hlf].
    change (done ++ line :: lines) with (done ++ [line] ++ lines).
    rewrite app_assoc. simpl List.fold_left.
    apply IH; [exact Hlf | intros l Hl'; apply Hin; now right | |].
    + apply parseStep_inv; [exact Hl | apply Hin; now left | exact Hinv].
    + apply (parseStep_lines all);
        [exact Hl | apply Hin; now left | exact Hinv | exact Hdone].
Qed.

(** X10: cutting a text into blocks loses no line.  Apart from the blank
    lines at its start, the lines of the contents of the blocks are the
    lines of the text, in order, each of them unchanged or, for a blank
    line, emptied. *)
Theorem parseDBMLIntoBlocks_lines (dbml : str) :
  Forall2 keptLine (dropBlank (split dbml))
    (blockLines (parseDBMLIntoBlocks dbml)).
Proof.
  unfold parseDBMLIntoBlocks.
  set (st0 := mkParse [] [] None None None 0).
  destruct (parseLoop_lines (split dbml) (split dbml) (split_noLF dbml)
              (fun l H => H) [] st0) as [Hinv Hlines].
  - unfold parseInv, blocksInv. simpl. repeat split. constructor.
  - constructor.
  - simpl in Hlines.
    rewrite <- (outLines_flush _ _ Hinv) in Hlines.
    unfold outLines in Hlines. simpl in Hlines.
    now rewrite app_nil_r in Hlines.
Qed.

(** ** The lookup tables of mergeComments *)

Lemma pushTo_lookup (key txt name : str) (m : gmap (list N) (list (list N))) :
  default [] (pushTo key txt m !! name)
  = default [] (m !! name) ++ (if decide (key = name) then [txt] else []).
Proof.
  unfold pushTo. rewrite lookup_insert.
  destruct (decide (key = name)) as [->|]; [reflexivity|].
  now rewrite app_nil_r.
Qed.

Lemma commentsFor_cons (ty : CommentType) (name : str) (c : DBMLComment)
  (cs : list DBMLComment) :
  commentsFor ty name (c :: cs)
  = (if isType ty c && bool_decide (commentTable c = Some name)
     then [text c] else [])
      ++ commentsFor ty name cs.
Proof. unfold commentsFor. simpl. now destruct (_ && _). Qed.

(** What one record adds to the two tables of lines. *)
Lemma addComment_lines (m : CommentMaps) (c : DBMLComment) (name : str) :
  default [] (tableComments (addComment m c) !! name)
  = default [] (tableComments m !! name) ++ commentsFor table name [c]
  /\ default [] (fieldComments (addComment m c) !! name)
     = default [] (fieldComments m !! name) ++ commentsFor field name [c].
Proof.
  rewrite !commentsFor_cons. unfold commentsFor, addComment, isType.
  simpl. rewrite !app_nil_r.
  destruct (ctype c), (commentTable c) as [tbl|], (commentField c);
    simpl; rewrite ?app_nil_r, ?pushTo_lookup; try (split; reflexivity);
    (destruct (decide (tbl = name)) as [->|Hne];
     [rewrite bool_decide_eq_true_2 by reflexivity
     |rewrite bool_decide_eq_false_2 by congruence]);
    now rewrite ?app_nil_r.
Qed.

Lemma buildMaps_lines (cs : list DBMLComment) (name : str) :
  forall m : CommentMaps,
    default [] (tableComments (List.fold_left addComment cs m) !! name)
    = default [] (tableComments m !! name) ++ commentsFor table name cs
    /\ default [] (fieldComments (List.fold_left addComment cs m) !! name)
       = default [] (fieldComments m !! name) ++ commentsFor field name cs.
Proof.
  induction cs as [|c cs IH]; intros m.
  - simpl. now rewrite !app_nil_r.
  - simpl List.fold_left. destruct (IH (addComment m c)) as [-> ->].
    destruct (addComment_lines m c name) as [-> ->].
    rewrite (commentsFor_cons table), (commentsFor_cons field).
    rewrite !commentsFor_cons, !app_nil_r, <- !app_assoc. now split.
Qed.

(** X11: the table of table comments and the table of field comments
    hold, under each table name, the texts of the records of that type
    anchored to that name, in the order of the comment list. *)
Theorem buildMaps_grouped (cs : list DBMLComment) (name : str) :
  default [] (tableComments (buildMaps cs) !! name)
  = commentsFor table name cs
  /\ default [] (fieldComments (buildMaps cs) !! name)
     = commentsFor field name cs.
Proof.
  unfold buildMaps. destruct (buildMaps_lines cs name (mkMaps ∅ ∅ ∅))
    as [-> ->].
  simpl. now rewrite !lookup_empty.
Qed.

Lemma inlineFor_snoc (key : str) (cs : list DBMLComment) (c : DBMLComment) :
  inlineFor key (cs ++ [c])
  = if inlineAt key c then Some (text c) else inlineFor key cs.
Proof.
  unfold inlineFor. rewrite List.filter_app, List.map_app. simpl.
  destruct (inlineAt key c); simpl.
  - now rewrite last_last.
  - now rewrite app_nil_r.
Qed.

Lemma addComment_inline (m : CommentMaps) (c : DBMLComment) (key : str) :
  inlineFieldComments (addComment m c) !! key
  = if inlineAt key c then Some (text c) else inlineFieldComments m !! key.
Proof.
  unfold addComment, inlineAt, isType.
  destruct (ctype c), (commentTable c) as [tbl|], (commentField c) as [fld|];
    simpl; try reflexivity.
  rewrite lookup_insert.
  destruct (decide (inlineKey tbl fld = key)) as [->|Hne].
  - now rewrite bool_decide_eq_true_2.
  - now rewrite bool_decide_eq_false_2.
Qed.

Lemma buildMaps_inline_snoc (cs : list DBMLComment) (key : str) :
  inlineFieldComments (buildMaps cs) !! key = inlineFor key cs.
Proof.
  induction cs as [|c cs IH] using rev_ind.
  - apply lookup_empty.
  - unfold buildMaps in *. rewrite fold_left_app. simpl.
    now rewrite addComment_inline, inlineFor_snoc, IH.
Qed.

(** X12: the table of inline comments holds, under each key, the text of
    the last inline record stored under it: of several inline comments
    with the same table and field, the last one wins. *)
Theorem buildMaps_inline_last (cs : list DBMLComment) (key : str) :
  inlineFieldComments (buildMaps cs) !! key = inlineFor key cs.
Proof. apply buildMaps_inline_snoc. Qed.

(** ** What mergeComments does to the regenerated text *)

Lemma mergeComments_wrapped (regeneratedDbml : str) (cs : list DBMLComment) :
  unanchored (tableNamesOf regeneratedDbml) cs = true ->
  inlineKeysClear (tableNamesOf regeneratedDbml) cs = true ->
  mergeComments regeneratedDbml cs = wrapped regeneratedDbml cs.
Proof.
  intros Hu Hk. unfold mergeComments, wrapped, headerTexts, footerTexts.
  destruct cs as [|c0 cs0] eqn:Ecs.
  - simpl. rewrite app_nil_r. symmetry. apply join_split.
  - rewrite <- Ecs in *. clear Ecs c0 cs0.
    rewrite (mergeLoop_plain (buildMaps cs) (tableNamesOf regeneratedDbml)).
    + cbn [result]. f_equal. rewrite <- !app_assoc.
      pose proof (split_nonempty regeneratedDbml) as Hne.
      destruct (split regeneratedDbml) as [|l ls]; [congruence|].
      destruct (List.filter (isType header) cs) as [|h hs];
        destruct (List.filter (isType footer) cs) as [|f fs];
        simpl; rewrite <- ?app_assoc; reflexivity.
    + apply (buildMaps_clear _ _ Hu Hk).
      intros name _. repeat split; apply lookup_empty.
    + intros line schema name. apply tableNamesOf_line.
    + exact I.
Qed.

(** X13: when no record is anchored to a table of the regenerated text
    (and no inline key falls on one of its fields), [mergeComments]
    returns the text with the header comments and an empty line before
    it and an empty line and the footer comments after it, and changes
    nothing else. *)
Theorem mergeComments_wraps (regeneratedDbml : str) (cs : list DBMLComment) :
  unanchored (tableNamesOf regeneratedDbml) cs = true ->
  inlineKeysClear (tableNamesOf regeneratedDbml) cs = true ->
  mergeComments regeneratedDbml cs = wrapped regeneratedDbml cs.
Proof. apply mergeComments_wrapped. Qed.

Lemma mergeComments_wraps_witness :
  mergeComments scenario [mkComment header (lit "// top") None]
  = wrapped scenario [mkComment header (lit "// top") None].
Proof.
  apply (mergeComments_wraps scenario); vm_compute; reflexivity.
Defined.

Lemma Injected_app (texts l1 p1 l2 p2 : list str) :
  Injected texts l1 p1 -> Injected texts l2 p2 ->
  Injected texts (l1 ++ l2) (p1 ++ p2).
Proof.
  intros H1 H2. induction H1; simpl.
  - exact H2.
  - now apply inj_add.
  - now apply inj_keep.
Qed.

Lemma Injected_only (texts xs : list str) :
  (forall x, In x xs -> x = [] \/ In x texts) -> Injected texts [] xs.
Proof.
  induction xs as [|x xs IH]; intros H; [constructor|].
  apply inj_add; [apply H; now left|]. apply IH. intros y Hy.
  apply H. now right.
Qed.

Lemma commentsFor_texts (ty : CommentType) (name : str)
  (cs : list DBMLComment) (x : str) :
  In x (commentsFor ty name cs) -> In x (List.map text cs).
Proof.
  unfold commentsFor. rewrite !in_map_iff. intros (c & Hc & Hin).
  apply filter_In in Hin as [Hin _]. now exists c.
Qed.

Lemma last_some {A : Type} (l : list (option A)) (x : A) :
  List.last l None = Some x -> In (Some x) l.
Proof.
  induction l as [|a l IH]; [discriminate|].
  destruct l as [|b l]; [simpl; intros ->; now left|].
  intros H. right. now apply IH.
Qed.

Lemma buildMaps_from (cs : list DBMLComment) :
  mapsFrom (List.map text cs) (buildMaps cs).
Proof.
  split; [|split].
  - intros name x. unfold buildMaps.
    destruct (buildMaps_lines cs name (mkMaps ∅ ∅ ∅)) as [-> _].
    simpl. rewrite lookup_empty. apply commentsFor_texts.
  - intros name x. unfold buildMaps.
    destruct (buildMaps_lines cs name (mkMaps ∅ ∅ ∅)) as [_ ->].
    simpl. rewrite lookup_empty. apply commentsFor_texts.
  - intros key x. rewrite buildMaps_inline_snoc. unfold inlineFor.
    intros H. apply last_some in H. apply in_map_iff in H.
    destruct H as (c & Hc & Hin). apply filter_In in Hin as [Hin _].
    injection Hc as <-. now apply in_map.
Qed.

(** One step emits the line, after lines of the tables. *)
Lemma mergeStep_injects (texts : list str) (m : CommentMaps)
  (st : MergeState) (line : str) :
  mapsFrom texts m ->
  exists (ins : list str) (out : str),
    result (mergeStep m st line) = result st ++ ins ++ [out]
    /\ (forall x, In x ins -> In x texts)
    /\ commented texts line out.
Proof.
  intros (Ht & Hf & Hi). unfold mergeStep. cbv zeta.
  set (st0 := mergeOnTable m (trim line) st).
  assert (H0 : exists ins0, result st0 = result st ++ ins0
                            /\ forall x, In x ins0 -> In x texts).
  { unfold st0, mergeOnTable.
    destruct (matchTable (trim line)) as [[schema name]|].
    - exists (default [] (tableComments m !! name)).
      split; [reflexivity | apply Ht].
    - exists []. rewrite app_nil_r. now split. }
  clearbody st0. destruct H0 as (ins0 & Hr0 & Hin0).
  set (st1 := mergeOnBody m st0).
  assert (H1 : exists ins1, result st1 = result st0 ++ ins1
                            /\ forall x, In x ins1 -> In x texts).
  { unfold st1, mergeOnBody.
    destruct (truthy (mCurrentTable st0)) as [tbl|];
      [destruct (_ && _)|].
    - exists (default [] (fieldComments m !! tbl)).
      split; [reflexivity | apply Hf].
    - exists []. rewrite app_nil_r. now split.
    - exists []. rewrite app_nil_r. now split. }
  clearbody st1. destruct H1 as (ins1 & Hr1 & Hin1).
  exists (ins0 ++ ins1), (mergeLine m line (trim line) st1).
  split; [|split].
  - unfold mergeEmit. cbv zeta.
    destruct (_ && _); cbn [result]; rewrite Hr1, Hr0, <- !app_assoc;
      reflexivity.
  - intros x Hx. apply in_app_or in Hx as [Hx|Hx]; auto.
  - unfold mergeLine, commented.
    destruct (truthy (mCurrentTable st1)) as [tbl|]; [|now left].
    destruct (matchField (trim line)) as [fieldName|]; [|now left].
    destruct (mInTableBlock st1); [|now left].
    destruct (truthy (inlineFieldComments m !! inlineKey tbl fieldName))
      as [c|] eqn:Ec; [|now left].
    destruct (includes [SLASH; SLASH] line) eqn:Es; [now left|].
    right. split; [reflexivity|]. exists c. split; [|reflexivity].
    apply truthy_some in Ec. now apply (Hi _ _ Ec).
Qed.

Lemma mergeLoop_injects (texts : list str) (m : CommentMaps)
  (lines : list str) :
  mapsFrom texts m ->
  forall (done : list str) (st : MergeState),
    Injected texts done (result st) ->
    Injected texts (done ++ lines)
      (result (List.fold_left (mergeStep m) lines st)).
Proof.
  intros Hm. induction lines as [|line lines IH]; intros done st Hdone.
  - simpl. now rewrite app_nil_r.
  - change (done ++ line :: lines) with (done ++ [line] ++ lines).
    rewrite app_assoc. simpl List.fold_left. apply IH.
    destruct (mergeStep_injects texts m st line Hm)
      as (ins & out & -> & Hins & Hout).
    apply Injected_app; [exact Hdone|].
    change [line] with ([] ++ [line]). apply Injected_app.
    + apply Injected_only. intros x Hx. right. now apply Hins.
    + apply inj_keep; [exact Hout | constructor].
Qed.

(** X14: [mergeComments] drops and reorders no line of the regenerated
    text and invents nothing: its result is the lines of the text, in
    order, joined with pieces that are empty or the text of a record; a
    line is emitted as it is or, when it holds no [//], followed by a
    space and the text of a record. *)
Theorem mergeComments_keeps_lines (regeneratedDbml : str)
  (cs : list DBMLComment) :
  exists pieces : list str,
    mergeComments regeneratedDbml cs = join pieces
    /\ Injected (List.map text cs) (split regeneratedDbml) pieces.
Proof.
  unfold mergeComments. destruct cs as [|c0 cs0] eqn:Ecs.
  - exists (split regeneratedDbml). split; [symmetry; apply join_split|].
    change (split regeneratedDbml) with ([] ++ split regeneratedDbml) at 1.
    rewrite <- (app_nil_r (split regeneratedDbml)) at 2.
    induction (split regeneratedDbml) as [|l ls IH]; [constructor|].
    simpl. apply inj_keep; [now left | exact IH].
  - rewrite <- Ecs. clear Ecs c0 cs0. cbv zeta.
    eexists. split; [reflexivity|].
    set (texts := List.map text cs).
    assert (Hhead : Injected texts []
                      (List.map text (List.filter (isType header) cs)
                         ++ match List.filter (isType header) cs,
                                  split regeneratedDbml with
                            | _ :: _, _ :: _ => [[]]
                            | _, _ => []
                            end)).
    { apply Injected_only. intros x Hx.
      apply in_app_or in Hx as [Hx|Hx].
      - right. apply in_map_iff in Hx as (c & <- & Hc).
        apply filter_In in Hc as [Hc _]. now apply in_map.
      - left. destruct (List.filter (isType header) cs);
          [destruct Hx|].
        destruct (split regeneratedDbml); [destruct Hx|].
        destruct Hx as [<-|[]]. reflexivity. }
    assert (Hfoot : Injected texts []
                      match List.filter (isType footer) cs with
                      | [] => []
                      | _ :: _ =>
                          [] :: List.map text
                                  (List.filter (isType footer) cs)
                      end).
    { apply Injected_only. intros x Hx.
      destruct (List.filter (isType footer) cs) as [|f fs] eqn:Ef;
        [destruct Hx|].
      destruct Hx as [<-|Hx]; [now left|]. right.
      apply in_map_iff in Hx as (c & <- & Hc). rewrite <- Ef in Hc.
      apply filter_In in Hc as [Hc _]. now apply in_map. }
    pose proof (mergeLoop_injects texts (buildMaps cs)
                  (split regeneratedDbml) (buildMaps_from cs) []
                  (mkMerge _ None false 0 false) Hhead) as Hbody.
    pose proof (Injected_app _ _ _ _ _ Hbody Hfoot) as H.
    rewrite app_nil_r in H. exact H.
Qed.

(** ** The records extractComments returns *)

Lemma forallb_removelast {A : Type} (f : A -> bool) (l : list A) :
  forallb f l = true -> forallb f (removelast l) = true.
Proof.
  induction l as [|a l IH]; [reflexivity|]. intros H.
  simpl in H. apply andb_prop in H as [Ha Hl].
  destruct l as [|b l]; [reflexivity|].
  change (removelast (a :: b :: l)) with (a :: removelast (b :: l)).
  simpl forallb. rewrite Ha. now apply IH.
Qed.

(** X15: a footer record can only be the last record of the list
    [extractComments] returns: the scanning loop pushes no footer, and
    at most one record is pushed after it. *)
Theorem extractComments_footer_last (dbml : str) :
  forallb notFooter (removelast (extractComments dbml)) = true.
Proof.
  unfold extractComments, extractFinish.
  destruct (extractLoop_pushes (split dbml) extractInit) as (new & Hc & Hn).
  simpl in Hc. rewrite Hc.
  destruct (pendingComments _); [now apply forallb_removelast|].
  destruct (negb _); now rewrite removelast_last.
Qed.

Lemma In_dropWhile (f : char -> bool) (s : str) (c : char) :
  In c (dropWhile f s) -> In c s.
Proof.
  induction s as [|x s IH]; simpl; [tauto|].
  destruct (f x); [auto | tauto].
Qed.

Lemma In_trim (s : str) (c : char) : In c (trim s) -> In c s.
Proof.
  unfold trim, trimEnd, trimStart. intros H.
  apply in_rev, In_dropWhile, in_rev in H. now apply In_dropWhile in H.
Qed.

Lemma In_split (s l : str) (c : char) :
  In l (split s) -> In c l -> In c s.
Proof.
  revert l. induction s as [|x s IH]; intros l; simpl.
  - intros [<-|[]] [].
  - destruct (x =? LF).
    + intros [<-|H] Hc; [destruct Hc|]. right. now apply (IH l).
    + pose proof (split_nonempty s) as Hne.
      destruct (split s) as [|l0 ls]; [congruence|].
      intros [<-|H] Hc.
      * destruct Hc as [->|Hc]; [now left|]. right. apply (IH l0); auto.
        now left.
      * right. apply (IH l); auto. now right.
Qed.

Lemma stripPrefix_head (a : char) (p s r : str) :
  stripPrefix (a :: p) s = Some r -> exists s', s = a :: s'.
Proof.
  destruct s as [|c s]; [discriminate|]. simpl.
  destruct (N.eqb_spec c a) as [->|]; [eauto | discriminate].
Qed.

(** A line without a slash holds no comment. *)
Lemma noSlash_line (line : str) :
  ~ In SLASH line ->
  matchSingleLine (trim line) = false
  /\ matchInline line = None
  /\ matchMultiLineStart (trim line) = false.
Proof.
  intros H. split; [|split].
  - rewrite matchSingleLine_scan. unfold scanSingleLine.
    destruct (stripPrefix _ (trim line)) as [r|] eqn:E; [|reflexivity].
    apply stripPrefix_head in E as [s' E]. exfalso. apply H, In_trim.
    rewrite E. now left.
  - destruct (matchInline line) as [[code commentPart]|] eqn:E;
      [|reflexivity].
    apply matchInline_split in E as [E [x ->]]. exfalso. apply H.
    rewrite <- E. apply in_or_app. right. now left.
  - rewrite matchMultiLineStart_scan. unfold scanMultiLineStart.
    destruct (stripPrefix _ (trim line)) as [r|] eqn:E; [|reflexivity].
    apply stripPrefix_head in E as [s' E]. exfalso. apply H, In_trim.
    rewrite E. now left.
Qed.

Lemma noSlash_step (st : ExtractState) (line : str) (rest : list str) :
  ~ In SLASH line ->
  comments st = [] -> pendingComments st = [] ->
  comments (extractStep st line rest) = []
  /\ pendingComments (extractStep st line rest) = []
  /\ skip (extractStep st line rest) = skip st.
Proof.
  intros H Hc Hp. destruct (noSlash_line line H) as (H1 & H2 & H3).
  unfold extractStep. cbv zeta.
  unfold onMultiLine, onInline, onSingleLine. rewrite H1, H2, H3.
  unfold onBraces. cbv zeta.
  assert (He : comments (onEnum (trim line) (onTable (trim line) st)) = []
               /\ pendingComments (onEnum (trim line) (onTable (trim line) st))
                  = []
               /\ skip (onEnum (trim line) (onTable (trim line) st))
                  = skip st).
  { unfold onEnum, onTable.
    destruct (matchTable (trim line)) as [[schema name]|];
      destruct (matchEnum (trim line)); simpl; rewrite ?Hp, ?Hc; simpl;
      auto. }
  destruct (_ && _); simpl; exact He.
Qed.

Lemma noSlash_loop (lines : list str) :
  (forall l, In l lines -> ~ In SLASH l) ->
  forall st : ExtractState,
    comments st = [] -> pendingComments st = [] -> skip st = 0%nat ->
    extractFinish (extractLoop st lines) = [].
Proof.
  induction lines as [|line rest IH]; intros Hl st Hc Hp Hs.
  - unfold extractFinish. simpl. now rewrite Hp.
  - simpl. rewrite Hs.
    destruct (noSlash_step st line rest) as (H1 & H2 & H3);
      [apply Hl; now left | exact Hc | exact Hp |].
    apply IH; [intros l Hin; apply Hl; now right | exact H1 | exact H2 |].
    now rewrite H3.
Qed.

(** X16: a text that holds no slash holds no comment: [extractComments]
    returns the empty list. *)
Theorem extractComments_no_slash (dbml : str) :
  ~ In SLASH dbml -> extractComments dbml = [].
Proof.
  intros H. unfold extractComments. apply noSlash_loop; try reflexivity.
  intros l Hl Hc. apply H. now apply (In_split dbml l).
Qed.

Lemma extractComments_no_slash_witness :
  extractComments (tableText "a") = [].
Proof.
  apply (extractComments_no_slash (tableText "a")).
  vm_compute. intuition discriminate.
Defined.

(** What the check for a comment line asks of a line. *)
Lemma isCommentLine_spec (line : str) :
  isCommentLine line = true
  <-> exists r,
        trim line = SLASH :: SLASH :: r
        /\ forallb (fun c => negb (isLineTerminator c)) r = true.
Proof.
  unfold isCommentLine. rewrite matchSingleLine_scan. unfold scanSingleLine.
  split.
  - destruct (trim line) as [|a [|b r]]; simpl; try discriminate.
    + destruct (a =? SLASH); discriminate.
    + destruct (N.eqb_spec a SLASH) as [->|]; [|discriminate].
      destruct (N.eqb_spec b SLASH) as [->|]; [|discriminate]. eauto.
  - intros (r & -> & H). exact H.
Qed.

(** A carriage return inside the line is enough to fail the check: the
    line starts with two slashes, and no record is extracted. *)
Lemma carriageReturn_no_comment :
  trim carriageReturnLine = SLASH :: SLASH :: lit " a" ++ [13] ++ lit "// b"
  /\ isCommentLine carriageReturnLine = false
  /\ extractComments carriageReturnLine = [].
Proof. vm_compute. repeat split; reflexivity. Qed.

(** A comment line, trimmed, starts with two slashes. *)
Lemma isCommentLine_head (line : str) :
  isCommentLine line = true -> exists r, trim line = SLASH :: SLASH :: r.
Proof.
  unfold isCommentLine. rewrite matchSingleLine_scan. unfold scanSingleLine.
  destruct (trim line) as [|a [|b r]]; simpl; try discriminate.
  - destruct (a =? SLASH); discriminate.
  - destruct (N.eqb_spec a SLASH) as [->|]; [|discriminate].
    destruct (N.eqb_spec b SLASH) as [->|]; [|discriminate]. eauto.
Qed.

Lemma commentLine_step (d : Z) (pend : list str) (line : str)
  (rest : list str) :
  isCommentLine line = true ->
  exists d',
    extractStep (mkExtract [] None false d false pend 0) line rest
    = mkExtract [] None false d' false (pend ++ [line]) 0.
Proof.
  intros H. pose proof H as Hs. unfold isCommentLine in Hs.
  apply isCommentLine_head in H as [r Ht].
  unfold extractStep. cbv zeta. rewrite Ht in *.
  change (onTable (SLASH :: SLASH :: r) ?s) with s.
  change (onEnum (SLASH :: SLASH :: r) ?s) with s.
  unfold onSingleLine. rewrite Hs. unfold placeComment.
  cbn [foundFirstDefinition negb].
  unfold onInline. rewrite Hs. cbn [negb].
  assert (Hi : forall s : ExtractState,
             match matchInline line with
             | Some (_, _) => s
             | None => s
             end = s)
    by (intros s; now destruct (matchInline line) as [[? ?]|]).
  rewrite Hi.
  change (onMultiLine line (SLASH :: SLASH :: r) rest ?s) with s.
  unfold onBraces. cbv zeta. cbn [inTableBlock andb braceDepth comments
    currentTable foundFirstDefinition pendingComments skip].
  eauto.
Qed.

Lemma commentLines_loop (lines : list str) :
  forallb isCommentLine lines = true ->
  forall (d : Z) (pend : list str),
  exists d',
    extractLoop (mkExtract [] None false d false pend 0) lines
    = mkExtract [] None false d' false (pend ++ lines) 0.
Proof.
  induction lines as [|line rest IH]; intros H d pend.
  - exists d. now rewrite app_nil_r.
  - simpl in H. apply andb_prop in H as [Hl Hr].
    cbn [extractLoop skip].
    destruct (commentLine_step d pend line rest Hl) as [d1 ->].
    destruct (IH Hr d1 (pend ++ [line])) as [d2 ->].
    exists d2. now rewrite <- app_assoc.
Qed.

Lemma extractComments_commentLines (dbml : str) :
  forallb isCommentLine (split dbml) = true ->
  extractComments dbml = [mkComment header dbml None].
Proof.
  intros H. unfold extractComments, extractInit.
  destruct (commentLines_loop _ H 0%Z []) as [d ->].
  unfold extractFinish. cbn [pendingComments foundFirstDefinition comments].
  simpl app. pose proof (split_nonempty dbml) as Hne.
  pose proof (join_split dbml) as Hj.
  destruct (split dbml); [congruence|]. simpl negb. cbv iota.
  now rewrite Hj.
Qed.

(** X17: a text every line of which is a single-line comment for the
    check of the code (trimmed, the line starts with two slashes and
    holds no carriage return, U+2028 or U+2029 after them) is one header
    comment: [extractComments] returns one header record that holds the
    whole text. *)
Theorem extractComments_preamble (dbml : str) :
  forallb isCommentLine (split dbml) = true ->
  extractComments dbml = [mkComment header dbml None].
Proof. apply extractComments_commentLines. Qed.

Lemma extractComments_preamble_witness :
  extractComments preamble = [mkComment header preamble None].
Proof. apply (extractComments_preamble preamble). vm_compute. reflexivity. Defined.

Lemma unanchored_header (names : list str) (txt : str) :
  unanchored names [mkComment header txt None] = true
  /\ inlineKeysClear names [mkComment header txt None] = true.
Proof.
  unfold unanchored, inlineKeysClear. simpl. rewrite !andb_true_r.
  split; now induction names.
Qed.

(** X18: round trip of a preamble.  When every line of the original
    text is a single-line comment for the check of the code (trimmed, it
    starts with two slashes and holds no carriage return, U+2028 or
    U+2029 after them), merging the comments extracted from it into any
    regenerated text gives the original text, an empty line, and the
    regenerated text. *)
Theorem merge_extract_preamble (original regeneratedDbml : str) :
  forallb isCommentLine (split original) = true ->
  mergeComments regeneratedDbml (extractComments original)
  = original ++ [LF; LF] ++ regeneratedDbml.
Proof.
  intros H. rewrite (extractComments_commentLines _ H).
  destruct (unanchored_header (tableNamesOf regeneratedDbml) original)
    as [Hu Hk].
  rewrite (mergeComments_wrapped _ _ Hu Hk).
  unfold wrapped, headerTexts, footerTexts. simpl List.filter.
  simpl List.map. rewrite app_nil_r.
  pose proof (split_nonempty regeneratedDbml) as Hne.
  pose proof (join_split regeneratedDbml) as Hj.
  destruct (split regeneratedDbml) as [|l ls]; [congruence|].
  transitivity (original ++ LF :: [] ++ LF :: join (l :: ls));
    [reflexivity|].
  now rewrite Hj.
Qed.

Lemma merge_extract_preamble_witness :
  mergeComments scenario (extractComments preamble)
  = preamble ++ [LF; LF] ++ scenario.
Proof.
  apply (merge_extract_preamble preamble scenario). vm_compute. reflexivity.
Defined.

(** ** A comment that is left open *)

Lemma openComment_tail (rest : list str) :
  forall line : str,
    forallb (fun l => negb (closesComment l)) (line :: rest) = true ->
    multiLineTail line rest = rest
    /\ multiLineSkip line rest = S (List.length rest).
Proof.
  unfold closesComment.
  induction rest as [|l rest IH]; intros line H; simpl in H;
    apply andb_prop in H as [Hl Hr]; apply negb_true_iff in Hl.
  - simpl. now rewrite Hl.
  - cbn [multiLineTail multiLineSkip]. rewrite Hl.
    destruct (IH l Hr) as [-> ->]. now split.
Qed.

Lemma join_concat (rest : list str) :
  forall line : str,
    join (line :: rest)
    = line ++ concat (List.map (fun l => LF :: l) rest).
Proof.
  induction rest as [|l rest IH]; intros line.
  - simpl. now rewrite app_nil_r.
  - rewrite join_cons by discriminate. now rewrite IH.
Qed.

(** The iterations the loop jumps over leave the records as they are. *)
Lemma extractLoop_skipped (rest : list str) :
  forall st : ExtractState,
    (List.length rest <= skip st)%nat ->
    extractFinish (extractLoop st rest) = extractFinish st.
Proof.
  induction rest as [|l rest IH]; intros st H; [reflexivity|].
  simpl in *. destruct (skip st) as [|k]; [lia|].
  rewrite IH; [reflexivity | simpl; lia].
Qed.

Lemma openComment_head (line : str) :
  matchMultiLineStart (trim line) = true ->
  exists r, trim line = SLASH :: STAR :: r.
Proof.
  rewrite matchMultiLineStart_scan. unfold scanMultiLineStart.
  destruct (trim line) as [|a [|b r]]; simpl; try discriminate.
  - destruct (a =? SLASH); discriminate.
  - destruct (N.eqb_spec a SLASH) as [->|]; [|discriminate].
    destruct (N.eqb_spec b STAR) as [->|]; [|discriminate]. eauto.
Qed.

(** X19: a comment that is opened at the start of the text and never
    closed takes the whole text, table definitions included: the result
    is one header record that holds the text. *)
Theorem extractComments_open_comment (dbml : str) :
  matchMultiLineStart (trim (hd [] (split dbml))) = true ->
  forallb (fun l => negb (closesComment l)) (split dbml) = true ->
  extractComments dbml = [mkComment header dbml None].
Proof.
  intros Hstart Hopen. unfold extractComments.
  pose proof (join_split dbml) as Hj.
  destruct (split dbml) as [|line rest]; [discriminate|].
  simpl hd in Hstart. pose proof Hstart as Hs.
  apply openComment_head in Hs as [r Ht].
  destruct (openComment_tail rest line Hopen) as [Htail Hskip].
  cbn [extractLoop extractInit skip].
  rewrite extractLoop_skipped.
  - unfold extractStep. cbv zeta. rewrite Ht in *.
    change (onTable (SLASH :: STAR :: r) ?s) with s.
    change (onEnum (SLASH :: STAR :: r) ?s) with s.
    change (onSingleLine line (SLASH :: STAR :: r) ?s) with s.
    assert (Hi : onInline line (SLASH :: STAR :: r) extractInit
                 = extractInit).
    { unfold onInline. destruct (matchInline line) as [[code cp]|];
        [|reflexivity].
      destruct (negb _); [|reflexivity]. now destruct (matchField _). }
    rewrite Hi. unfold onMultiLine. rewrite Hstart. cbv zeta.
    rewrite Htail, <- join_concat, Hj. unfold onBraces. cbv zeta.
    now destruct (_ && _).
  - unfold extractStep. cbv zeta. unfold onBraces. cbv zeta.
    destruct (_ && _); cbn [skip]; unfold onMultiLine; rewrite Hstart;
      cbn [skip]; rewrite Hskip; lia.
Qed.

Lemma extractComments_open_comment_witness :
  extractComments openComment = [mkComment header openComment None].
Proof.
  apply (extractComments_open_comment openComment); vm_compute; reflexivity.
Defined.

(** ** What reorderDBML keeps *)

Lemma ink_join (parts : list str) :
  List.filter isInk (join parts) = flat_map (List.filter isInk) parts.
Proof.
  induction parts as [|p ps IH]; [reflexivity|].
  destruct ps as [|q ps]; [simpl; now rewrite app_nil_r|].
  rewrite join_cons by discriminate.
  rewrite List.filter_app. cbn [List.filter]. change (isInk LF) with false.
  cbv iota. rewrite IH. reflexivity.
Qed.

Lemma ink_contents (bs : list DBMLBlock) :
  flat_map (List.filter isInk) (List.map content bs) = inkOf bs.
Proof.
  unfold inkOf. induction bs as [|b bs IH]; [reflexivity|].
  simpl. now rewrite IH.
Qed.

(** X20: apart from whitespace, the text [reorderDBML] returns is the
    Enum blocks, then the Table blocks as sorted, then the Ref blocks;
    what lies outside these blocks is dropped. *)
Theorem reorderDBML_kept_blocks (regeneratedDbml : str)
  (originalOrder : list DBMLTableOrder) :
  let bs := parseDBMLIntoBlocks regeneratedDbml in
  List.filter isInk (reorderDBML regeneratedDbml originalOrder)
  = inkOf (List.filter (isBlockType bEnum) bs)
      ++ inkOf (sortedTableBlocks bs originalOrder)
      ++ inkOf (List.filter (isBlockType bRef) bs).
Proof.
  intros bs. rewrite reorderDBML_ink_reassemble. unfold reassemble.
  fold bs. rewrite ink_join. unfold resultParts.
  rewrite !flat_map_app, !ink_contents. f_equal.
  assert (Hsep : flat_map (List.filter isInk)
                   match List.filter (isBlockType bEnum) bs,
                         sortedTableBlocks bs originalOrder with
                   | _ :: _, _ :: _ => [[]]
                   | _, _ => []
                   end = [])
    by (destruct (List.filter (isBlockType bEnum) bs),
                 (sortedTableBlocks bs originalOrder); reflexivity).
  rewrite Hsep. simpl app. f_equal.
  destruct (List.filter (isBlockType bRef) bs) as [|b l]; [reflexivity|].
  change (flat_map (List.filter isInk) ([] :: List.map content (b :: l)))
    with (flat_map (List.filter isInk) (List.map content (b :: l))).
  apply ink_contents.
Qed.

(** * The completion provider *)

Lemma span_app (p : char -> bool) (s : str) :
  s = takeWhile p s ++ dropWhile p s.
Proof.
  induction s as [|c s IH]; [reflexivity|].
  simpl. destruct (p c); [simpl; now rewrite <- IH | reflexivity].
Qed.

Lemma takeWhile_all (p : char -> bool) (s : str) :
  forallb p (takeWhile p s) = true.
Proof.
  induction s as [|c s IH]; [reflexivity|].
  simpl. destruct (p c) eqn:E; [simpl; now rewrite E | reflexivity].
Qed.

(** The identifier pattern at the start of a text. *)
Lemma matchAt_reIdent (c : char) (r : str) :
  matchAt reIdent (c :: r)
  = if isIdentStart c then Some (noCaptures, dropWhile isWord r) else None.
Proof.
  unfold matchAt, reIdent. cbn [seqs List.fold_right rx].
  destruct (isIdentStart c); [|reflexivity].
  now rewrite starGreedy_total by discriminate.
Qed.

Lemma occursIn_tail (w s : str) (c : char) :
  occursIn w s -> occursIn w (c :: s).
Proof. intros (a & b & ->). now exists (c :: a), b. Qed.

Lemma occursIn_suffix (w s pre : str) :
  occursIn w s -> occursIn w (pre ++ s).
Proof.
  intros (a & b & ->). exists (pre ++ a), b. now rewrite <- app_assoc.
Qed.

Lemma matchAllFrom_idents (fuel : nat) :
  forall (s w : str),
    In w (matchAllFrom reIdent fuel s) ->
    isIdent w = true /\ occursIn w s.
Proof.
  induction fuel as [|fuel IH]; intros s w; [intros []|].
  destruct s as [|c r]; [intros []|].
  cbn [matchAllFrom]. rewrite matchAt_reIdent.
  destruct (isIdentStart c) eqn:Ec.
  - pose proof (firstn_takeWhile isWord r) as Hf.
    pose proof (dropWhile_length isWord r) as Hl.
    replace (List.length (c :: r) - List.length (dropWhile isWord r))%nat
      with (S (List.length r - List.length (dropWhile isWord r)))
      by (simpl; lia).
    cbn [firstn]. rewrite Hf. intros [<-|H].
    + split; [simpl; now rewrite Ec, takeWhile_all|].
      exists [], (dropWhile isWord r). simpl.
      now rewrite <- span_app.
    + apply IH in H as [H1 H2]. split; [exact H1|].
      apply occursIn_tail. rewrite (span_app isWord r).
      now apply occursIn_suffix.
  - intros H. apply IH in H as [H1 H2]. split; [exact H1|].
    now apply occursIn_tail.
Qed.

(** X21: the words the provider finds in the document are identifiers
    (a letter or an underscore, then letters, digits and underscores)
    that occur in it. *)
Theorem matchAll_idents (text w : str) :
  In w (matchAll reIdent text) -> isIdent w = true /\ occursIn w text.
Proof. apply matchAllFrom_idents. Qed.

Lemma matchAll_idents_witness :
  isIdent (lit "users9") = true
  /\ occursIn (lit "users9") (lit "Table users9 {").
Proof.
  apply (matchAll_idents (lit "Table users9 {") (lit "users9")).
  vm_compute. right. now left.
Defined.

(** A set holds what was added to it, once. *)
Lemma setAdd_spec (s : list str) (x y : str) :
  In y (setAdd s x) <-> In y s \/ y = x.
Proof.
  unfold setAdd. destruct (decide (x ∈ s)) as [H|H].
  - apply list_elem_of_In in H. split; [tauto|].
    intros [Hy| ->]; assumption.
  - rewrite in_app_iff. simpl. intuition congruence.
Qed.

Lemma NoDup_snoc {A : Type} (l : list A) (x : A) :
  List.NoDup l -> ~ In x l -> List.NoDup (l ++ [x]).
Proof.
  induction 1 as [|y l Hy Hl IH]; intros Hx; simpl.
  - constructor; [intros [] | constructor].
  - constructor.
    + rewrite in_app_iff. simpl. intros [H|[H|[]]]; [contradiction|].
      apply Hx. now left.
    + apply IH. intros H. apply Hx. now right.
Qed.

Lemma setAdd_NoDup (s : list str) (x : str) :
  List.NoDup s -> List.NoDup (setAdd s x).
Proof.
  intros Hs. unfold setAdd. destruct (decide (x ∈ s)) as [H|H];
    [exact Hs|].
  apply NoDup_snoc; [exact Hs|]. intros Hx. apply H.
  now apply list_elem_of_In.
Qed.

Lemma newSet_from (xs : list str) :
  forall acc : list str,
    List.NoDup acc ->
    List.NoDup (List.fold_left setAdd xs acc)
    /\ forall y, In y (List.fold_left setAdd xs acc) <-> In y acc \/ In y xs.
Proof.
  induction xs as [|x xs IH]; intros acc Hacc; simpl.
  - split; [exact Hacc | tauto].
  - destruct (IH (setAdd acc x) (setAdd_NoDup _ _ Hacc)) as [Hn Hin].
    split; [exact Hn|]. intros y. rewrite Hin, setAdd_spec.
    intuition congruence.
Qed.

Lemma newSet_spec (xs : list str) :
  List.NoDup (newSet xs) /\ forall y, In y (newSet xs) <-> In y xs.
Proof.
  destruct (newSet_from xs [] (List.NoDup_nil _)) as [Hn Hin].
  split; [exact Hn|]. intros y. rewrite (Hin y). simpl. tauto.
Qed.

Lemma setHas_spec (s : list str) (x : str) :
  setHas s x = true <-> In x s.
Proof.
  unfold setHas. rewrite bool_decide_eq_true. apply list_elem_of_In.
Qed.

Lemma textLabels_app (a b : list CompletionItem) :
  textLabels (a ++ b) = textLabels a ++ textLabels b.
Proof. unfold textLabels. now rewrite List.filter_app, List.map_app. Qed.

Lemma textLabels_itemsOf (k : CompletionItemKind) (r : Range)
  (ws : list str) :
  textLabels (itemsOf k r ws)
  = match k with Text => ws | _ => [] end.
Proof.
  unfold textLabels, itemsOf.
  induction ws as [|w ws IH]; [now destruct k|].
  simpl. destruct k; simpl; try exact IH. now rewrite IH.
Qed.

Lemma NoDup_filter' {A : Type} (f : A -> bool) (l : list A) :
  List.NoDup l -> List.NoDup (List.filter f l).
Proof.
  induction 1 as [|x l Hx Hl IH]; simpl; [constructor|].
  destruct (f x); [|exact IH]. constructor; [|exact IH].
  intros H. apply filter_In in H as [H _]. contradiction.
Qed.

(** X22: the suggestions of kind Text are the identifiers found in the
    document that have two characters or more and are not the label of a
    keyword, setting or data type suggestion; each is suggested once. *)
Theorem provideCompletionItems_words (types : list str) (text : str)
  (lineNumber wordStart wordEnd : Z) :
  let ws :=
    textLabels
      (provideCompletionItems types text lineNumber wordStart wordEnd) in
  List.NoDup ws
  /\ forall w,
       In w ws
       <-> In w (matchAll reIdent text)
           /\ (1 < List.length w)%nat
           /\ ~ In w (keywords ++ settings ++ types).
Proof.
  unfold provideCompletionItems. cbv zeta.
  rewrite !textLabels_app, !textLabels_itemsOf. simpl app.
  destruct (newSet_spec (matchAll reIdent text)) as [Hn Hin].
  destruct (newSet_spec (keywords ++ settings ++ types)) as [_ Hex].
  split; [now apply NoDup_filter'|].
  intros w. rewrite filter_In, Hin, andb_true_iff, negb_true_iff.
  rewrite Nat.ltb_lt, <- Hex.
  pose proof (setHas_spec (newSet (keywords ++ settings ++ types)) w) as Hs.
  destruct (setHas _ w); intuition congruence.
Qed.
